(** * KlayGE MeshConverter: a shallow embedding of the conversion pipeline

    The embedded functions come from
    [KlayGE/Tools/src/Common/MeshConverter.cpp]:
    [GetInterpTime], [MatrixToDQ], [BuildMeshData] (joint bindings),
    [BuildJoints], [BuildActions], [ResampleJointTransform],
    [LoadFromAssimp], [RemoveUnusedJoints], [RemoveUnusedMaterials],
    [CompressKeyFrameSet] and [Convert] (position quantisation and the
    early exits).

    Conventions.
    - A C++ [float] is a rational number ([Q]): arithmetic is exact, there
      is no rounding, no NaN and no infinity.  Comparisons of floats are
      therefore exact; products, quotients and sums are idealised.
    - [size_t] indices are [nat]; [int] and [uint32_t] values are [Z].
    - [std::vector] is [list]; [std::map<std::string, _>] is [gmap string _].
    - Signed [int] arithmetic is unbounded where an overflow would be
      undefined behaviour in the source; casts to a narrower integer type
      wrap and are written out.
    - Helpers of [MathLib] whose code is outside the sources (decompose,
      sclerp, slerp, the matrix inverse, ...) are the operations of the
      class [MathLib]; [std::sort] is the operation of the class [StdSort]. *)

From Stdlib Require Import QArith Qround Qabs Lqa.
From stdpp Require Import base list gmap strings sorting.

Local Open Scope Q_scope.

(** ** Floats, vectors, quaternions and matrices *)

Abbreviation float := Q.

(** Modelled from the spec: [MathLib::clamp] (KFL/Math.hpp is not among the
    sources): the value limited to the closed interval [lo, hi]. *)
Definition clamp (x lo hi : float) : float :=
  if Qlt_le_dec x lo then lo else if Qlt_le_dec hi x then hi else x.

Record float3 := Float3 { v_x : float; v_y : float; v_z : float }.

(** [Quaternion(x, y, z, w)]: three vector components and the scalar [w]. *)
Record Quaternion := Quat { q_x : float; q_y : float; q_z : float; q_w : float }.

Definition Quaternion_Identity : Quaternion := Quat 0 0 0 1.

(** Unary minus of a quaternion: every component negated. *)
Definition quat_neg (q : Quaternion) : Quaternion :=
  Quat (- q_x q) (- q_y q) (- q_z q) (- q_w q).

(** Squared length of a quaternion; a unit quaternion has squared length 1. *)
Definition quat_norm2 (q : Quaternion) : float :=
  q_x q * q_x q + q_y q * q_y q + q_z q * q_z q + q_w q * q_w q.

Definition quat_unit (q : Quaternion) : Prop := quat_norm2 q == 1.

(** Modelled from the spec: [MathLib::dot] on quaternions, the sum of the
    products of the components. *)
Definition quat_dot (a b : Quaternion) : float :=
  q_x a * q_x b + q_y a * q_y b + q_z a * q_z b + q_w a * q_w b.

(** Modelled from the spec: [MathLib::dot] and [MathLib::cross] on
    [float3]; [dot (cross r0 r1) r2] is the determinant of the matrix with
    rows [r0], [r1], [r2], whose sign the spec calls the reflection test. *)
Definition dot3 (a b : float3) : float :=
  v_x a * v_x b + v_y a * v_y b + v_z a * v_z b.

Definition cross3 (a b : float3) : float3 :=
  Float3 (v_y a * v_z b - v_z a * v_y b)
         (v_z a * v_x b - v_x a * v_z b)
         (v_x a * v_y b - v_y a * v_x b).

(** Modelled from the spec: [MathLib::lerp], linear interpolation. *)
Definition lerp (a b s : float) : float := a + (b - a) * s.

Definition lerp3 (a b : float3) (s : float) : float3 :=
  Float3 (lerp (v_x a) (v_x b) s) (lerp (v_y a) (v_y b) s) (lerp (v_z a) (v_z b) s).

(** A [float4x4] read as [mat(row, col)]. *)
Definition float4x4 : Type := nat → nat → float.

Definition float4x4_Identity : float4x4 :=
  fun i j => if (i =? j)%nat then 1 else 0.

(** Modelled from the spec: [MathLib::transpose] and the matrix product
    [operator*] of [float4x4]. *)
Definition mat_transpose (m : float4x4) : float4x4 := fun i j => m j i.

Definition mat_mul (a b : float4x4) : float4x4 :=
  fun i j => a i 0%nat * b 0%nat j + a i 1%nat * b 1%nat j
             + a i 2%nat * b 2%nat j + a i 3%nat * b 3%nat j.

(** The rows of the upper-left 3x3 block. *)
Definition mat_row3 (m : float4x4) (i : nat) : float3 :=
  Float3 (m i 0%nat) (m i 1%nat) (m i 2%nat).

(** [dot(cross(row0, row1), row2)]: the determinant of the 3x3 block. *)
Definition mat_det3 (m : float4x4) : float :=
  dot3 (cross3 (mat_row3 m 0) (mat_row3 m 1)) (mat_row3 m 2).

(** The helpers of [MathLib] that the converter calls and whose code is not
    among the sources. *)
Class MathLib := {
  (** [decompose(scale, rot, trans, mat)]: the three outputs. *)
  decompose : float4x4 → float3 * Quaternion * float3;
  quat_trans_to_udq : Quaternion → float3 → Quaternion;
  SignBit : float → float;
  mat_inverse : float4x4 → float4x4;
  slerp : Quaternion → Quaternion → float → Quaternion;
  sclerp : Quaternion → Quaternion → Quaternion → Quaternion → float
           → Quaternion * Quaternion;
  (** [inverse(real, dual)] of a dual quaternion. *)
  dq_inverse : Quaternion → Quaternion → Quaternion * Quaternion;
  mul_real : Quaternion → Quaternion → Quaternion;
  mul_dual : Quaternion → Quaternion → Quaternion → Quaternion → Quaternion;
}.

(** What the spec says of the absent helpers that the proofs rely on:
    [decompose] yields a unit rotation quaternion, and [SignBit] has the sign
    of its argument on negative and on positive numbers. *)
Class MathLibContract (M : MathLib) := {
  decompose_unit : ∀ m, quat_unit (snd (fst (decompose m)));
  SignBit_neg : ∀ x, x < 0 → SignBit x < 0;
  SignBit_pos : ∀ x, 0 < x → 0 < SignBit x;
}.

(** Fixed-width integers: the value of a cast to [int16_t] or [int]. *)
Definition to_int16 (z : Z) : Z := ((z + 32768) mod 65536 - 32768)%Z.
Definition to_int32 (z : Z) : Z := ((z + 2147483648) mod 4294967296 - 2147483648)%Z.

(** ** GetInterpTime *)

Section InterpTime.
Context {T : Type}.

(** [vec[i].first]; an index outside the vector is undefined behaviour in
    the source and reads [0] here. *)
Definition time_of (vec : list (float * T)) (i : nat) : float :=
  match vec !! i with
  | Some s => fst s
  | None => 0
  end.

(** The scan [for (i = itime_upper; i < vec_size; ++ i)] that stops at the
    first sample whose time is [>= time]; [rest] is the part of the
    vector from index [i] on. *)
Fixpoint scan_from (rest : list (float * T)) (time : float) (i : nat) : nat :=
  match rest with
  | [] => i
  | s :: rest' =>
      if Qle_bool time (fst s) then i else scan_from rest' time (S i)
  end.

Definition find_upper (vec : list (float * T)) (time : float) (itime_upper : nat) : nat :=
  scan_from (drop itime_upper vec) time itime_upper.

(** The bracket chosen from the index the scan stopped at. *)
Definition bracket (vec_size i : nat) : nat * nat :=
  if (i =? 0)%nat then (0, 1)%nat
  else if (vec_size - 1 <=? i)%nat then (vec_size - 2, vec_size - 1)%nat
  else (i - 1, i)%nat.

Definition interp_fraction (vec : list (float * T)) (time : float) (lo up : nat) : float :=
  let diff := time_of vec up - time_of vec lo in
  clamp (if Qeq_bool diff 0 then 0 else (time - time_of vec lo) / diff) 0 1.

(** Returns the fraction and the new values of the two in-out indices
    [(itime_lower, itime_upper)].  The source asserts [!vec.empty()]. *)
Definition GetInterpTime (vec : list (float * T)) (time : float) (itime_upper : nat)
  : float * (nat * nat) :=
  if (length vec =? 1)%nat then (0, (0, 0)%nat)
  else
    let vec_size := length vec in
    let i := find_upper vec time itime_upper in
    let '(lo, up) := bracket vec_size i in
    (interp_fraction vec time lo up, (lo, up)).

(** Sample times that increase strictly along the track. *)
Definition strictly_increasing (vec : list (float * T)) : Prop :=
  ∀ i j, (i < j)%nat → (j < length vec)%nat → time_of vec i < time_of vec j.

End InterpTime.


(** ** MatrixToDQ *)

(** The matrix with its third row negated in the 3x3 block, as done when
    the determinant is negative. *)
Definition flip_row2 (m : float4x4) : float4x4 :=
  fun i j => if ((i =? 2) && (j <? 3))%nat then - m i j else m i j.

(** The outputs [(bind_real, bind_dual, bind_scale)]. *)
Definition MatrixToDQ `{MathLib} (mat : float4x4) : Quaternion * Quaternion * float :=
  let reflected := if Qlt_le_dec (mat_det3 mat) 0 then true else false in
  let tmp_mat := if reflected then flip_row2 mat else mat in
  let flip : float := if reflected then -1 else 1 in
  let '(scale, bind_real, trans) := decompose tmp_mat in
  let bind_dual := quat_trans_to_udq bind_real trans in
  if Qlt_le_dec (flip * SignBit (q_w bind_real)) 0
  then (quat_neg bind_real, quat_neg bind_dual, v_x scale)
  else (bind_real, bind_dual, v_x scale).

(** The sign that [MatrixToDQ] calls [flip]. *)
Definition flip_of (mat : float4x4) : float :=
  if Qlt_le_dec (mat_det3 mat) 0 then -1 else 1.

(** ** The importer's scene *)

Record aiBone := {
  bone_mName : string;
  mOffsetMatrix : float4x4;
  (** [(mVertexId, mWeight)] for each weight of the bone. *)
  mWeights : list (nat * float);
}.

Record aiMesh := {
  mNumVertices : nat;
  mMaterialIndex : nat;
  mBones : list aiBone;
}.

Local Unset Elimination Schemes.
Inductive aiNode : Type :=
  AiNode (mName : string) (mTransformation : float4x4)
         (mMeshes : list nat) (mChildren : list aiNode).
Local Set Elimination Schemes.

(** One channel of a clip: the node name and the three key tracks. *)
Record aiNodeAnim := {
  mNodeName : string;
  mPositionKeys : list (float * float3);
  mRotationKeys : list (float * Quaternion);
  mScalingKeys : list (float * float3);
}.

Record aiAnimation := {
  anim_mName : string;
  mDuration : float;
  mTicksPerSecond : float;
  mChannels : list aiNodeAnim;
}.

Record aiScene := {
  scene_mMeshes : list aiMesh;
  mRootNode : aiNode;
  mAnimations : list aiAnimation;
}.

(** ** Joints *)

Record Joint := {
  joint_name : string;
  (** [int16_t parent], -1 for a root. *)
  parent : Z;
  bind_real : Quaternion;
  bind_dual : Quaternion;
  bind_scale : float;
  inverse_origin_real : Quaternion;
  inverse_origin_dual : Quaternion;
  inverse_origin_scale : float;
}.

(** A default-constructed [Joint] with the three bind fields assigned; the
    fields the source leaves unset read as zero (and [parent] as 0). *)
Definition new_joint (name : string) (r d : Quaternion) (s : float) : Joint :=
  {| joint_name := name; parent := 0;
     bind_real := r; bind_dual := d; bind_scale := s;
     inverse_origin_real := Quat 0 0 0 0; inverse_origin_dual := Quat 0 0 0 0;
     inverse_origin_scale := 0 |}.

(** ** BuildJoints *)

(** The joint made from one bone of a mesh attached to a node whose
    accumulated transform is [mesh_trans]. *)
Definition bone_joint `{MathLib} (mesh_trans : float4x4) (bone : aiBone) : Joint :=
  let bone_to_mesh :=
    mat_mul (mat_inverse (mat_transpose (mOffsetMatrix bone))) mesh_trans in
  let '(r, d, s) := MatrixToDQ bone_to_mesh in
  new_joint (bone_mName bone) r d s.

(** The two loops over the meshes of a node and over their bones.  A mesh
    index outside [scene->mMeshes] is undefined behaviour in the source and
    contributes no bone here. *)
Definition add_node_bones `{MathLib} (meshes : list aiMesh) (mesh_trans : float4x4)
    (node_meshes : list nat) (joint_nodes : gmap string Joint) : gmap string Joint :=
  foldl (fun jn mi =>
           match meshes !! mi with
           | Some mesh =>
               foldl (fun jn bone => <[bone_mName bone := bone_joint mesh_trans bone]> jn)
                     jn (mBones mesh)
           | None => jn
           end)
        joint_nodes node_meshes.

Fixpoint build_bind_matrix `{MathLib} (meshes : list aiMesh) (node : aiNode)
    (parent_mat : float4x4) (joint_nodes : gmap string Joint) : gmap string Joint :=
  match node with
  | AiNode _ trans node_meshes children =>
      let mesh_trans := mat_mul (mat_transpose trans) parent_mat in
      let jn := add_node_bones meshes mesh_trans node_meshes joint_nodes in
      (fix over_children (cs : list aiNode) (jn : gmap string Joint) :=
         match cs with
         | [] => jn
         | c :: cs' => over_children cs' (build_bind_matrix meshes c mesh_trans jn)
         end) children jn
  end.

(** The helper joint of a node that has a bone below it but no bone data. *)
Definition helper_joint (name : string) : Joint :=
  new_joint name Quaternion_Identity (Quat 0 0 0 0) 1.

(** Returns [child_has_bone] and the updated map.  [iter] is looked up
    before the children are visited, as in the source. *)
Fixpoint mark_joint_nodes (node : aiNode) (joint_nodes : gmap string Joint)
    : bool * gmap string Joint :=
  match node with
  | AiNode name _ _ children =>
      let found := bool_decide (is_Some (joint_nodes !! name)) in
      let '(child_has_bone, jn) :=
        (fix over_children (cs : list aiNode) (acc : bool * gmap string Joint) :=
           match cs with
           | [] => acc
           | c :: cs' =>
               let '(b, jn') := mark_joint_nodes c (snd acc) in
               over_children cs' (b || fst acc, jn')
           end) children (found, joint_nodes) in
      if child_has_bone && negb found
      then (child_has_bone, <[name := helper_joint name]> jn)
      else (child_has_bone, jn)
  end.

(** The joint written back into the map and pushed onto [joints_]: the
    local matrix goes to the borrowed [inverse_origin_*] fields and the
    parent is cast to [int16_t]. *)
Definition alloc_joint `{MathLib} (j : Joint) (local_matrix : float4x4) (parent_id : Z) : Joint :=
  let '(r, d, s) := MatrixToDQ local_matrix in
  {| joint_name := joint_name j; parent := to_int16 parent_id;
     bind_real := bind_real j; bind_dual := bind_dual j; bind_scale := bind_scale j;
     inverse_origin_real := r; inverse_origin_dual := d; inverse_origin_scale := s |}.

(** The state threaded through [alloc_joints] is the map and [joints_]. *)
Fixpoint alloc_joints `{MathLib} (node : aiNode) (parent_id : Z)
    (st : gmap string Joint * list Joint) : gmap string Joint * list Joint :=
  match node with
  | AiNode name trans _ children =>
      let '(joint_nodes, joints) := st in
      let '(joint_id, st1) :=
        match joint_nodes !! name with
        | Some j =>
            let j' := alloc_joint j (mat_transpose trans) parent_id in
            (Z.of_nat (length joints), (<[name := j']> joint_nodes, joints ++ [j']))
        | None => ((-1)%Z, st)
        end in
      (fix over_children (cs : list aiNode) (st : gmap string Joint * list Joint) :=
         match cs with
         | [] => st
         | c :: cs' => over_children cs' (alloc_joints c joint_id st)
         end) children st1
  end.

(** [joints_] after [BuildJoints(scene)], starting from an empty list. *)
Definition BuildJoints `{MathLib} (scene : aiScene) : list Joint :=
  let jn0 := build_bind_matrix (scene_mMeshes scene) (mRootNode scene)
                               float4x4_Identity ∅ in
  let jn1 := snd (mark_joint_nodes (mRootNode scene) jn0) in
  snd (alloc_joints (mRootNode scene) (-1)%Z (jn1, [])).

(** ** BuildMeshData: the joint bindings of one mesh LOD *)

(** [std::sort(first, last, comp)] of the C++ standard library. *)
Class StdSort := {
  std_sort : ∀ {A : Type}, (A → A → bool) → list A → list A;
}.

(** The comparator requirement of [std::sort]: a strict weak ordering. *)
Record strict_weak_order {A : Type} (comp : A → A → bool) : Prop := {
  swo_irrefl : ∀ a, comp a a = false;
  swo_trans : ∀ a b c, comp a b = true → comp b c = true → comp a c = true;
  swo_incomparable : ∀ a b c,
    comp a b = false → comp b a = false → comp b c = false → comp c b = false →
    comp a c = false ∧ comp c a = false;
}.

(** What the standard promises of [std::sort]: the result is a rearrangement
    of the input and no element is ordered before one that precedes it. *)
Class StdSortContract (S : StdSort) := {
  std_sort_perm : ∀ A (comp : A → A → bool) (l : list A), std_sort comp l ≡ₚ l;
  std_sort_sorted : ∀ A (comp : A → A → bool) (l : list A),
    strict_weak_order comp →
    StronglySorted (λ a b, comp b a = false) (std_sort comp l);
}.

(** A binding [(joint id, weight)]. *)
Abbreviation binding := (nat * float)%type.

(** The constant [0.5f / 255]. *)
Definition weight_threshold : float := (1 # 2) / 255.

(** The comparator of the sort, [lhs.second > rhs.second]. *)
Definition weight_gt (lhs rhs : binding) : bool := negb (Qle_bool (snd lhs) (snd rhs)).

(** The loop [for (ji = 0; ...)] that stops at the first joint of the given
    name. *)
Definition find_joint (joints : list Joint) (name : string) : option nat :=
  fst <$> list_find (λ j, joint_name j = name) joints.

(** [joint_bindings[vertex_id].push_back(b)]; a vertex id outside the
    vector is undefined behaviour in the source and [None] here. *)
Definition push_binding (vertex_id : nat) (b : binding)
    (jb : list (list binding)) : option (list (list binding)) :=
  if decide (vertex_id < length jb)%nat
  then Some (alter (λ l, l ++ [b]) vertex_id jb)
  else None.

(** The loop over the weights of one bone bound to joint [ji]. *)
Fixpoint add_bone_weights (ji : nat) (weights : list (nat * float))
    (jb : list (list binding)) : option (list (list binding)) :=
  match weights with
  | [] => Some jb
  | w :: ws =>
      if Qle_bool weight_threshold (snd w)
      then jb' ← push_binding (fst w) (ji, snd w) jb; add_bone_weights ji ws jb'
      else add_bone_weights ji ws jb
  end.

(** The loop over the bones; a bone whose name is no joint's trips
    [BOOST_ASSERT_MSG(false, "Joint not found!")], which is [None]. *)
Fixpoint add_bones (joints : list Joint) (bones : list aiBone)
    (jb : list (list binding)) : option (list (list binding)) :=
  match bones with
  | [] => Some jb
  | bone :: bs =>
      match find_joint joints (bone_mName bone) with
      | Some ji =>
          jb' ← add_bone_weights ji (mWeights bone) jb; add_bones joints bs jb'
      | None => None
      end
  end.

(** [meshes_[mi].lods[lod].joint_bindings] after the block guarded by
    [mesh->mNumBones > 0]; the vector is empty before the block. *)
Definition BuildMeshData_joint_bindings `{StdSort} (joints : list Joint) (mesh : aiMesh)
    : option (list (list binding)) :=
  match mBones mesh with
  | [] => Some []
  | _ =>
      match add_bones joints (mBones mesh) (replicate (mNumVertices mesh) []) with
      | Some jb => Some (map (std_sort weight_gt) jb)
      | None => None
      end
  end.

(** In the words of the specification: the bindings a vertex is due, namely one
    [(ji, weight)] for every weight of at least [0.5 / 255] that a bone
    bound to joint [ji] has on that vertex, bone after bone. *)
Definition weights_for (ji v : nat) (weights : list (nat * float)) : list binding :=
  (λ w, (ji, snd w)) <$>
    filter (λ w, fst w = v ∧ Qle_bool weight_threshold (snd w) = true) weights.

Fixpoint due_bindings (joints : list Joint) (bones : list aiBone) (v : nat) : list binding :=
  match bones with
  | [] => []
  | bone :: bs =>
      match find_joint joints (bone_mName bone) with
      | Some ji => weights_for ji v (mWeights bone) ++ due_bindings joints bs v
      | None => due_bindings joints bs v
      end
  end.

(** An insertion sort, which meets the contract of [std::sort]; it runs the
    concrete examples. *)
Fixpoint sort_insert {A : Type} (comp : A → A → bool) (x : A) (l : list A) : list A :=
  match l with
  | [] => [x]
  | y :: l' => if comp x y then x :: y :: l' else y :: sort_insert comp x l'
  end.

Fixpoint insertion_sort {A : Type} (comp : A → A → bool) (l : list A) : list A :=
  match l with
  | [] => []
  | x :: l' => sort_insert comp x (insertion_sort comp l')
  end.

Definition insertion_StdSort : StdSort := {| std_sort := @insertion_sort |}.

(** ** Key frames *)

(** Four parallel vectors; the source's fields [bind_real], [bind_dual] and
    [bind_scale] carry the prefix [kf_] here, next to those of [Joint]. *)
Record KeyFrameSet := {
  frame_id : list Z;
  kf_bind_real : list Quaternion;
  kf_bind_dual : list Quaternion;
  kf_bind_scale : list float;
}.

Definition empty_KeyFrameSet : KeyFrameSet :=
  {| frame_id := []; kf_bind_real := []; kf_bind_dual := []; kf_bind_scale := [] |}.

(** The assertion at the head of [CompressKeyFrameSet]: equal sizes. *)
Definition kf_sizes_agree (kf : KeyFrameSet) : Prop :=
  length (kf_bind_real kf) = length (kf_bind_dual kf)
  ∧ length (frame_id kf) = length (kf_bind_scale kf)
  ∧ length (frame_id kf) = length (kf_bind_real kf).

(** One [push_back] on each of the four vectors. *)
Definition kf_push (kf : KeyFrameSet) (f : Z) (r d : Quaternion) (s : float) : KeyFrameSet :=
  {| frame_id := frame_id kf ++ [f]; kf_bind_real := kf_bind_real kf ++ [r];
     kf_bind_dual := kf_bind_dual kf ++ [d]; kf_bind_scale := kf_bind_scale kf ++ [s] |}.

(** The four [erase(begin() + i)]. *)
Definition kf_erase (i : nat) (kf : KeyFrameSet) : KeyFrameSet :=
  {| frame_id := delete i (frame_id kf); kf_bind_real := delete i (kf_bind_real kf);
     kf_bind_dual := delete i (kf_bind_dual kf); kf_bind_scale := delete i (kf_bind_scale kf) |}.

(** The samples of a set, one tuple per index. *)
Definition kf_samples (kf : KeyFrameSet) : list (Z * Quaternion * Quaternion * float) :=
  zip (zip (zip (frame_id kf) (kf_bind_real kf)) (kf_bind_dual kf)) (kf_bind_scale kf).

(** ** CompressKeyFrameSet *)

Definition THRESHOLD : float := 1 # 1000.

Definition Qlt_bool (a b : float) : bool := negb (Qle_bool b a).

(** [q * s] for a quaternion and a float. *)
Definition quat_scale (q : Quaternion) (s : float) : Quaternion :=
  Quat (q_x q * s) (q_y q * s) (q_z q * s) (q_w q * s).

(** Element [i] of a vector; an index outside the vector is undefined
    behaviour in the source and reads the given default here. *)
Definition at_index {A : Type} (d : A) (l : list A) (i : nat) : A := nth i l d.

(** The test of the loop body: is the sample at [base + 1] reproduced, up
    to [THRESHOLD], by interpolating its two neighbours?  When [frame2]
    equals [frame0] the source divides by zero: [factor] is an infinity or
    not a number, so is the interpolated scale, and the comparison of
    [diff_scale] fails; the test is false then. *)
Definition middle_redundant `{MathLib} (kf : KeyFrameSet) (base : nat) : bool :=
  let frame i := at_index 0%Z (frame_id kf) (base + i)%nat in
  let real i := at_index (Quat 0 0 0 0) (kf_bind_real kf) (base + i)%nat in
  let dual i := at_index (Quat 0 0 0 0) (kf_bind_dual kf) (base + i)%nat in
  let scl i := at_index 0 (kf_bind_scale kf) (base + i)%nat in
  let factor := inject_Z (frame 1%nat - frame 0%nat)%Z / inject_Z (frame 2%nat - frame 0%nat)%Z in
  let '(interpolate_real0, interpolate_dual0) :=
    sclerp (real 0%nat) (dual 0%nat) (real 2%nat) (dual 2%nat) factor in
  let scale := lerp (scl 0%nat) (scl 2%nat) factor in
  let negate := Qlt_bool (quat_dot (real 1%nat) interpolate_real0) 0 in
  let interpolate_real := if negate then quat_neg interpolate_real0 else interpolate_real0 in
  let interpolate_dual := if negate then quat_neg interpolate_dual0 else interpolate_dual0 in
  let '(inv_real, inv_dual) := dq_inverse (real 1%nat) (dual 1%nat) in
  let diff_dual := mul_dual inv_real (quat_scale inv_dual scale) interpolate_real interpolate_dual in
  let diff_real := mul_real inv_real interpolate_real in
  let diff_scale := scale * scl 1%nat in
  negb (frame 2%nat =? frame 0%nat)%Z
  && Qlt_bool (Qabs (q_x diff_real)) THRESHOLD && Qlt_bool (Qabs (q_y diff_real)) THRESHOLD
  && Qlt_bool (Qabs (q_z diff_real)) THRESHOLD && Qlt_bool (Qabs (q_w diff_real - 1)) THRESHOLD
  && Qlt_bool (Qabs (q_x diff_dual)) THRESHOLD && Qlt_bool (Qabs (q_y diff_dual)) THRESHOLD
  && Qlt_bool (Qabs (q_z diff_dual)) THRESHOLD && Qlt_bool (Qabs (q_w diff_dual)) THRESHOLD
  && Qlt_bool (Qabs (diff_scale - 1)) THRESHOLD.

(** [static_cast<int>(kf.frame_id.size() - 2)]: the subtraction is done in
    [size_t] (64 bits, wrapping) and the result is cast to [int]. *)
Definition compress_bound (size : nat) : Z :=
  to_int32 ((Z.of_nat size - 2) mod 2 ^ 64).

(** The loop condition [base < static_cast<int>(size - 2)]. *)
Definition compress_continues (base : Z) (kf : KeyFrameSet) : bool :=
  (base <? compress_bound (length (frame_id kf)))%Z.

(** One iteration of the loop on the state [(base, kf)]. *)
Definition compress_step `{MathLib} (st : Z * KeyFrameSet) : Z * KeyFrameSet :=
  let '(base, kf) := st in
  if middle_redundant kf (Z.to_nat base)
  then (base, kf_erase (Z.to_nat base + 1) kf)
  else ((base + 1)%Z, kf).

(** The [while] loop, run for at most [fuel] iterations; it returns the
    state in which it stopped. *)
Fixpoint compress_loop `{MathLib} (fuel : nat) (st : Z * KeyFrameSet) : Z * KeyFrameSet :=
  match fuel with
  | O => st
  | S fuel' =>
      if compress_continues (fst st) (snd st)
      then compress_loop fuel' (compress_step st)
      else st
  end.

(** The loop started at [base = 0]; as many iterations as there are samples
    always reach the exit (see [compress_loop_exits]). *)
Definition CompressKeyFrameSet `{MathLib} (kf : KeyFrameSet) : KeyFrameSet :=
  snd (compress_loop (length (frame_id kf)) (0%Z, kf)).

(** ** ResampleJointTransform *)

(** [vec[i].second]; an index outside the vector is undefined behaviour in
    the source and reads the given default here. *)
Definition value_of {T : Type} (d : T) (vec : list (float * T)) (i : nat) : T :=
  match vec !! i with
  | Some s => snd s
  | None => d
  end.

Definition is_empty {A : Type} (l : list A) : bool :=
  match l with [] => true | _ => false end.

(** The body of the loop for frame [i]: the sample pushed and the new
    values of the cursors [(i_pos, i_rot, i_scale)]. *)
Definition resample_frame `{MathLib} (i : Z) (fps_scale : float)
    (poss : list (float * float3)) (quats : list (float * Quaternion))
    (scales : list (float * float3)) (cursors : nat * nat * nat)
    : (Quaternion * Quaternion * float) * (nat * nat * nat) :=
  let '(i_pos, i_rot, i_scale) := cursors in
  let time := inject_Z i * fps_scale in
  let qz := Quat 0 0 0 0 in
  let vz := Float3 0 0 0 in
  let prev_i := 0%nat in
  let '(scale_resampled, prev_i, i_scale) :=
    if is_empty scales then (Float3 1 1 1, prev_i, i_scale)
    else
      let '(fraction, (lo, up)) := GetInterpTime scales time i_scale in
      (lerp3 (value_of vz scales lo) (value_of vz scales up) fraction, lo, up) in
  let '(bind_real_resampled, prev_i, i_rot) :=
    if is_empty quats then (Quat 0 0 0 1, prev_i, i_rot)
    else
      let '(fraction, (lo, up)) := GetInterpTime quats time i_rot in
      (slerp (value_of qz quats lo) (value_of qz quats up) fraction, lo, up) in
  let '(bind_dual_resampled, i_pos) :=
    if is_empty poss then (Quat 0 0 0 0, i_pos)
    else
      let '(fraction, (prev_i, i_pos)) := GetInterpTime poss time i_pos in
      let bind_dual_prev_i :=
        quat_trans_to_udq (value_of qz quats prev_i) (value_of vz poss prev_i) in
      let bind_dual_i_pos :=
        quat_trans_to_udq (value_of qz quats i_rot) (value_of vz poss i_pos) in
      (snd (sclerp (value_of qz quats prev_i) bind_dual_prev_i
                   (value_of qz quats i_rot) bind_dual_i_pos fraction), i_pos) in
  let negate := Qlt_bool (SignBit (q_w bind_real_resampled)) 0 in
  ((if negate then quat_neg bind_real_resampled else bind_real_resampled,
    if negate then quat_neg bind_dual_resampled else bind_dual_resampled,
    v_x scale_resampled),
   (i_pos, i_rot, i_scale)).

(** The loop [for (i = start_frame; i < end_frame; ++ i)], over the list of
    the frames still to do. *)
Fixpoint resample_frames `{MathLib} (frames : list Z) (fps_scale : float)
    (poss : list (float * float3)) (quats : list (float * Quaternion))
    (scales : list (float * float3)) (cursors : nat * nat * nat)
    (rkf : KeyFrameSet) : KeyFrameSet :=
  match frames with
  | [] => rkf
  | i :: rest =>
      let '((r, d, s), cursors') := resample_frame i fps_scale poss quats scales cursors in
      resample_frames rest fps_scale poss quats scales cursors' (kf_push rkf i r d s)
  end.

(** The frames [start_frame, ..., end_frame - 1]. *)
Definition frame_range (start_frame end_frame : Z) : list Z :=
  (λ k, (start_frame + Z.of_nat k)%Z) <$> seq 0 (Z.to_nat (end_frame - start_frame)).

Definition ResampleJointTransform `{MathLib} (rkf : KeyFrameSet) (start_frame end_frame : Z)
    (fps_scale : float) (poss : list (float * float3)) (quats : list (float * Quaternion))
    (scales : list (float * float3)) : KeyFrameSet :=
  resample_frames (frame_range start_frame end_frame) fps_scale poss quats scales
                  (0, 0, 0)%nat rkf.

(** ** BuildActions *)

Record AnimationAction := {
  action_name : string;
  start_frame : Z;
  end_frame : Z;
}.

(** The local [struct Animation]; [std::map<int, KeyFrameSet>] is a map
    from joint ids. *)
Record Animation := {
  animation_name : string;
  frame_num : Z;
  resampled_frames : gmap nat KeyFrameSet;
}.

Definition resample_fps : Z := 25.

(** [static_cast<int>(ceilf(duration * resample_fps))], replaced by 1 when
    it is 0.  The quotient and the product are exact here; in single
    precision they can come out a last bit higher, and the ceiling is then
    one more. *)
Definition clip_frame_num (cur_anim : aiAnimation) : Z :=
  let duration := mDuration cur_anim / mTicksPerSecond cur_anim in
  let n := Qceiling (duration * inject_Z resample_fps) in
  if (n =? 0)%Z then 1%Z else n.

(** The body of the loop over the channels: [joint_id] is the index of the
    first joint named like the channel's node, or -1, and the channel is
    resampled when [joint_id > 0]. *)
Definition import_channel `{MathLib} (joints : list Joint) (cur_anim : aiAnimation)
    (frames : gmap nat KeyFrameSet) (cur_joint : aiNodeAnim) : gmap nat KeyFrameSet :=
  let joint_id : Z :=
    match find_joint joints (mNodeName cur_joint) with
    | Some ji => Z.of_nat ji
    | None => (-1)%Z
    end in
  if (0 <? joint_id)%Z
  then
    let key := Z.to_nat joint_id in
    let rkf := default empty_KeyFrameSet (frames !! key) in
    <[key := ResampleJointTransform rkf 0 (clip_frame_num cur_anim)
               (mTicksPerSecond cur_anim / inject_Z resample_fps)
               (mPositionKeys cur_joint) (mRotationKeys cur_joint)
               (mScalingKeys cur_joint)]> frames
  else frames.

(** The single frame 0 given to a joint without resampled frames: the local
    transform left in the borrowed [inverse_origin_*] fields. *)
Definition default_tf (j : Joint) : KeyFrameSet :=
  {| frame_id := [0%Z]; kf_bind_real := [inverse_origin_real j];
     kf_bind_dual := [inverse_origin_dual j];
     kf_bind_scale := [inverse_origin_scale j] |}.

(** The loop over the joints, from index [ji] on. *)
Fixpoint add_default_frames (ji : nat) (joints : list Joint)
    (frames : gmap nat KeyFrameSet) : gmap nat KeyFrameSet :=
  match joints with
  | [] => frames
  | j :: js =>
      add_default_frames (S ji) js
        (match frames !! ji with
         | Some _ => frames
         | None => <[ji := default_tf j]> frames
         end)
  end.

(** The body of the first loop: one imported clip. *)
Definition import_animation `{MathLib} (joints : list Joint) (cur_anim : aiAnimation)
    : Animation :=
  let frames := foldl (import_channel joints cur_anim) ∅ (mChannels cur_anim) in
  {| animation_name := anim_mName cur_anim;
     frame_num := clip_frame_num cur_anim;
     resampled_frames := add_default_frames 0 joints frames |}.

(** The loop over [f] that appends the frames of one clip, shifted by the
    offset of the clip, to the joint's set. *)
Definition append_shifted (action_frame_offset : Z) (frame kf : KeyFrameSet) : KeyFrameSet :=
  foldl (λ kf f,
           kf_push kf (at_index 0%Z (frame_id frame) f + action_frame_offset)%Z
                   (at_index (Quat 0 0 0 0) (kf_bind_real frame) f)
                   (at_index (Quat 0 0 0 0) (kf_bind_dual frame) f)
                   (at_index 0 (kf_bind_scale frame) f))
        kf (seq 0 (length (frame_id frame))).

(** The state of the second loop: [kfs], [actions], [action_frame_offset]. *)
Definition timeline : Type := list KeyFrameSet * list AnimationAction * Z.

(** The body of the second loop.  The map is visited in the order of its
    keys, all of which are joint ids below [joints_.size()]. *)
Definition concat_animation `{MathLib} (num_joints : nat) (st : timeline) (anim : Animation)
    : timeline :=
  let '(kfs, actions, action_frame_offset) := st in
  let action := {| action_name := animation_name anim;
                   start_frame := action_frame_offset;
                   end_frame := (action_frame_offset + frame_num anim)%Z |} in
  let kfs' :=
    foldl (λ kfs ji,
             match resampled_frames anim !! ji with
             | Some frame =>
                 alter (λ kf, CompressKeyFrameSet (append_shifted action_frame_offset frame kf))
                       ji kfs
             | None => kfs
             end)
          kfs (seq 0 num_joints) in
  (kfs', actions ++ [action], (action_frame_offset + frame_num anim)%Z).

(** What [BuildActions] attaches to the skinned model. *)
Record SkinnedAnimation := {
  KeyFrameSets : list KeyFrameSet;
  Actions : list AnimationAction;
  FrameRate : Z;
  NumFrames : Z;
}.

Definition BuildActions `{MathLib} (joints : list Joint) (scene : aiScene) : SkinnedAnimation :=
  let animations := import_animation joints <$> mAnimations scene in
  let '(kfs, actions, action_frame_offset) :=
    foldl (concat_animation (length joints))
          (replicate (length joints) empty_KeyFrameSet, [], 0%Z) animations in
  {| KeyFrameSets := kfs; Actions := actions;
     FrameRate := resample_fps; NumFrames := action_frame_offset |}.

(** ** The converter's meshes *)

Record MeshLod := {
  positions : list float3;
  joint_bindings : list (list binding);
}.

Record Mesh := {
  mesh_name : string;
  mtl_id : nat;
  lods : list MeshLod;
}.

(** [used[i]] and [mapping[i]]; an index outside the vector is undefined
    behaviour in the source and reads [false], respectively 0, here. *)
Definition used_at (used : list bool) (i : nat) : bool := default false (used !! i).
Definition mapping_at (mapping : list nat) (i : nat) : nat := default 0%nat (mapping !! i).

(** The loop that numbers the used entries: [mapping[i] = new_id; ++ new_id]
    for every used [i], from a zero-initialised [mapping]; it returns the
    mapping and the final [new_id]. *)
Definition assign_ids (used : list bool) : list nat * nat :=
  foldl (λ (st : list nat * nat) i,
           if used_at used i
           then (<[i := snd st]> (fst st), S (snd st))
           else st)
        (replicate (length used) 0%nat, 0%nat) (seq 0 (length used)).

(** ** RemoveUnusedJoints *)

(** The first loop: [joints_used[bind.first] = true] for every binding of
    every vertex of every LOD of every mesh.  A joint id outside the vector
    is undefined behaviour in the source and marks nothing here. *)
Definition mark_bound_joints (meshes : list Mesh) (joints_used : list bool) : list bool :=
  foldl (λ used mesh,
    foldl (λ used lod,
      foldl (λ used bindings,
        foldl (λ used (bind : binding), <[fst bind := true]> used) used bindings)
        used (joint_bindings lod))
      used (lods mesh))
    joints_used meshes.

(** The index [j->parent] used as a subscript; a negative parent other
    than -1 is undefined behaviour in the source and reads index 0 here. *)
Definition parent_index (j : Joint) : nat := Z.to_nat (parent j).

(** The condition of the inner [while]. *)
Definition climb_continues (j : Joint) (joints_used : list bool) : bool :=
  negb (parent j =? -1)%Z && negb (used_at joints_used (parent_index j)).

(** The inner [while] on the state [(j, joints_used)], run for at most
    [fuel] iterations; [d] stands for a joint read outside [joints_]. *)
Fixpoint climb (fuel : nat) (d : Joint) (joints : list Joint)
    (st : Joint * list bool) : Joint * list bool :=
  match fuel with
  | O => st
  | S fuel' =>
      let '(j, joints_used) := st in
      if climb_continues j joints_used
      then climb fuel' d joints
                 (at_index d joints (parent_index j),
                  <[parent_index j := true]> joints_used)
      else st
  end.

(** The second loop: from every used joint, climb to the first ancestor
    already used.  Each climb marks a new joint per iteration, so as many
    iterations as there are joints reach the exit. *)
Definition mark_ancestors (joints : list Joint) (joints_used : list bool) : list bool :=
  foldl (λ used ji,
           if used_at used ji
           then match joints !! ji with
                | Some j => snd (climb (length joints) j joints (j, used))
                | None => used
                end
           else used)
        joints_used (seq 0 (length joints)).

(** The in-place compaction [v[mapping[ji]] = v[ji]] for every used [ji],
    followed by the [resize]. *)
Definition compact {A : Type} (used : list bool) (mapping : list nat) (new_size : nat)
    (v : list A) : list A :=
  take new_size
    (foldl (λ v ji,
              if used_at used ji
              then match v !! ji with
                   | Some x => <[mapping_at mapping ji := x]> v
                   | None => v
                   end
              else v)
           v (seq 0 (length used))).

Definition remap_binding (mapping : list nat) (bind : binding) : binding :=
  (mapping_at mapping (fst bind), snd bind).

(** The last loop: [bind.first = joint_mapping[bind.first]]. *)
Definition remap_meshes (mapping : list nat) (meshes : list Mesh) : list Mesh :=
  (λ mesh,
     {| mesh_name := mesh_name mesh; mtl_id := mtl_id mesh;
        lods := (λ lod, {| positions := positions lod;
                           joint_bindings := map (map (remap_binding mapping))
                                                 (joint_bindings lod) |})
                <$> lods mesh |}) <$> meshes.

(** The members of the converter that the two pruning passes touch. *)
Record PruneState (Mtl : Type) := {
  joints_ : list Joint;
  kfs_ : list KeyFrameSet;
  meshes_ : list Mesh;
  materials_ : list Mtl;
}.
Arguments joints_ {Mtl} _.
Arguments kfs_ {Mtl} _.
Arguments meshes_ {Mtl} _.
Arguments materials_ {Mtl} _.

(** The final [joints_used] and the mapping with the number of kept joints. *)
Definition joints_used_of (joints : list Joint) (meshes : list Mesh) : list bool :=
  mark_ancestors joints (mark_bound_joints meshes (replicate (length joints) false)).

Definition joint_mapping_of (joints : list Joint) (meshes : list Mesh) : list nat * nat :=
  assign_ids (joints_used_of joints meshes).

Definition RemoveUnusedJoints {Mtl : Type} (st : PruneState Mtl) : PruneState Mtl :=
  let joints_used := joints_used_of (joints_ st) (meshes_ st) in
  let '(joint_mapping, new_joint_id) := assign_ids joints_used in
  {| joints_ := compact joints_used joint_mapping new_joint_id (joints_ st);
     kfs_ := compact joints_used joint_mapping new_joint_id (kfs_ st);
     meshes_ := remap_meshes joint_mapping (meshes_ st);
     materials_ := materials_ st |}.

(** ** RemoveUnusedMaterials *)

(** The first loop: [mtl_used[mesh.mtl_id] = true]; a material id outside
    the vector is undefined behaviour in the source and marks nothing
    here. *)
Definition mark_used_materials (meshes : list Mesh) (mtl_used : list bool) : list bool :=
  foldl (λ used mesh, <[mtl_id mesh := true]> used) mtl_used meshes.

(** The loop [GetMaterial(i) = GetMaterial(mtl_mapping[i])] over every
    [i], followed by [NumMaterials(new_mtl_id)]. *)
Definition move_materials {Mtl : Type} (mapping : list nat) (new_size : nat)
    (materials : list Mtl) : list Mtl :=
  take new_size
    (foldl (λ ms i,
              match ms !! mapping_at mapping i with
              | Some m => <[i := m]> ms
              | None => ms
              end)
           materials (seq 0 (length materials))).

Definition RemoveUnusedMaterials {Mtl : Type} (st : PruneState Mtl) : PruneState Mtl :=
  let mtl_used :=
    mark_used_materials (meshes_ st) (replicate (length (materials_ st)) false) in
  let '(mtl_mapping, new_mtl_id) := assign_ids mtl_used in
  {| joints_ := joints_ st; kfs_ := kfs_ st;
     meshes_ := (λ mesh, {| mesh_name := mesh_name mesh;
                            mtl_id := mapping_at mtl_mapping (mtl_id mesh);
                            lods := lods mesh |}) <$> meshes_ st;
     materials_ := move_materials mtl_mapping new_mtl_id (materials_ st) |}.

(** ** Position quantisation *)

(** [static_cast<int32_t>(x)] of a float: the fraction is discarded
    (truncation toward zero).  A value outside [int32_t] is undefined
    behaviour in the source and is truncated all the same here; the
    statements about the cast keep its argument inside the range. *)
Definition float_to_int32 (x : float) : Z :=
  if Qle_bool 0 x then Qfloor x else Qceiling x.

(** Modelled from the spec: [MathLib::clamp<int32_t>]. *)
Definition clamp_int (x lo hi : Z) : Z :=
  if (x <? lo)%Z then lo else if (hi <? x)%Z then hi else x.

(** One axis of [Convert]'s position loop: [p] is the transformed
    coordinate, [center] and [extent] those of the mesh's bounding box. *)
Definition quantize_axis (p center extent : float) : Z :=
  let pos := (p - center) / extent * (1 # 2) + (1 # 2) in
  to_int16 (clamp_int (float_to_int32 (pos * 65535 - 32768)) (-32768) 32767).

(** One axis of [SaveByAssimp]'s [EF_SIGNED_ABGR16] case. *)
Definition dequantize_axis (q : Z) (center extent : float) : float :=
  (inject_Z (q + 32768) / 65535 * 2 - 1) * extent + center.

(** In the words of the specification: the quantiser that rounds to the
    nearest integer instead of discarding the fraction. *)
Definition round_to_int (x : float) : Z := Qfloor (x + (1 # 2)).

Definition quantize_axis_rounded (p center extent : float) : Z :=
  let pos := (p - center) / extent * (1 # 2) + (1 # 2) in
  to_int16 (clamp_int (round_to_int (pos * 65535 - 32768)) (-32768) 32767).

(** The coordinate -66049 / 2^25 (the float -0x1.0201p-9) in the box of
    centre 0 and extent 1. *)
Definition off_grid_coordinate : float := - (66049 # 33554432).

(** ** Convert and LoadFromAssimp: locating and importing the sources *)

(** What [LogError()] receives. *)
Inductive LogMessage :=
| CouldNotFind (input_name : string)
| CouldNotFindLod (lod_file_name : string) (lod : nat)
| ImportError (lod_file_name : string) (error : string).

Record MeshMetadata := {
  NumLods : nat;
  LodFileName : nat → string;
}.

(** The collaborators of the converter: the resource loader, the file
    system path, the importer, and the parts of the pipeline that run once
    every source is loaded.  [Model] is the render model. *)
Record Collaborators (Model : Type) := {
  (** [ResLoader::Locate]: the empty string when nothing is found. *)
  Locate : string → string;
  (** [std::filesystem::path::extension]. *)
  extension : string → string;
  (** [aiImportFileExWithProperties]: [None] is the null scene. *)
  aiImportFile : string → option aiScene;
  aiGetErrorString : string → string;
  LoadSoftwareModel : string → option Model;
  (** [LoadFromMeshML], which always creates the model. *)
  LoadFromMeshML : string → Model;
  (** The rest of [LoadFromAssimp], from [BuildJoints] on, taken to run
      to its end. *)
  build_from_scenes : list aiScene → Model;
  (** The rest of [Convert], from the pruning passes on. *)
  assemble : Model → Model;
}.
Arguments Locate {Model} _ _.
Arguments extension {Model} _ _.
Arguments aiImportFile {Model} _ _.
Arguments aiGetErrorString {Model} _ _.
Arguments LoadSoftwareModel {Model} _ _.
Arguments LoadFromMeshML {Model} _ _.
Arguments build_from_scenes {Model} _ _.
Arguments assemble {Model} _ _.

Definition string_empty (s : string) : bool :=
  match s with EmptyString => true | _ => false end.

(** The names used for one LOD: [(lod_file_name, file_name)]. *)
Definition lod_names {Model} (env : Collaborators Model) (input_name : string)
    (metadata : MeshMetadata) (lod : nat) : string * string :=
  if (lod =? 0)%nat then (input_name, input_name)
  else (LodFileName metadata lod, Locate env (LodFileName metadata lod)).

(** The loop of [LoadFromAssimp] over the LODs still to load: the scenes
    loaded, or [None] after an early [return], and the log. *)
Fixpoint load_lods {Model} (env : Collaborators Model) (input_name : string)
    (metadata : MeshMetadata) (lods : list nat) (scenes : list aiScene)
    (log : list LogMessage) : option (list aiScene) * list LogMessage :=
  match lods with
  | [] => (Some scenes, log)
  | lod :: rest =>
      let '(lod_file_name, file_name) := lod_names env input_name metadata lod in
      if string_empty file_name
      then (None, log ++ [CouldNotFindLod lod_file_name lod])
      else
        match aiImportFile env file_name with
        | None => (None, log ++ [ImportError lod_file_name (aiGetErrorString env file_name)])
        | Some scene => load_lods env input_name metadata rest (scenes ++ [scene]) log
        end
  end.

(** [render_model_] after [LoadFromAssimp], starting from the null pointer
    left by [render_model_.reset()], and the log. *)
Definition LoadFromAssimp {Model} (env : Collaborators Model) (input_name : string)
    (metadata : MeshMetadata) (log : list LogMessage) : option Model * list LogMessage :=
  match load_lods env input_name metadata (seq 0 (NumLods metadata)) [] log with
  | (Some scenes, log') => (Some (build_from_scenes env scenes), log')
  | (None, log') => (None, log')
  end.

(** The value returned by [Convert] ([None] is the null [RenderModelPtr])
    and what was logged. *)
Definition Convert {Model} (env : Collaborators Model) (input_name : string)
    (metadata : MeshMetadata) : option Model * list LogMessage :=
  let input_name_str := Locate env input_name in
  if string_empty input_name_str
  then (None, [CouldNotFind input_name])
  else
    let input_ext := extension env input_name_str in
    if decide (input_ext = ".model_bin")
    then (LoadSoftwareModel env input_name_str, [])
    else
      let '(render_model, log) :=
        if decide (input_ext = ".meshml")
        then (Some (LoadFromMeshML env input_name_str), [])
        else LoadFromAssimp env input_name_str metadata [] in
      match render_model with
      | None => (None, log)
      | Some model => (Some (assemble env model), log)
      end.

(** LOD [lod] cannot be loaded: its file is not located (LOD 0 is the
    located input itself), or the importer returns the null scene for it. *)
Definition lod_fails {Model} (env : Collaborators Model) (input_name_str : string)
    (metadata : MeshMetadata) (lod : nat) : Prop :=
  string_empty (snd (lod_names env input_name_str metadata lod)) = true
  ∨ aiImportFile env (snd (lod_names env input_name_str metadata lod)) = None.

(** The message logged for a LOD that fails. *)
Definition lod_error {Model} (env : Collaborators Model) (input_name_str : string)
    (metadata : MeshMetadata) (lod : nat) : LogMessage :=
  let '(lod_file_name, file_name) := lod_names env input_name_str metadata lod in
  if string_empty file_name then CouldNotFindLod lod_file_name lod
  else ImportError lod_file_name (aiGetErrorString env file_name).

(** ** A stand-in for the absent helpers on rigid, unrotated input *)

(** Modelled from the spec: the helpers of [MathLib] restricted to the
    inputs the concrete examples below feed them.  On a matrix whose 3x3
    block is the identity, decomposition into scale, unit rotation and
    translation gives scale (1, 1, 1), the identity rotation and the
    fourth row; the dual part of the identity rotation with translation
    [t] is [t/2] with scalar part 0; a diagonal matrix of entries 1 and -1
    is its own inverse; interpolation at fraction 0 returns its first
    argument; the product with, and the inverse of, the identity dual
    quaternion returns the other operand.  [SignBit] is -1 on negative
    numbers and 1 elsewhere. *)
Definition unrotated_MathLib : MathLib := {|
  decompose := fun m =>
    (Float3 1 1 1, Quaternion_Identity, Float3 (m 3 0) (m 3 1) (m 3 2))%nat;
  quat_trans_to_udq := fun _ t => Quat (v_x t / 2) (v_y t / 2) (v_z t / 2) 0;
  SignBit := fun x => if Qlt_le_dec x 0 then -1 else 1;
  mat_inverse := fun m => m;
  slerp := fun a _ _ => a;
  sclerp := fun ar ad _ _ _ => (ar, ad);
  dq_inverse := fun r d => (r, d);
  mul_real := fun a _ => a;
  mul_dual := fun _ ad _ _ => ad;
|}.

(** The mirror [diag(1, 1, -1, 1)]. *)
Definition mirror_z : float4x4 :=
  fun i j => if (i =? j)%nat then (if (i =? 2)%nat then -1 else 1) else 0.

(** One node named "root" carrying mesh 0, whose single bone "root" has the
    mirror as offset matrix and weights on vertices 0 and 1. *)
Definition mirror_scene : aiScene := {|
  scene_mMeshes :=
    [ {| mNumVertices := 2; mMaterialIndex := 0;
         mBones := [ {| bone_mName := "root"; mOffsetMatrix := mirror_z;
                        mWeights := [(0%nat, 1); (1%nat, 1)] |} ] |} ];
  mRootNode := AiNode "root" float4x4_Identity [0%nat] [];
  mAnimations := [];
|}.

(** A mesh of two vertices skinned to two bones "a" and "b"; bone "a" has a
    weight of 1/1000, below the threshold, on vertex 1. *)
Definition two_bone_mesh : aiMesh := {|
  mNumVertices := 2; mMaterialIndex := 0;
  mBones :=
    [ {| bone_mName := "a"; mOffsetMatrix := float4x4_Identity;
         mWeights := [(0%nat, 1 # 4); (1%nat, 1 # 1000)] |};
      {| bone_mName := "b"; mOffsetMatrix := float4x4_Identity;
         mWeights := [(0%nat, 3 # 4); (1%nat, 1)] |} ];
|}.

Definition two_bone_joints : list Joint :=
  [ new_joint "a" Quaternion_Identity (Quat 0 0 0 0) 1;
    new_joint "b" Quaternion_Identity (Quat 0 0 0 0) 1 ].

(** A clip of 2 ticks at 25 ticks per second with one channel for each of
    the joints "a" (joint 0) and "b" (joint 1). *)
Definition slide_channel (name : string) : aiNodeAnim := {|
  mNodeName := name;
  mPositionKeys := [(0, Float3 0 0 0); (2, Float3 1 0 0)];
  mRotationKeys := [(0, Quaternion_Identity)];
  mScalingKeys := [];
|}.

Definition slide_clip : aiAnimation := {|
  anim_mName := "slide"; mDuration := 2; mTicksPerSecond := 25;
  mChannels := [slide_channel "a"; slide_channel "b"];
|}.

(** Three frames of a joint at rest. *)
Definition rest_frames : KeyFrameSet := {|
  frame_id := [0; 1; 2]%Z;
  kf_bind_real := [Quaternion_Identity; Quaternion_Identity; Quaternion_Identity];
  kf_bind_dual := [Quat 0 0 0 0; Quat 0 0 0 0; Quat 0 0 0 0];
  kf_bind_scale := [1; 1; 1];
|}.

(** The hierarchy "a" > "b" with the mesh [two_bone_mesh] on the root, and
    the clip [slide_clip]. *)
Definition two_bone_scene : aiScene := {|
  scene_mMeshes := [two_bone_mesh];
  mRootNode := AiNode "a" float4x4_Identity [0%nat] [AiNode "b" float4x4_Identity [] []];
  mAnimations := [slide_clip];
|}.

(** Three materials and one mesh that uses the last of them. *)
Definition glass_model : PruneState string := {|
  joints_ := []; kfs_ := [];
  meshes_ := [ {| mesh_name := "window"; mtl_id := 2; lods := [] |} ];
  materials_ := ["stone"; "wood"; "glass"];
|}.

(** A skeleton "r" > "b1", "b5", "b2" > "b3" skinned to one vertex: the
    bones "b1" and "b5" only carry weights below [0.5 / 255]. *)
Definition arm_bone (name : string) (weight : float) : aiBone :=
  {| bone_mName := name; mOffsetMatrix := float4x4_Identity;
     mWeights := [(0%nat, weight)] |}.

Definition arm_mesh : aiMesh := {|
  mNumVertices := 1; mMaterialIndex := 0;
  mBones := [arm_bone "b1" (1 # 1000); arm_bone "b5" (1 # 1000);
             arm_bone "b2" (1 # 2); arm_bone "b3" (1 # 2)];
|}.

Definition arm_scene : aiScene := {|
  scene_mMeshes := [arm_mesh];
  mRootNode :=
    AiNode "r" float4x4_Identity [0%nat]
      [ AiNode "b1" float4x4_Identity [] [];
        AiNode "b5" float4x4_Identity [] [];
        AiNode "b2" float4x4_Identity [] [AiNode "b3" float4x4_Identity [] []] ];
  mAnimations := [];
|}.

(** The converter's state for [arm_scene] after [BuildJoints],
    [BuildMeshData] and [BuildActions]. *)
Definition arm_model : PruneState string :=
  let joints := BuildJoints (H := unrotated_MathLib) arm_scene in
  {| joints_ := joints;
     kfs_ := KeyFrameSets (BuildActions (H := unrotated_MathLib) joints arm_scene);
     meshes_ :=
       [ {| mesh_name := "arm"; mtl_id := 0;
            lods := [ {| positions := [Float3 0 0 0];
                         joint_bindings :=
                           default [] (BuildMeshData_joint_bindings
                                         (H := insertion_StdSort) joints arm_mesh) |} ] |} ];
     materials_ := ["skin"] |}.

(** Collaborators for which "hero.fbx" is found and imported, while the
    second LOD "hero_lod1.fbx" is found but rejected by the importer. *)
Definition hero_env : Collaborators aiScene := {|
  Locate := fun name => name;
  extension := fun _ => ".fbx";
  aiImportFile := fun name => if decide (name = "hero.fbx") then Some arm_scene else None;
  aiGetErrorString := fun _ => "unreadable";
  LoadSoftwareModel := fun _ => None;
  LoadFromMeshML := fun _ => arm_scene;
  build_from_scenes := fun scenes => default arm_scene (head scenes);
  assemble := fun model => model;
|}.

Definition hero_metadata : MeshMetadata := {|
  NumLods := 2;
  LodFileName := fun _ => "hero_lod1.fbx";
|}.

(** ** Vocabulary of the statements *)

(** The three results of a call. *)
Definition interp_result_fraction (r : float * (nat * nat)) : float := fst r.
Definition interp_result_lower (r : float * (nat * nat)) : nat := fst (snd r).
Definition interp_result_upper (r : float * (nat * nat)) : nat := snd (snd r).

(** The rotation returned by [MatrixToDQ]. *)
Definition MatrixToDQ_real `{MathLib} (mat : float4x4) : Quaternion :=
  fst (fst (MatrixToDQ mat)).

(** Where a stored rotation can come from: a helper joint's identity or
    the rotation [MatrixToDQ] returns for some matrix. *)
Definition bind_real_origin `{MathLib} (q : Quaternion) : Prop :=
  q = Quaternion_Identity ∨ ∃ mat, q = MatrixToDQ_real mat.

Definition joints_from_bones `{MathLib} (jn : gmap string Joint) : Prop :=
  map_Forall (λ _ j, bind_real_origin (bind_real j)) jn.

Definition alloc_state_ok `{MathLib} (st : gmap string Joint * list Joint) : Prop :=
  joints_from_bones (fst st) ∧ Forall (λ j, bind_real_origin (bind_real j)) (snd st).

(** [l'] is [l] with some samples strictly between the first and the last
    one removed. *)
Definition ends_kept {A} (l l' : list A) : Prop :=
  ∀ x mid y, l = x :: mid ++ [y] →
    ∃ mid', l' = x :: mid' ++ [y] ∧ mid' `sublist_of` mid.



(** The number of [true] entries. *)
Fixpoint count_used (used : list bool) : nat :=
  match used with
  | [] => 0
  | b :: rest => (if b then 1 else 0) + count_used rest
  end.

(** The number of [false] entries. *)
Definition count_unused (used : list bool) : nat := length used - count_used used.

(** Every joint id that some vertex of some LOD of some mesh is bound to. *)
Definition bound_ids (meshes : list Mesh) : list nat :=
  meshes ≫= λ mesh, lods mesh ≫= λ lod, joint_bindings lod ≫= λ bindings,
    fst <$> bindings.

(** A parent field that is -1 or the index of a joint. *)
Definition parent_in_range (n : nat) (j : Joint) : Prop :=
  parent j = (-1)%Z ∨ (0 <= parent j < Z.of_nat n)%Z.

(** The parent of [j], if it has one, is marked in [used]. *)
Definition parent_used (used : list bool) (j : Joint) : Prop :=
  parent j = (-1)%Z ∨ used_at used (parent_index j) = true.

(** [joints_used[i] = true]. *)
Definition mark_id (used : list bool) (i : nat) : list bool := <[i := true]> used.

(** * Further properties and further parts of the converter *)

(** ** Vocabulary of the further statements *)

(** Sample times that never decrease along the track. *)
Definition times_nondecreasing {T} (vec : list (float * T)) : Prop :=
  ∀ i j, (i ≤ j)%nat → (j < length vec)%nat → time_of vec i <= time_of vec j.

(** A cursor that a query at [time] may start from: it lies inside the
    track and the sample before it, if there is one, is not later than
    [time]. *)
Definition valid_cursor {T} (vec : list (float * T)) (time : float) (hint : nat) : Prop :=
  (hint < length vec)%nat ∧ (hint = 0%nat ∨ time_of vec (hint - 1) <= time).

(** Every joint's parent is -1 or the index of a joint stored before it. *)
Definition parents_precede (joints : list Joint) : Prop :=
  ∀ i j, joints !! i = Some j → (-1 <= parent j < Z.of_nat i)%Z.

(** Frame ids that increase strictly along the set. *)
Definition frame_ids_increasing (kf : KeyFrameSet) : Prop :=
  StronglySorted Z.lt (frame_id kf).

(** The same with the cast to [int16_t] that [BuildJoints] applies to the
    parent index written out. *)
Definition parents_precede_cast (joints : list Joint) : Prop :=
  ∀ i j, joints !! i = Some j →
    ∃ p, parent j = to_int16 p ∧ (-1 <= p < Z.of_nat i)%Z.

(** The frames one clip of [n] frames gives to a joint: equally long
    vectors, at least one frame, frame ids in [0, n). *)
Definition clip_frames_ok (n : Z) (kf : KeyFrameSet) : Prop :=
  kf_sizes_agree kf ∧ frame_id kf ≠ [] ∧ Forall (λ f, 0 <= f < n)%Z (frame_id kf).

(** A joint's key frames on a timeline of [n] frames: equally long vectors
    and frame ids in [0, n). *)
Definition timeline_frames_ok (n : Z) (kf : KeyFrameSet) : Prop :=
  kf_sizes_agree kf ∧ Forall (λ f, 0 <= f < n)%Z (frame_id kf).

(** An imported clip that gives frames to each of the [num_joints] joints. *)
Definition clip_ok (num_joints : nat) (anim : Animation) : Prop :=
  (1 <= frame_num anim)%Z
  ∧ map_Forall (λ _ kf, clip_frames_ok (frame_num anim) kf) (resampled_frames anim)
  ∧ ∀ ji, (ji < num_joints)%nat → is_Some (resampled_frames anim !! ji).

(** A request for the single LOD 0. *)
Definition single_lod_metadata : MeshMetadata := {|
  NumLods := 1;
  LodFileName := fun _ => "";
|}.

(** ** Convert: the merged index buffer, and SaveByAssimp reading it back *)

(** The values of casts to the unsigned fixed-width integer types. *)
Definition to_uint8 (z : Z) : Z := (z mod 256)%Z.
Definition to_uint16 (z : Z) : Z := (z mod 65536)%Z.
Definition to_uint32 (z : Z) : Z := (z mod 4294967296)%Z.

(** The bytes of a 16-bit and of a 32-bit object as
    [reinterpret_cast<uint8_t const *>] shows them; the host is taken to be
    little-endian (the reader below makes the same assumption, and the two
    cancel on any host). *)
Definition uint16_bytes (w : Z) : list Z := [w mod 256; (w / 256) mod 256]%Z.
Definition uint32_bytes (w : Z) : list Z :=
  [w mod 256; (w / 256) mod 256; (w / 65536) mod 256; (w / 16777216) mod 256]%Z.

(** The converter's [NodeTransform]. *)
Record NodeTransform := {
  node_name : string;
  mesh_indices : list nat;
  lod_transforms : list float4x4;
}.

(** The index vectors of [meshes_]: [meshes_[mi].lods[lod].indices], each a
    vector of [uint32_t]. *)
Definition IndexVectors : Type := list (list (list Z)).

(** The first block: the largest index of any LOD of any mesh. *)
Definition max_index (meshes : IndexVectors) : Z :=
  foldl (λ m mesh, foldl (λ m mesh_lod, foldl Z.max m mesh_lod) m mesh) 0%Z meshes.

Definition is_index_16_bit (meshes : IndexVectors) : bool := (max_index meshes <? 65535)%Z.

(** The bytes appended for one index. *)
Definition index_bytes (is16 : bool) (index : Z) : list Z :=
  if is16 then uint16_bytes (to_uint16 index) else uint32_bytes index.

Record IndexBuffers := {
  merged_indices : list Z;
  mesh_num_indices : list Z;
  mesh_start_indices : list Z;
}.

(** [v.back()] of a vector that is never empty. *)
Definition back (v : list Z) : Z := default 0%Z (last v).

(** The body of the loop over the LODs of one mesh: the indices are
    appended, then their number and the next start are pushed, both in
    [uint32_t] arithmetic. *)
Definition push_lod_indices (is16 : bool) (st : IndexBuffers) (mesh_lod : list Z)
    : IndexBuffers :=
  let num := to_uint32 (Z.of_nat (length mesh_lod)) in
  {| merged_indices :=
       foldl (λ bytes index, bytes ++ index_bytes is16 index) (merged_indices st) mesh_lod;
     mesh_num_indices := mesh_num_indices st ++ [num];
     mesh_start_indices :=
       mesh_start_indices st ++ [to_uint32 (back (mesh_start_indices st) + num)] |}.

(** The second block: the loops over the nodes, over the meshes of a node
    and over the LODs of a mesh.  A mesh index outside [meshes_] is
    undefined behaviour in the source and contributes nothing here. *)
Definition merge_indices (nodes : list NodeTransform) (meshes : IndexVectors) : IndexBuffers :=
  let is16 := is_index_16_bit meshes in
  foldl (λ st node,
           foldl (λ st mesh_index,
                    foldl (push_lod_indices is16) st (default [] (meshes !! mesh_index)))
                 st (mesh_indices node))
        {| merged_indices := []; mesh_num_indices := []; mesh_start_indices := [0%Z] |}
        nodes.

(** [buffer[i]] of the byte buffer; reading past the end is undefined
    behaviour in the source and gives 0 here. *)
Definition byte_at (bytes : list Z) (i : nat) : Z := default 0%Z (bytes !! i).

(** Element [i] of the buffer seen through [Pointer<int16_t>()] and
    through [Pointer<int32_t>()]. *)
Definition read_int16 (bytes : list Z) (i : nat) : Z :=
  to_int16 (byte_at bytes (2 * i) + 256 * byte_at bytes (2 * i + 1)).

Definition read_int32 (bytes : list Z) (i : nat) : Z :=
  to_int32 (byte_at bytes (4 * i) + 256 * byte_at bytes (4 * i + 1)
            + 65536 * byte_at bytes (4 * i + 2) + 16777216 * byte_at bytes (4 * i + 3)).

(** SaveByAssimp: [ai_face.mIndices[k] = indices_16[j * 3 + k]] (or
    [indices_32]); the signed element is converted to [unsigned int]. *)
Definition read_index (is16 : bool) (bytes : list Z) (elem : nat) : Z :=
  to_uint32 (if is16 then read_int16 bytes elem else read_int32 bytes elem).

(** The faces SaveByAssimp builds for one LOD of one mesh. *)
Definition read_faces (is16 : bool) (bytes : list Z) (start_index num_indices : Z)
    : list (Z * Z * Z) :=
  (λ j, (read_index is16 bytes (Z.to_nat start_index + j * 3 + 0),
         read_index is16 bytes (Z.to_nat start_index + j * 3 + 1),
         read_index is16 bytes (Z.to_nat start_index + j * 3 + 2)))
    <$> seq 0 (Z.to_nat (num_indices / 3)).

(** BuildMeshData: the three indices pushed for every face. *)
Definition face_indices (faces : list (Z * Z * Z)) : list Z :=
  faces ≫= λ face, [fst (fst face); snd (fst face); snd face].

(** The LODs in the order in which the merge visits them. *)
Definition visited_lods (nodes : list NodeTransform) (meshes : IndexVectors) : list (list Z) :=
  nodes ≫= λ node, mesh_indices node ≫= λ mesh_index, default [] (meshes !! mesh_index).

(** The number of indices of the LODs visited before the [k]-th one. *)
Definition indices_before (lods : list (list Z)) (k : nat) : nat :=
  length (concat (take k lods)).

(** What SaveByAssimp reads for an index that Convert stored: the index
    itself, except that a 16-bit index from 32768 on comes back sign
    extended. *)
Definition index_read_back (is16 : bool) (index : Z) : Z :=
  if is16 && (32768 <=? index)%Z then (index + 4294901760)%Z else index.

(** A quad of two triangles on one node, and a model whose single triangle
    uses the vertex 40000. *)
Definition quad_nodes : list NodeTransform :=
  [ {| node_name := "quad"; mesh_indices := [0%nat];
       lod_transforms := [float4x4_Identity] |} ].

Definition quad_faces : list (Z * Z * Z) := [(0, 1, 2); (0, 2, 3)]%Z.

Definition quad_indices : IndexVectors := [[face_indices quad_faces]].

Definition large_indices : IndexVectors := [[face_indices [(0, 1, 40000)%Z]]].

(** ** Convert: the blend weights and blend indices of a vertex *)

(** [static_cast<uint32_t>(x)] of a float: the fraction is discarded.  A
    value of -1 or below, or of 2^32 or above, is undefined behaviour in
    the source; the converter casts values between 0 and 256 only. *)
Definition float_to_uint32 (x : float) : Z := float_to_int32 x.

Definition MAX_BINDINGS : nat := 4.

(** The first loop: the sum of the weights of the first [num] bindings. *)
Definition total_weight (vertex_binding : list binding) : float :=
  foldl (λ total (b : binding), total + snd b) 0
        (take (Nat.min MAX_BINDINGS (length vertex_binding)) vertex_binding).

(** [static_cast<uint8_t>(clamp(static_cast<uint32_t>(w * 255 + 0.5f), 0U, 255U))]. *)
Definition quantize_weight (w : float) : Z :=
  to_uint8 (clamp_int (float_to_uint32 (w * 255 + (1 # 2))) 0 255).

(** The arrays [(weights, joint_ids)] appended to the two blend streams for
    one vertex, whose vector of bindings is [vertex_binding] (the source's
    [binding]).  With a total weight of 0 the source divides by zero; here
    the quotient is then 0.  The total and the shares are exact here; in
    single precision a share next to a half can be stored as the
    neighbouring integer. *)
Definition pack_binding (vertex_binding : list binding) : list Z * list Z :=
  let num := Nat.min MAX_BINDINGS (length vertex_binding) in
  let total := total_weight vertex_binding in
  (((λ b : binding, quantize_weight (snd b / total)) <$> take num vertex_binding)
     ++ replicate (MAX_BINDINGS - num) 0%Z,
   ((λ b : binding, to_uint8 (Z.of_nat (fst b))) <$> take num vertex_binding)
     ++ replicate (MAX_BINDINGS - num) 0%Z).


(** A vertex bound in equal parts to the joints 0 and 1. *)
Definition half_binding : list binding := [(0%nat, 1 # 2); (1%nat, 1 # 2)].

(** ** Convert: normals and tangent frames in four bytes *)

(** [clamp(static_cast<uint32_t>(x * 255 + 0.5f), 0U, 255U)]. *)
Definition quantize_unorm8 (x : float) : Z :=
  clamp_int (float_to_uint32 (x * 255 + (1 # 2))) 0 255.

(** [x * 0.5f + 0.5f]. *)
Definition scale_bias (x : float) : float := x * (1 # 2) + (1 # 2).

(** The word [compact] of the normal loop; [n] is the value of
    [MathLib::normalize(MathLib::transform_normal(...))]. *)
Definition compact_normal (n : float3) : Z :=
  Z.lor (Z.lor (quantize_unorm8 (scale_bias (v_x n)))
               (Z.shiftl (quantize_unorm8 (scale_bias (v_y n))) 8))
        (Z.shiftl (quantize_unorm8 (scale_bias (v_z n))) 16).

(** The word [compact] of the tangent loop; [q] is the value of
    [MathLib::to_quaternion(tangent, binormal, normal, 8)]. *)
Definition compact_tangent_quat (q : Quaternion) : Z :=
  Z.lor (Z.lor (Z.lor (Z.shiftl (quantize_unorm8 (scale_bias (q_x q))) 0)
                      (Z.shiftl (quantize_unorm8 (scale_bias (q_y q))) 8))
               (Z.shiftl (quantize_unorm8 (scale_bias (q_z q))) 16))
        (Z.shiftl (quantize_unorm8 (scale_bias (q_w q))) 24).

(** The bytes appended to the normal stream and to the tangent stream. *)
Definition normal_bytes (n : float3) : list Z := uint32_bytes (compact_normal n).
Definition tangent_quat_bytes (q : Quaternion) : list Z :=
  uint32_bytes (compact_tangent_quat q).


(** A normal along the z axis and the identity tangent frame. *)
Definition up_normal : float3 := Float3 0 0 1.

(** ** Convert: the vertex layout *)

Inductive VertexElementUsage :=
| VEU_Position | VEU_Normal | VEU_Tangent | VEU_Diffuse | VEU_Specular
| VEU_TextureCoord | VEU_BlendWeight | VEU_BlendIndex.

Inductive ElementFormat :=
| EF_SIGNED_ABGR16 | EF_ABGR8 | EF_SIGNED_GR16 | EF_ABGR8UI | EF_R16UI | EF_R32UI.

Record VertexElement := {
  usage : VertexElementUsage;
  usage_index : nat;
  format : ElementFormat;
}.

#[global] Instance VertexElementUsage_eq_dec : EqDecision VertexElementUsage.
Proof. solve_decision. Defined.

(** The members that say which vertex attributes the model has. *)
Record AttributeFlags := {
  has_normal_ : bool;
  has_tangent_quat_ : bool;
  has_texcoord_ : bool;
  has_diffuse_ : bool;
  has_specular_ : bool;
}.

(** [merged_ves] and the eight stream indices ([int], -1 for a stream that
    is absent). *)
Record VertexLayout := {
  merged_ves : list VertexElement;
  position_stream : Z;
  normal_stream : Z;
  tangent_quat_stream : Z;
  diffuse_stream : Z;
  specular_stream : Z;
  texcoord_stream : Z;
  blend_weights_stream : Z;
  blend_indices_stream : Z;
}.

(** One optional step of the block: when [present], the element is pushed
    and [stream_index] is incremented and returned as the stream of the
    element; the state is [(merged_ves, stream_index)]. *)
Definition push_stream (present : bool) (ve : VertexElement)
    (st : list VertexElement * Z) : list VertexElement * Z * Z :=
  if present then (fst st ++ [ve], (snd st + 1)%Z, (snd st + 1)%Z)
  else (fst st, snd st, (-1)%Z).

Definition vertex_layout (flags : AttributeFlags) (skinned : bool) : VertexLayout :=
  let ve u f := {| usage := u; usage_index := 0; format := f |} in
  let st := ([ve VEU_Position EF_SIGNED_ABGR16], 0%Z) in
  let position := snd st in
  let '(st, tangent_quat) := push_stream (has_tangent_quat_ flags) (ve VEU_Tangent EF_ABGR8) st in
  let '(st, normal) :=
    push_stream (negb (has_tangent_quat_ flags) && has_normal_ flags)
                (ve VEU_Normal EF_ABGR8) st in
  let '(st, diffuse) := push_stream (has_diffuse_ flags) (ve VEU_Diffuse EF_ABGR8) st in
  let '(st, specular) := push_stream (has_specular_ flags) (ve VEU_Specular EF_ABGR8) st in
  let '(st, texcoord) :=
    push_stream (has_texcoord_ flags) (ve VEU_TextureCoord EF_SIGNED_GR16) st in
  let '(st, blend_weights) := push_stream skinned (ve VEU_BlendWeight EF_ABGR8) st in
  let '(st, blend_indices) := push_stream skinned (ve VEU_BlendIndex EF_ABGR8UI) st in
  {| merged_ves := fst st;
     position_stream := position;
     normal_stream := normal;
     tangent_quat_stream := tangent_quat;
     diffuse_stream := diffuse;
     specular_stream := specular;
     texcoord_stream := texcoord;
     blend_weights_stream := blend_weights;
     blend_indices_stream := blend_indices |}.

(** Stream [s] of the layout carries the attribute [u]: [s] is an index
    into [merged_ves] and the element there has usage [u]. *)
Definition stream_carries (layout : VertexLayout) (s : Z) (u : VertexElementUsage) : Prop :=
  (0 <= s)%Z ∧ usage <$> merged_ves layout !! Z.to_nat s = Some u.

(** Stream [s] is the one of attribute [u] exactly when [present]. *)
Definition stream_iff (layout : VertexLayout) (present : bool) (s : Z)
    (u : VertexElementUsage) : Prop :=
  if present then stream_carries layout s u
  else s = (-1)%Z ∧ u ∉ usage <$> merged_ves layout.

(** Three materials of which a mesh uses the first and a mesh the second. *)
Definition wall_model : PruneState string := {|
  joints_ := []; kfs_ := [];
  meshes_ := [ {| mesh_name := "wall"; mtl_id := 0; lods := [] |};
               {| mesh_name := "door"; mtl_id := 1; lods := [] |} ];
  materials_ := ["stone"; "wood"; "glass"];
|}.

(** ** Vocabulary: the nodes and the bones of a scene *)

(** The names of the nodes of a hierarchy, in the order of the walk. *)
Fixpoint node_names (node : aiNode) : list string :=
  match node with
  | AiNode name _ _ children =>
      name :: (fix over_children (cs : list aiNode) : list string :=
                 match cs with
                 | [] => []
                 | c :: cs' => node_names c ++ over_children cs'
                 end) children
  end.

(** The mesh indices attached to the nodes of a hierarchy. *)
Fixpoint node_mesh_ids (node : aiNode) : list nat :=
  match node with
  | AiNode _ _ node_meshes children =>
      node_meshes ++ (fix over_children (cs : list aiNode) : list nat :=
                        match cs with
                        | [] => []
                        | c :: cs' => node_mesh_ids c ++ over_children cs'
                        end) children
  end.

(** Every joint of the map is stored under its own name. *)
Definition keyed_by_name (jn : gmap string Joint) : Prop :=
  map_Forall (λ k j, joint_name j = k) jn.

(** The map [jn'] has an entry wherever [jn] has one. *)
Definition keys_kept (jn jn' : gmap string Joint) : Prop :=
  ∀ k, is_Some (jn !! k) → is_Some (jn' !! k).

(** ** LoadFromMeshML: bones and key frames read from the document *)

(** Modelled from the spec: [MathLib::length] of a quaternion (KFL/Math.hpp
    is not among the sources), the square root of the sum of the squares of
    the components, as far as a float can hold it.  The statements take
    the value as it comes and assume only that it is positive for the
    quaternion at hand, as it is for every quaternion that is not zero. *)
Class QuatLength := {
  quat_length : Quaternion → float;
}.

(** [q /= s]. *)
Definition quat_div (q : Quaternion) (s : float) : Quaternion :=
  Quat (q_x q / s) (q_y q / s) (q_z q / s) (q_w q / s).

(** Equality of quaternions as floats, component by component. *)
Definition quat_eq (a b : Quaternion) : Prop :=
  q_x a == q_x b ∧ q_y a == q_y b ∧ q_z a == q_z b ∧ q_w a == q_w b.

(** What a [bone] or a [key] node says about the transform: a position
    with a rotation ([bind_pos]/[bind_quat], [pos]/[quat]), or the real and
    the dual part ([real]/[bind_real], [dual]/[bind_dual]). *)
Inductive PoseNodes :=
| PosQuat (bind_pos : float3) (bind_quat : Quaternion)
| RealDual (real dual : Quaternion).

(** The end of the real/dual branch of CompileBonesChunk and of
    CompileKeyFramesChunk: the length becomes the scale, the quaternion is
    normalised, and a negative scalar part flips both. *)
Definition normalize_signed `{MathLib} `{QuatLength} (real : Quaternion)
    : Quaternion * float :=
  let bind_scale := quat_length real in
  let bind_real := quat_div real bind_scale in
  if Qlt_le_dec (SignBit (q_w bind_real)) 0
  then (quat_neg bind_real, - bind_scale)
  else (bind_real, bind_scale).

(** [(bind_real, bind_dual, bind_scale)] of a key of CompileKeyFramesChunk. *)
Definition key_transform `{MathLib} `{QuatLength} (pose : PoseNodes)
    : Quaternion * Quaternion * float :=
  match pose with
  | PosQuat bind_pos quat =>
      let bind_scale := quat_length quat in
      let bind_real := quat_div quat bind_scale in
      (bind_real, quat_trans_to_udq bind_real bind_pos, bind_scale)
  | RealDual real dual =>
      let '(bind_real, bind_scale) := normalize_signed real in
      (bind_real, dual, bind_scale)
  end.

(** [(bind_real, bind_dual, bind_scale)] of a bone of CompileBonesChunk. *)
Definition bone_transform `{MathLib} `{QuatLength} (pose : PoseNodes)
    : Quaternion * Quaternion * float :=
  match pose with
  | PosQuat bind_pos bind_quat =>
      let scale := quat_length bind_quat in
      let bind_quat := quat_div bind_quat scale in
      (quat_scale bind_quat scale, quat_trans_to_udq bind_quat bind_pos, scale)
  | RealDual real dual =>
      let '(bind_real, bind_scale) := normalize_signed real in
      (bind_real, dual, bind_scale)
  end.

(** A [bone] node: the attributes [name] and [parent] and the transform. *)
Record BoneNode := {
  bone_node_name : string;
  bone_node_parent : Z;
  bone_node_pose : PoseNodes;
}.

(** The joint made of one [bone] node. *)
Definition bone_node_joint `{MathLib} `{QuatLength} (node : BoneNode) : Joint :=
  let '(r, d, s) := bone_transform (bone_node_pose node) in
  let '(inv_r, inv_d) := dq_inverse r d in
  {| joint_name := bone_node_name node; parent := to_int16 (bone_node_parent node);
     bind_real := r; bind_dual := d; bind_scale := s;
     inverse_origin_real := inv_r; inverse_origin_dual := inv_d;
     inverse_origin_scale := 1 / s |}.

(** [joints_] after CompileBonesChunk: one joint per [bone] node. *)
Definition CompileBonesChunk `{MathLib} `{QuatLength} (bones : list BoneNode)
    (joints : list Joint) : list Joint :=
  foldl (λ joints node, joints ++ [bone_node_joint node]) joints bones.

(** A [key] node: the optional attribute [id] and the transform; a
    [key_frame] node: the optional attribute [joint] and its keys. *)
Record KeyNode := {
  key_id : option Z;
  key_pose : PoseNodes;
}.

Record KeyFrameNode := {
  kf_joint : option nat;
  kf_keys : list KeyNode;
}.

(** The loop over the keys of one [key_frame] node, on the state
    [(frame_id, kfs)]; [frame_id] starts at -1. *)
Definition push_key `{MathLib} `{QuatLength} (st : Z * KeyFrameSet) (key : KeyNode)
    : Z * KeyFrameSet :=
  let frame_id := match key_id key with
                  | Some id => id
                  | None => (fst st + 1)%Z
                  end in
  let '(r, d, s) := key_transform (key_pose key) in
  (frame_id, kf_push (snd st) frame_id r d s).

Definition push_keys `{MathLib} `{QuatLength} (keys : list KeyNode) (kfs : KeyFrameSet)
    : KeyFrameSet :=
  snd (foldl push_key ((-1)%Z, kfs) keys).

(** The body of the loop over the [key_frame] nodes, on the state
    [(joint_id, kfss)].  Indexing [kfss] with a [joint_id] outside the vector is
    undefined behaviour in the source and [None] here. *)
Definition compile_key_frame `{MathLib} `{QuatLength} (st : nat * list KeyFrameSet)
    (node : KeyFrameNode) : option (nat * list KeyFrameSet) :=
  let joint_id := match kf_joint node with
                  | Some j => j
                  | None => S (fst st)
                  end in
  match snd st !! joint_id with
  | Some kfs =>
      Some (joint_id,
            <[joint_id := CompressKeyFrameSet (push_keys (kf_keys node) kfs)]> (snd st))
  | None => None
  end.

Fixpoint compile_key_frames `{MathLib} `{QuatLength} (nodes : list KeyFrameNode)
    (st : nat * list KeyFrameSet) : option (nat * list KeyFrameSet) :=
  match nodes with
  | [] => Some st
  | node :: rest =>
      match compile_key_frame st node with
      | Some st' => compile_key_frames rest st'
      | None => None
      end
  end.

(** The key frame sets attached by CompileKeyFramesChunk for a model of
    [num_joints] joints: [joint_id] starts at 0 and the vector holds one
    empty set per joint. *)
Definition CompileKeyFramesChunk `{MathLib} `{QuatLength} (num_joints : nat)
    (nodes : list KeyFrameNode) : option (list KeyFrameSet) :=
  snd <$> compile_key_frames nodes (0%nat, replicate num_joints empty_KeyFrameSet).

(** The set written for one [key_frame] node that starts from an empty set. *)
Definition compiled_keys `{MathLib} `{QuatLength} (node : KeyFrameNode) : KeyFrameSet :=
  CompressKeyFrameSet (push_keys (kf_keys node) empty_KeyFrameSet).

(** LoadFromMeshML: the frame 0 given to a joint whose key frame set is
    empty, the bind transform relative to the parent's.  [d] stands for a
    joint read outside [joints_]. *)
Definition default_key_frame `{MathLib} (joints : list Joint) (j : Joint)
    : Quaternion * Quaternion * float :=
  let '(inv_parent_real, inv_parent_dual, inv_parent_scale) :=
    if (parent j <? 0)%Z
    then (Quaternion_Identity, Quat 0 0 0 0, 1)
    else
      let p := at_index j joints (Z.to_nat (parent j)) in
      let '(r, d) := dq_inverse (bind_real p) (bind_dual p) in
      (r, d, 1 / bind_scale p) in
  (mul_real (bind_real j) inv_parent_real,
   mul_dual (bind_real j) (quat_scale (bind_dual j) inv_parent_scale)
            inv_parent_real inv_parent_dual,
   bind_scale j * inv_parent_scale).

(** The loop over the key frame sets after CompileKeyFramesChunk; a set
    beyond the last joint reads [joints_[i]] outside the vector, which is
    undefined behaviour in the source, and is left alone here. *)
Definition fill_default_key_frames `{MathLib} (joints : list Joint)
    (kfs : list KeyFrameSet) : list KeyFrameSet :=
  imap (λ i kf,
          if is_empty (frame_id kf)
          then match joints !! i with
               | Some j =>
                   let '(r, d, s) := default_key_frame joints j in
                   kf_push kf 0 r d s
               | None => kf
               end
          else kf) kfs.

(** A stand-in for [MathLib::length] that is exact on the quaternions with
    at most one non-zero component: the sum of the absolute values. *)
Definition axis_QuatLength : QuatLength := {|
  quat_length := fun q => Qabs (q_x q) + Qabs (q_y q) + Qabs (q_z q) + Qabs (q_w q);
|}.

(** A document with three [key_frame] nodes, none of which names its
    joint, each with two keys that do not give their ids. *)
Definition plain_key : KeyNode :=
  {| key_id := None; key_pose := RealDual (Quat 0 0 0 (-2)) (Quat 0 0 0 0) |}.

Definition plain_key_frames : list KeyFrameNode :=
  replicate 3 {| kf_joint := None; kf_keys := [plain_key; plain_key] |}.

(** A [bone] node given by position and rotation, the rotation a
    quaternion of length 2 about no axis. *)
Definition scaled_bone : BoneNode :=
  {| bone_node_name := "root"; bone_node_parent := (-1)%Z;
     bone_node_pose := PosQuat (Float3 0 0 0) (Quat 0 0 0 2) |}.

(** ** RecursiveTransformMesh *)

Section TransformMesh.

(** The value of the elements that [lod_transforms.resize(num_lods)]
    makes: the default constructor of [float4x4] is not among the sources. *)
Variable unset_transform : float4x4.

(** The loop over [nodes_] for a LOD other than 0: the first entry of the
    node's name gets the transform ([lod_transforms[lod]] outside the
    vector is undefined behaviour in the source and changes nothing here);
    without such an entry, [Verify(false)] ends the conversion: [None]. *)
Definition set_lod_transform (lod : nat) (trans_mat : float4x4) (name : string)
    (nodes_ : list NodeTransform) : option (list NodeTransform) :=
  match list_find (λ node_transform, node_name node_transform = name) nodes_ with
  | Some (i, node_transform) =>
      Some (<[i := {| node_name := node_name node_transform;
                      mesh_indices := mesh_indices node_transform;
                      lod_transforms :=
                        <[lod := trans_mat]> (lod_transforms node_transform) |}]> nodes_)
  | None => None
  end.

(** What RecursiveTransformMesh does at one node, before its children. *)
Definition transform_node (num_lods lod : nat) (trans_mat : float4x4) (name : string)
    (meshes : list nat) (nodes_ : list NodeTransform) : option (list NodeTransform) :=
  if (0 <? length meshes)%nat
  then
    if (lod =? 0)%nat
    then Some (nodes_ ++ [ {| node_name := name; mesh_indices := meshes;
                              lod_transforms :=
                                <[0%nat := trans_mat]> (replicate num_lods unset_transform) |} ])
    else set_lod_transform lod trans_mat name nodes_
  else Some nodes_.

Fixpoint RecursiveTransformMesh (num_lods lod : nat) (parent_mat : float4x4)
    (node : aiNode) (nodes_ : list NodeTransform) : option (list NodeTransform) :=
  match node with
  | AiNode name transformation meshes children =>
      let trans_mat := mat_mul (mat_transpose transformation) parent_mat in
      match transform_node num_lods lod trans_mat name meshes nodes_ with
      | Some nodes1 =>
          (fix over_children (cs : list aiNode) (nodes_ : list NodeTransform)
             : option (list NodeTransform) :=
             match cs with
             | [] => Some nodes_
             | c :: cs' =>
                 match RecursiveTransformMesh num_lods lod trans_mat c nodes_ with
                 | Some nodes' => over_children cs' nodes'
                 | None => None
                 end
             end) children nodes1
      | None => None
      end
  end.

(** The loop of LoadFromAssimp over the LODs, from an empty [nodes_]:
    [scenes] has one scene per LOD. *)
Definition transform_lods (scenes : list aiScene) : option (list NodeTransform) :=
  foldl (λ nodes_ ls, nodes_ ≫= RecursiveTransformMesh (length scenes) ls.1
                                  float4x4_Identity (mRootNode ls.2))
        (Some []) (zip (seq 0 (length scenes)) scenes).

End TransformMesh.

(** The nodes of a hierarchy that carry meshes, in the order of the walk,
    each with its name and its mesh indices. *)
Fixpoint mesh_nodes (node : aiNode) : list (string * list nat) :=
  match node with
  | AiNode name _ meshes children =>
      (if (0 <? length meshes)%nat then [(name, meshes)] else [])
      ++ (fix over_children (cs : list aiNode) : list (string * list nat) :=
            match cs with
            | [] => []
            | c :: cs' => mesh_nodes c ++ over_children cs'
            end) children
  end.

(** What an entry of [nodes_] says besides the transforms. *)
Definition nt_key (nt : NodeTransform) : string * list nat :=
  (node_name nt, mesh_indices nt).

Definition nt_shape (nt : NodeTransform) : string * list nat * nat :=
  (node_name nt, mesh_indices nt, length (lod_transforms nt)).

(** Every mesh-carrying node of the scene has the name of one of [names]. *)
Definition named_among (names : list string) (nodes : list (string * list nat)) : Prop :=
  Forall (λ node, node.1 ∈ names) nodes.

Definition mesh_nodes_among (names : list string) (scene : aiScene) : Prop :=
  named_among names (mesh_nodes (mRootNode scene)).

(** Two LODs of a model: a hierarchy of two mesh-carrying nodes, and the
    same hierarchy with the transform of the second node changed. *)
Definition lod_scene (m : float4x4) : aiScene := {|
  scene_mMeshes := [];
  mRootNode := AiNode "body" float4x4_Identity [0%nat]
                 [AiNode "hand" m [1%nat; 2%nat] []; AiNode "pivot" float4x4_Identity [] []];
  mAnimations := [];
|}.

(** ** BuildMeshData: the attribute flags *)

(** Which arrays of an [aiMesh] are there: [mNormals], [mTangents] and
    [mBitangents] not null, and for every set of texture coordinates
    whether [mTextureCoords[tci]] is not null.  The list has
    AI_MAX_NUMBER_OF_TEXTURECOORDS entries. *)
Record MeshArrays := {
  has_mNormals : bool;
  has_mTangents : bool;
  has_mBitangents : bool;
  has_mTextureCoords : list bool;
}.

(** The flags of an entry of [meshes_]. *)
Record MeshFlags := {
  has_normal : bool;
  has_tangent_frame : bool;
  has_texcoord : list bool;
}.

(** The first set of texture coordinates that is there, or the number of
    sets (AI_MAX_NUMBER_OF_TEXTURECOORDS) when there is none. *)
Definition first_texcoord (tcs : list bool) : nat :=
  match list_find (λ b, b = true) tcs with
  | Some (tci, _) => tci
  | None => length tcs
  end.

(** The flags part of the body of the loop over the meshes of one LOD, on
    the converter's flags and [meshes_].  The local [has_normal] is set where
    the source sets it; the member [has_normal_] is not assigned. *)
Definition build_mesh_flags (st : AttributeFlags * list MeshFlags) (mi : nat)
    (mesh : MeshArrays) : AttributeFlags * list MeshFlags :=
  let has_normal := has_mNormals mesh in
  let has_tangent := has_mTangents mesh in
  let has_binormal := has_mBitangents mesh in
  let has_texcoord := has_mTextureCoords mesh in
  let max_texcoords := length has_texcoord in
  let first_texcoord := first_texcoord has_texcoord in
  let has_normal := if negb has_normal then true else has_normal in
  let has_tangent :=
    if (negb has_tangent || negb has_binormal) && negb (first_texcoord =? max_texcoords)%nat
    then true else has_tangent in
  let mesh_flags := {| has_normal := has_normal;
                       has_tangent_frame := has_tangent || has_binormal;
                       has_texcoord := has_texcoord |} in
  let flags := fst st in
  let flags :=
    if has_tangent_frame mesh_flags
    then {| has_normal_ := has_normal_ flags; has_tangent_quat_ := true;
            has_texcoord_ := has_texcoord_ flags; has_diffuse_ := has_diffuse_ flags;
            has_specular_ := has_specular_ flags |}
    else flags in
  let flags :=
    if negb (first_texcoord =? max_texcoords)%nat
    then {| has_normal_ := has_normal_ flags; has_tangent_quat_ := has_tangent_quat_ flags;
            has_texcoord_ := true; has_diffuse_ := has_diffuse_ flags;
            has_specular_ := has_specular_ flags |}
    else flags in
  (flags, <[mi := mesh_flags]> (snd st)).

(** The second loop over the meshes of the LOD. *)
Definition level_mesh_flags (flags : AttributeFlags) (m : MeshFlags) : MeshFlags :=
  let m := if has_tangent_quat_ flags && negb (has_tangent_frame m)
           then {| has_normal := has_normal m; has_tangent_frame := true;
                   has_texcoord := has_texcoord m |}
           else m in
  if has_texcoord_ flags && negb (default false (has_texcoord m !! 0%nat))
  then {| has_normal := has_normal m; has_tangent_frame := has_tangent_frame m;
          has_texcoord := <[0%nat := true]> (has_texcoord m) |}
  else m.

Definition build_lod_flags (st : AttributeFlags * list MeshFlags)
    (meshes : list MeshArrays) : AttributeFlags * list MeshFlags :=
  let st := foldl (λ st im, build_mesh_flags st im.1 im.2) st (imap pair meshes) in
  (fst st,
   imap (λ mi m, if (mi <? length meshes)%nat then level_mesh_flags (fst st) m else m)
        (snd st)).

(** The flags after BuildMeshData; [scene_lods] gives the meshes of every
    LOD. *)
Definition BuildMeshData_flags (scene_lods : list (list MeshArrays))
    (st : AttributeFlags * list MeshFlags) : AttributeFlags * list MeshFlags :=
  foldl build_lod_flags st scene_lods.

(** The flags as Convert clears them before it loads the input. *)
Definition cleared_flags : AttributeFlags :=
  {| has_normal_ := false; has_tangent_quat_ := false; has_texcoord_ := false;
     has_diffuse_ := false; has_specular_ := false |}.

(** A mesh has a set of texture coordinates; a mesh gets a tangent frame:
    it has tangents or bitangents, or texture coordinates to compute them
    from. *)
Definition textured (mesh : MeshArrays) : bool :=
  existsb id (has_mTextureCoords mesh).

Definition tangent_framed (mesh : MeshArrays) : bool :=
  has_mTangents mesh || has_mBitangents mesh || textured mesh.

(** Two meshes of one LOD: one with normals only, one with normals and
    the second of two sets of texture coordinates. *)
Definition plain_and_textured : list MeshArrays :=
  [ {| has_mNormals := true; has_mTangents := false; has_mBitangents := false;
       has_mTextureCoords := [false; false] |};
    {| has_mNormals := true; has_mTangents := false; has_mBitangents := false;
       has_mTextureCoords := [false; true] |} ].

Definition blank_mesh_flags : MeshFlags :=
  {| has_normal := false; has_tangent_frame := false; has_texcoord := [] |}.

(** The flags the first loop gives the entry of a mesh, and the converter's
    flags raised by a list of meshes. *)
Definition raw_mesh_flags (mesh : MeshArrays) : MeshFlags :=
  {| has_normal := true; has_tangent_frame := tangent_framed mesh;
     has_texcoord := has_mTextureCoords mesh |}.

Definition raise_flags (flags : AttributeFlags) (meshes : list MeshArrays) : AttributeFlags :=
  {| has_normal_ := has_normal_ flags;
     has_tangent_quat_ := has_tangent_quat_ flags || existsb tangent_framed meshes;
     has_texcoord_ := has_texcoord_ flags || existsb textured meshes;
     has_diffuse_ := has_diffuse_ flags;
     has_specular_ := has_specular_ flags |}.

(** The entries of [meshes_] agree with the converter's flags. *)
Definition flags_uniform (flags : AttributeFlags) (m : MeshFlags) : Prop :=
  has_normal m = true
  ∧ has_tangent_frame m = has_tangent_quat_ flags
  ∧ has_texcoord m !! 0%nat = Some (has_texcoord_ flags).

(** * The bones of a scene and their bind matrices *)

(** The matrix BuildJoints hands to MatrixToDQ for a bone of a mesh that is
    attached to a node whose accumulated transform is [mesh_trans]. *)
Definition bone_to_mesh `{MathLib} (mesh_trans : float4x4) (bone : aiBone) : float4x4 :=
  mat_mul (mat_inverse (mat_transpose (mOffsetMatrix bone))) mesh_trans.

(** The bones of the meshes of one node, each with its name and its
    matrix, in the order of the two loops. *)
Definition node_bone_sites `{MathLib} (meshes : list aiMesh) (mesh_trans : float4x4)
    (node_meshes : list nat) : list (string * float4x4) :=
  node_meshes ≫= λ mi,
    match meshes !! mi with
    | Some mesh => (λ bone, (bone_mName bone, bone_to_mesh mesh_trans bone)) <$> mBones mesh
    | None => []
    end.

(** The bones met by the walk of the hierarchy, in the order met. *)
Fixpoint bone_sites `{MathLib} (meshes : list aiMesh) (node : aiNode)
    (parent_mat : float4x4) : list (string * float4x4) :=
  match node with
  | AiNode _ trans node_meshes children =>
      let mesh_trans := mat_mul (mat_transpose trans) parent_mat in
      node_bone_sites meshes mesh_trans node_meshes
      ++ (fix over_children (cs : list aiNode) : list (string * float4x4) :=
            match cs with
            | [] => []
            | c :: cs' => bone_sites meshes c mesh_trans ++ over_children cs'
            end) children
  end.

(** The bind matrix of the bone called [name]: the matrix of the last bone
    of that name met by the walk, if there is one. *)
Definition bind_matrix_of `{MathLib} (scene : aiScene) (name : string) : option float4x4 :=
  snd <$> last (filter (λ site, site.1 = name)
                       (bone_sites (scene_mMeshes scene) (mRootNode scene)
                                   float4x4_Identity)).

(** The joint of a bone, from its name and its matrix. *)
Definition site_joint `{MathLib} (site : string * float4x4) : Joint :=
  let '(r, d, s) := MatrixToDQ site.2 in
  new_joint site.1 r d s.

(** The rotation a joint called [name] is to have: the one MatrixToDQ gives
    for the bind matrix of the bone of that name, the identity without
    such a bone. *)
Definition bind_real_of `{MathLib} (scene : aiScene) (name : string) : Quaternion :=
  match bind_matrix_of scene name with
  | Some mat => MatrixToDQ_real mat
  | None => Quaternion_Identity
  end.

(** Every joint of the map is stored under its name with the rotation
    [decided] for that name; every name with a bone has a joint. *)
Definition bind_real_decided (decided : string → Quaternion)
    (jn : gmap string Joint) : Prop :=
  map_Forall (λ k j, joint_name j = k ∧ bind_real j = decided k) jn.

Definition sites_present (sited : string → Prop) (jn : gmap string Joint) : Prop :=
  ∀ k, sited k → is_Some (jn !! k).

(** * A clip of negative duration *)



(** * Coordinates the position quantiser can cast *)

(** The coordinate is within 16384 extents of the centre of the box.  The
    value handed to [static_cast<int32_t>] is then below 2^30 in absolute
    value, in exact and in single-precision arithmetic alike, so that the
    cast is defined. *)
Definition near_box (p center extent : float) : Prop :=
  Qabs (p - center) <= 16384 * extent.

(** * Convert: the normal stream and the tangent stream *)

(** What the vertex loops of Convert read of one LOD of a mesh:
    [positions.size()]; for every normal the value of
    [MathLib::normalize(MathLib::transform_normal(n, trans_mat_it))]; for
    every index below [tangents.size()] the value of
    [MathLib::to_quaternion(tangent, binormal, normal, 8)]; and the words
    [ABGR()] of the diffuse and of the specular colours. *)
Record VertexLod := {
  num_positions : nat;
  lod_normals : list float3;
  lod_tangent_quats : list Quaternion;
  lod_diffuses : list Z;
  lod_speculars : list Z;
}.

(** [merged_vertices[normal_stream]] and
    [merged_vertices[tangent_quat_stream]], two different vectors whenever
    both streams exist, with [mesh_num_vertices] and [mesh_base_vertices]. *)
Record AttributeStreams := {
  normal_stream_bytes : list Z;
  tangent_stream_bytes : list Z;
  mesh_num_vertices : list Z;
  mesh_base_vertices : list Z;
}.

(** [merged_vertices[normal_stream].insert(end, ...)]. *)
Definition to_normal_stream (bytes : list Z) (st : AttributeStreams) : AttributeStreams :=
  {| normal_stream_bytes := normal_stream_bytes st ++ bytes;
     tangent_stream_bytes := tangent_stream_bytes st;
     mesh_num_vertices := mesh_num_vertices st;
     mesh_base_vertices := mesh_base_vertices st |}.

(** [merged_vertices[tangent_quat_stream].insert(end, ...)]; with a
    negative [tangent_quat_stream] the source indexes the vector outside
    its bounds, which is undefined behaviour and changes nothing here. *)
Definition to_tangent_stream (layout : VertexLayout) (bytes : list Z)
    (st : AttributeStreams) : AttributeStreams :=
  if (tangent_quat_stream layout <? 0)%Z then st
  else {| normal_stream_bytes := normal_stream_bytes st;
          tangent_stream_bytes := tangent_stream_bytes st ++ bytes;
          mesh_num_vertices := mesh_num_vertices st;
          mesh_base_vertices := mesh_base_vertices st |}.

(** The body of the loop over the LODs of a mesh, as far as it writes the
    normal stream, the tangent stream and the two vectors of vertex
    counts: the normals, the tangent quaternions, then the diffuse and the
    specular colours, both of which the source appends to
    [merged_vertices[tangent_quat_stream]], and the two [push_back] in
    [uint32_t] arithmetic.  The positions, the texture coordinates and the
    blend weights and indices go to the other vectors of
    [merged_vertices]. *)
Definition push_lod_attributes (layout : VertexLayout) (st : AttributeStreams)
    (lod : VertexLod) : AttributeStreams :=
  let st := if (normal_stream layout =? -1)%Z then st
            else to_normal_stream (lod_normals lod ≫= normal_bytes) st in
  let st := if (tangent_quat_stream layout =? -1)%Z then st
            else to_tangent_stream layout (lod_tangent_quats lod ≫= tangent_quat_bytes) st in
  let st := if (diffuse_stream layout =? -1)%Z then st
            else to_tangent_stream layout (lod_diffuses lod ≫= uint32_bytes) st in
  let st := if (specular_stream layout =? -1)%Z then st
            else to_tangent_stream layout (lod_speculars lod ≫= uint32_bytes) st in
  let num := to_uint32 (Z.of_nat (num_positions lod)) in
  {| normal_stream_bytes := normal_stream_bytes st;
     tangent_stream_bytes := tangent_stream_bytes st;
     mesh_num_vertices := mesh_num_vertices st ++ [num];
     mesh_base_vertices :=
       mesh_base_vertices st ++ [to_uint32 (back (mesh_base_vertices st) + num)] |}.

(** The loops over the nodes, over the meshes of a node and over the LODs
    of a mesh.  A mesh index outside [meshes_] is undefined behaviour in
    the source and contributes nothing here. *)
Definition merge_attributes (layout : VertexLayout) (nodes : list NodeTransform)
    (meshes : list (list VertexLod)) : AttributeStreams :=
  foldl (λ st node,
           foldl (λ st mesh_index,
                    foldl (push_lod_attributes layout) st (default [] (meshes !! mesh_index)))
                 st (mesh_indices node))
        {| normal_stream_bytes := []; tangent_stream_bytes := [];
           mesh_num_vertices := []; mesh_base_vertices := [0%Z] |}
        nodes.

(** SaveByAssimp: byte [c] of vertex [j] of a stream of four bytes per
    vertex, read through [mapper.Pointer<uint8_t>() + start_vertex * 4] at
    index [j * 4 + c]. *)
Definition vertex_byte (bytes : list Z) (start_vertex : Z) (j c : nat) : Z :=
  byte_at bytes (Z.to_nat start_vertex * 4 + (j * 4 + c)).


Definition vertices_before (lods : list VertexLod) (k : nat) : nat :=
  sum_list_with num_positions (take k lods).



(** The layouts of a model with tangent frames, without and with diffuse
    colours. *)
Definition tangent_flags (diffuse : bool) : AttributeFlags :=
  {| has_normal_ := false; has_tangent_quat_ := true; has_texcoord_ := false;
     has_diffuse_ := diffuse; has_specular_ := false |}.

(** A LOD of one vertex with the identity tangent frame and a white
    diffuse colour, and a node with two meshes of that kind. *)
Definition white_vertex : VertexLod :=
  {| num_positions := 1; lod_normals := [up_normal];
     lod_tangent_quats := [Quaternion_Identity];
     lod_diffuses := [4294967295%Z]; lod_speculars := [] |}.

Definition pair_nodes : list NodeTransform :=
  [ {| node_name := "pair"; mesh_indices := [0%nat; 1%nat];
       lod_transforms := [float4x4_Identity] |} ].

(** ** Properties of GetInterpTime *)

Section InterpTimeFacts.
Context {T : Type}.
Implicit Types (vec rest : list (float * T)) (time : float).

Lemma scan_from_lower rest time i : (i ≤ scan_from rest time i)%nat.
Proof.
  revert i; induction rest as [|s rest IH]; intros i; simpl; [lia|].
  destruct (Qle_bool time (fst s)); [lia|].
  specialize (IH (S i)); lia.
Qed.

Lemma scan_from_upper rest time i :
  (scan_from rest time i ≤ i + length rest)%nat.
Proof.
  revert i; induction rest as [|s rest IH]; intros i; simpl; [lia|].
  destruct (Qle_bool time (fst s)); [lia|].
  specialize (IH (S i)); lia.
Qed.

(** Every sample the scan walked over is strictly earlier than [time]. *)
Lemma scan_from_skipped rest time i j s :
  (i ≤ j)%nat → (j < scan_from rest time i)%nat →
  rest !! (j - i)%nat = Some s → fst s < time.
Proof.
  revert i; induction rest as [|s0 rest IH]; intros i Hij Hj Hs; simpl in *.
  - discriminate.
  - destruct (Qle_bool time (fst s0)) eqn:E; [lia|].
    destruct (decide (j = i)) as [->|Hne].
    + replace (i - i)%nat with 0%nat in Hs by lia. simpl in Hs.
      injection Hs as <-.
      destruct (Qlt_le_dec (fst s0) time) as [Hlt|Hle]; [exact Hlt|].
      apply Qle_bool_iff in Hle. congruence.
    + apply (IH (S i)); [lia|exact Hj|].
      replace (j - i)%nat with (S (j - S i)) in Hs by lia. exact Hs.
Qed.

(** Where the scan stops inside the vector, the sample is not earlier
    than [time]. *)
Lemma scan_from_stop rest time i s :
  rest !! (scan_from rest time i - i)%nat = Some s → time <= fst s.
Proof.
  revert i; induction rest as [|s0 rest IH]; intros i Hs; simpl in *.
  - discriminate.
  - destruct (Qle_bool time (fst s0)) eqn:E.
    + replace (i - i)%nat with 0%nat in Hs by lia. simpl in Hs.
      injection Hs as <-. by apply Qle_bool_iff.
    + pose proof (scan_from_lower rest time (S i)).
      apply (IH (S i)).
      replace (scan_from rest time (S i) - i)%nat
        with (S (scan_from rest time (S i) - S i)) in Hs by lia.
      exact Hs.
Qed.

Lemma time_of_lookup vec i s : vec !! i = Some s → time_of vec i = fst s.
Proof. unfold time_of. by intros ->. Qed.

Lemma find_upper_lower vec time hint : (hint ≤ find_upper vec time hint)%nat.
Proof. apply scan_from_lower. Qed.

Lemma find_upper_skipped vec time hint j :
  (hint ≤ j)%nat → (j < find_upper vec time hint)%nat →
  time_of vec j < time.
Proof.
  intros Hle Hlt. unfold find_upper in Hlt.
  pose proof (scan_from_upper (drop hint vec) time hint) as Hup.
  rewrite length_drop in Hup.
  destruct (vec !! j) as [s|] eqn:Hs.
  - rewrite (time_of_lookup _ _ _ Hs).
    apply (scan_from_skipped (drop hint vec) time hint j s Hle Hlt).
    rewrite lookup_drop. rewrite <- Hs. f_equal. lia.
  - apply lookup_ge_None in Hs. lia.
Qed.

Lemma find_upper_stop vec time hint :
  (find_upper vec time hint < length vec)%nat →
  time <= time_of vec (find_upper vec time hint).
Proof.
  intros Hlt.
  destruct (lookup_lt_is_Some_2 vec _ Hlt) as [s Hs].
  rewrite (time_of_lookup _ _ _ Hs).
  apply (scan_from_stop (drop hint vec) time hint).
  rewrite lookup_drop. rewrite <- Hs. f_equal.
  pose proof (find_upper_lower vec time hint). unfold find_upper in *. lia.
Qed.

(** If no sample from the hint up to the one before the last reaches
    [time], the scan ends on the last sample or past the end. *)
Lemma find_upper_last vec time hint :
  (∀ j, (hint ≤ j)%nat → (j < length vec - 1)%nat → time_of vec j < time) →
  (length vec - 1 ≤ find_upper vec time hint)%nat.
Proof.
  intros Hbefore.
  destruct (decide (length vec - 1 ≤ find_upper vec time hint)%nat) as [|Hn]; [done|].
  exfalso.
  assert (find_upper vec time hint < length vec)%nat as Hlt by lia.
  pose proof (find_upper_stop vec time hint Hlt) as Hstop.
  pose proof (find_upper_lower vec time hint) as Hlow.
  specialize (Hbefore _ Hlow ltac:(lia)).
  apply Qlt_not_le in Hbefore. contradiction.
Qed.

Lemma clamp_bounds x : 0 <= clamp x 0 1 <= 1.
Proof.
  unfold clamp.
  destruct (Qlt_le_dec x 0); [lra|].
  destruct (Qlt_le_dec 1 x); lra.
Qed.

End InterpTimeFacts.

(** C8, as stated, fails: on the track whose sample times are 0, 1, 1 the
    query time 1 equals the last sample's time, yet with hint 0 the scan
    stops at index 1 and the bracket is (0, 1), not the last two entries
    (1, 2). *)
Lemma GetInterpTime_last_two_counterexample :
  let vec := [(0, tt); (1, tt); (1, tt)] in
  vec ≠ []
  ∧ time_of vec (length vec - 1) <= 1
  ∧ snd (GetInterpTime vec 1 0) = (0, 1)%nat
  ∧ snd (GetInterpTime vec 1 0) ≠ (length vec - 2, length vec - 1)%nat.
Proof.
  simpl. split; [discriminate|]. split; [unfold time_of; simpl; lra|].
  split; [reflexivity|]. vm_compute. discriminate.
Qed.

(** C8 (amended): on a non-empty track, a single sample gives fraction 0 and
    bracket (0, 0); otherwise the scan starts at the hint (it stops at the
    first index at or after the hint whose time is at least the query
    time); the bracket is the last two entries whenever every sample from
    the hint up to the one before the last is strictly earlier than the
    query time, in particular on a track with strictly increasing times
    when the query time equals or exceeds the last sample's time; and the
    fraction is clamp((t - t_lower) / (t_upper - t_lower), 0, 1), taken as 0
    for a bracket of zero time length. *)
Theorem GetInterpTime_spec {T} (vec : list (float * T)) (time : float) (hint : nat) :
  vec ≠ [] →
  let r := GetInterpTime vec time hint in
  let lo := interp_result_lower r in
  let up := interp_result_upper r in
  let f := interp_result_fraction r in
  (length vec = 1%nat → f = 0 ∧ lo = 0%nat ∧ up = 0%nat)
  ∧ ((length vec ≠ 1)%nat →
     let i := find_upper vec time hint in
     (hint ≤ i)%nat
     ∧ (∀ j, (hint ≤ j)%nat → (j < i)%nat → time_of vec j < time)
     ∧ ((i < length vec)%nat → time <= time_of vec i)
     ∧ (lo, up) = bracket (length vec) i
     ∧ ((∀ j, (hint ≤ j)%nat → (j < length vec - 1)%nat → time_of vec j < time) →
        lo = (length vec - 2)%nat ∧ up = (length vec - 1)%nat)
     ∧ (strictly_increasing vec → time_of vec (length vec - 1) <= time →
        lo = (length vec - 2)%nat ∧ up = (length vec - 1)%nat)
     ∧ f = clamp (if Qeq_bool (time_of vec up - time_of vec lo) 0 then 0
                  else (time - time_of vec lo) / (time_of vec up - time_of vec lo)) 0 1
     ∧ (time_of vec up - time_of vec lo == 0 → f = 0)
     ∧ 0 <= f <= 1).
Proof.
  intros Hne. cbv zeta.
  unfold GetInterpTime, interp_result_lower, interp_result_upper, interp_result_fraction.
  destruct (Nat.eqb_spec (length vec) 1) as [H1|H1].
  - simpl. split; [done|]. intros ?; contradiction.
  - split; [intros ?; contradiction|]. intros _.
    assert (2 ≤ length vec)%nat as Hlen.
    { destruct vec as [|? [|? ?]]; simpl in *; try lia. contradiction. }
    pose proof (find_upper_lower vec time hint) as Hlow.
    assert (Hlast : (∀ j, (hint ≤ j)%nat → (j < length vec - 1)%nat → time_of vec j < time) →
      bracket (length vec) (find_upper vec time hint)
      = (length vec - 2, length vec - 1)%nat).
    { intros Hb. pose proof (find_upper_last vec time hint Hb) as Hl.
      unfold bracket.
      destruct (Nat.eqb_spec (find_upper vec time hint) 0) as [E|E].
      - f_equal; lia.
      - destruct (Nat.leb_spec (length vec - 1) (find_upper vec time hint)); [done|lia]. }
    destruct (bracket (length vec) (find_upper vec time hint)) as [lo up] eqn:Hbr.
    simpl.
    split; [exact Hlow|].
    split; [intros j; apply find_upper_skipped|].
    split; [apply find_upper_stop|].
    split; [reflexivity|].
    split; [intros Hb; specialize (Hlast Hb); split; congruence|].
    split.
    { intros Hinc Ht.
      assert (∀ j, (hint ≤ j)%nat → (j < length vec - 1)%nat → time_of vec j < time) as Hb.
      { intros j _ Hj. eapply Qlt_le_trans; [|exact Ht]. apply Hinc; lia. }
      specialize (Hlast Hb). split; congruence. }
    split; [reflexivity|].
    split; [|apply clamp_bounds].
    intros Hz. unfold interp_fraction.
    apply Qeq_bool_iff in Hz. rewrite Hz. reflexivity.
Qed.

Lemma GetInterpTime_spec_witness :
  let vec := [(0, tt); (2, tt); (4, tt)] in
  vec ≠ []
  ∧ interp_result_lower (GetInterpTime vec 4 1) = 1%nat
  ∧ interp_result_upper (GetInterpTime vec 4 1) = 2%nat.
Proof.
  split; [discriminate|].
  pose proof (GetInterpTime_spec [(0, tt); (2, tt); (4, tt)] 4 1 ltac:(discriminate)) as H.
  cbv zeta in H. destruct H as [_ H].
  specialize (H ltac:(simpl; lia)).
  destruct H as (_ & _ & _ & _ & H & _).
  apply H. intros j Hj1 Hj2. simpl in Hj2.
  assert (j = 1%nat) as -> by lia. vm_compute. reflexivity.
Defined.

(** ** Properties of MatrixToDQ and BuildJoints *)

(** Induction over the node hierarchy. *)
Lemma aiNode_ind (P : aiNode → Prop) :
  (∀ name trans ms cs, Forall P cs → P (AiNode name trans ms cs)) →
  ∀ n, P n.
Proof.
  intros Hnode. fix IH 1. intros [name trans ms cs]. apply Hnode.
  induction cs as [|c cs IHcs]; constructor; [apply IH | exact IHcs].
Qed.

Lemma quat_neg_norm2 q : quat_norm2 (quat_neg q) == quat_norm2 q.
Proof. unfold quat_norm2, quat_neg; simpl. ring. Qed.

Lemma quat_neg_unit q : quat_unit q → quat_unit (quat_neg q).
Proof. unfold quat_unit. by rewrite quat_neg_norm2. Qed.

Lemma MatrixToDQ_unit `{MathLibContract} mat : quat_unit (MatrixToDQ_real mat).
Proof.
  unfold MatrixToDQ_real, MatrixToDQ.
  destruct (Qlt_le_dec (mat_det3 mat) 0);
    match goal with
    | |- context [decompose ?m] =>
        pose proof (decompose_unit m) as Hu;
        destruct (decompose m) as [[scale r] trans]
    end; simpl in Hu;
    match goal with
    | |- context [Qlt_le_dec ?a ?b] => destruct (Qlt_le_dec a b)
    end; simpl; auto using quat_neg_unit.
Qed.

(** The sign of the stored scalar part follows [flip]. *)
Lemma MatrixToDQ_sign `{MathLibContract} mat :
  0 <= flip_of mat * q_w (MatrixToDQ_real mat).
Proof.
  unfold MatrixToDQ_real, MatrixToDQ, flip_of.
  destruct (Qlt_le_dec (mat_det3 mat) 0);
    match goal with
    | |- context [decompose ?m] => destruct (decompose m) as [[scale r] trans]
    end;
    match goal with
    | |- context [Qlt_le_dec ?a ?b] => destruct (Qlt_le_dec a b) as [Hs|Hs]
    end; simpl;
    destruct (Qlt_le_dec (q_w r) 0) as [Hw|Hw];
    try (pose proof (SignBit_neg _ Hw)); try lra;
    destruct (Qlt_le_dec 0 (q_w r)) as [Hp|Hp];
    try (pose proof (SignBit_pos _ Hp)); lra.
Qed.

Lemma bone_joint_bind_real `{MathLib} mesh_trans bone :
  bind_real (bone_joint mesh_trans bone)
  = MatrixToDQ_real (mat_mul (mat_inverse (mat_transpose (mOffsetMatrix bone))) mesh_trans).
Proof.
  unfold bone_joint, MatrixToDQ_real.
  by destruct (MatrixToDQ _) as [[r d] s].
Qed.

Lemma add_node_bones_origin `{MathLib} meshes mesh_trans node_meshes jn :
  joints_from_bones jn →
  joints_from_bones (add_node_bones meshes mesh_trans node_meshes jn).
Proof.
  unfold add_node_bones. revert jn.
  induction node_meshes as [|mi mis IH]; intros jn Hjn; simpl; [done|].
  apply IH. destruct (meshes !! mi) as [mesh|]; [|done].
  generalize (mBones mesh) as bones. intros bones. revert jn Hjn.
  induction bones as [|b bs IHb]; intros jn Hjn; simpl; [done|].
  apply IHb. apply map_Forall_insert_2; [|done].
  right. eexists. apply bone_joint_bind_real.
Qed.

Lemma build_bind_matrix_origin `{MathLib} meshes node :
  ∀ parent_mat jn, joints_from_bones jn →
    joints_from_bones (build_bind_matrix meshes node parent_mat jn).
Proof.
  induction node as [name trans ms cs IHcs] using aiNode_ind.
  intros parent_mat jn Hjn. simpl.
  pose proof (add_node_bones_origin meshes (mat_mul (mat_transpose trans) parent_mat) ms jn Hjn) as Hjn'.
  revert Hjn'. generalize (add_node_bones meshes (mat_mul (mat_transpose trans) parent_mat) ms jn).
  induction IHcs as [|c cs Hc _ IH]; intros jn' Hjn'; [done|].
  apply IH. by apply Hc.
Qed.

Lemma mark_joint_nodes_origin `{MathLib} node :
  ∀ jn, joints_from_bones jn → joints_from_bones (snd (mark_joint_nodes node jn)).
Proof.
  induction node as [name trans ms cs IHcs] using aiNode_ind.
  intros jn Hjn. simpl.
  set (found := bool_decide (is_Some (jn !! name))).
  assert (Hacc : joints_from_bones (snd (found, jn))) by done.
  revert Hacc. generalize (found, jn) as acc.
  induction IHcs as [|c cs Hc _ IH]; intros acc Hacc.
  - destruct acc as [b jn']. simpl in *.
    destruct (b && negb found); simpl; [|done].
    apply map_Forall_insert_2; [|done]. by left.
  - specialize (Hc _ Hacc).
    destruct (mark_joint_nodes c (snd acc)) as [b jn'] eqn:E.
    apply IH. exact Hc.
Qed.

Lemma alloc_joint_bind_real `{MathLib} j local_matrix parent_id :
  bind_real (alloc_joint j local_matrix parent_id) = bind_real j.
Proof. unfold alloc_joint. by destruct (MatrixToDQ _) as [[r d] s]. Qed.

Lemma alloc_joints_origin `{MathLib} node :
  ∀ parent_id st, alloc_state_ok st → alloc_state_ok (alloc_joints node parent_id st).
Proof.
  induction node as [name trans ms cs IHcs] using aiNode_ind.
  intros parent_id [jn joints] [Hjn Hjs]. simpl in *.
  set (step := match jn !! name with
               | Some j =>
                   (Z.of_nat (length joints),
                    (<[name := alloc_joint j (mat_transpose trans) parent_id]> jn,
                     joints ++ [alloc_joint j (mat_transpose trans) parent_id]))
               | None => ((-1)%Z, (jn, joints))
               end).
  assert (Hstep : alloc_state_ok (snd step)).
  { subst step. destruct (jn !! name) as [j|] eqn:Hj; simpl; [|by split].
    pose proof (map_Forall_lookup_1 _ _ _ _ Hjn Hj) as Hok. simpl in Hok.
    split; simpl.
    - apply map_Forall_insert_2; [|done]. by rewrite alloc_joint_bind_real.
    - apply Forall_app. split; [done|]. constructor; [|constructor].
      by rewrite alloc_joint_bind_real. }
  destruct step as [joint_id st1]. simpl in Hstep.
  revert st1 Hstep.
  induction IHcs as [|c cs Hc _ IH]; intros st1 Hstep; [done|].
  apply IH. by apply Hc.
Qed.

Lemma BuildJoints_origin `{MathLib} scene :
  Forall (λ j, bind_real_origin (bind_real j)) (BuildJoints scene).
Proof.
  unfold BuildJoints.
  apply (alloc_joints_origin (mRootNode scene) (-1)%Z). split; simpl; [|constructor].
  apply mark_joint_nodes_origin, build_bind_matrix_origin.
  apply map_Forall_empty.
Qed.

Lemma unrotated_MathLib_contract : MathLibContract unrotated_MathLib.
Proof.
  split; simpl.
  - intros m. reflexivity.
  - intros x Hx. destruct (Qlt_le_dec x 0); lra.
  - intros x Hx. destruct (Qlt_le_dec x 0); lra.
Qed.

(** C2, as stated, fails on a reflection: for the one-bone scene whose bone
    offset matrix is the mirror diag(1, 1, -1, 1) (determinant -1), the third
    row is flipped, the decomposed rotation is the identity with w = 1,
    flip * SignBit(w) = -1 < 0, and the stored bind_real is (0, 0, 0, -1):
    its scalar component is negative. *)
Lemma BuildJoints_mirror_counterexample :
  mat_det3 mirror_z < 0
  ∧ bind_real <$> BuildJoints (H := unrotated_MathLib) mirror_scene = [Quat 0 0 0 (-1)]
  ∧ Exists (λ j, q_w (bind_real j) < 0) (BuildJoints (H := unrotated_MathLib) mirror_scene).
Proof.
  split; [reflexivity|]. split; [reflexivity|].
  apply Exists_exists. eexists. split; [left|]. reflexivity.
Qed.

(** ** Properties of the joint bindings built by BuildMeshData *)

Lemma weight_gt_swo : strict_weak_order weight_gt.
Proof.
  unfold weight_gt. split.
  - intros a. apply negb_false_iff, Qle_bool_iff. lra.
  - intros a b c Hab Hbc.
    apply negb_true_iff in Hab, Hbc. apply negb_true_iff.
    destruct (Qle_bool (snd a) (snd c)) eqn:E; [|done].
    apply Qle_bool_iff in E.
    assert (¬ snd a <= snd b) by (rewrite <- Qle_bool_iff; congruence).
    assert (¬ snd b <= snd c) by (rewrite <- Qle_bool_iff; congruence).
    lra.
  - intros a b c Hab Hba Hbc Hcb.
    apply negb_false_iff, Qle_bool_iff in Hab, Hba, Hbc, Hcb.
    split; apply negb_false_iff, Qle_bool_iff; lra.
Qed.

Lemma sort_insert_perm {A} (comp : A → A → bool) x l : sort_insert comp x l ≡ₚ x :: l.
Proof.
  induction l as [|y l IH]; simpl; [done|].
  destruct (comp x y); [done|]. rewrite IH. apply Permutation_swap.
Qed.

Lemma insertion_sort_perm {A} (comp : A → A → bool) l : insertion_sort comp l ≡ₚ l.
Proof.
  induction l as [|x l IH]; simpl; [done|].
  by rewrite sort_insert_perm, IH.
Qed.

Lemma sort_insert_sorted {A} (comp : A → A → bool) x l :
  strict_weak_order comp →
  StronglySorted (λ a b, comp b a = false) l →
  StronglySorted (λ a b, comp b a = false) (sort_insert comp x l).
Proof.
  intros Hswo. induction l as [|y l IH]; intros Hs; simpl.
  - repeat constructor.
  - apply StronglySorted_cons in Hs as [Hy Hl].
    destruct (comp x y) eqn:Hxy.
    + apply StronglySorted_cons. split.
      * constructor.
        -- destruct (comp y x) eqn:Hyx; [|done].
           pose proof (swo_trans _ Hswo _ _ _ Hxy Hyx) as Hxx.
           by rewrite (swo_irrefl _ Hswo) in Hxx.
        -- eapply Forall_impl; [exact Hy|]. intros z Hzy. simpl in Hzy.
           destruct (comp z x) eqn:Hzx; [|done].
           pose proof (swo_trans _ Hswo _ _ _ Hzx Hxy). congruence.
      * apply StronglySorted_cons. by split.
    + apply StronglySorted_cons. split; [|by apply IH].
      rewrite sort_insert_perm. by constructor.
Qed.

Lemma insertion_sort_sorted {A} (comp : A → A → bool) l :
  strict_weak_order comp →
  StronglySorted (λ a b, comp b a = false) (insertion_sort comp l).
Proof.
  intros Hswo. induction l as [|x l IH]; simpl; [constructor|].
  by apply sort_insert_sorted.
Qed.

Lemma insertion_StdSort_contract : StdSortContract insertion_StdSort.
Proof.
  split; simpl.
  - intros. apply insertion_sort_perm.
  - intros. by apply insertion_sort_sorted.
Qed.

Lemma weights_for_cons ji v w ws :
  weights_for ji v (w :: ws)
  = (if decide (fst w = v ∧ Qle_bool weight_threshold (snd w) = true)
     then [(ji, snd w)] else []) ++ weights_for ji v ws.
Proof.
  unfold weights_for. rewrite filter_cons. by case_decide.
Qed.

(** One bone's weights are appended, vertex by vertex, in reading order. *)
Lemma add_bone_weights_lookup ji ws : ∀ jb jb',
  add_bone_weights ji ws jb = Some jb' →
  length jb' = length jb
  ∧ ∀ v l, jb !! v = Some l → jb' !! v = Some (l ++ weights_for ji v ws).
Proof.
  induction ws as [|w ws IH]; intros jb jb' Hrun; simpl in Hrun.
  - injection Hrun as <-. split; [done|]. intros v l Hl.
    unfold weights_for. simpl. by rewrite app_nil_r.
  - destruct (Qle_bool weight_threshold (snd w)) eqn:Hthr.
    + unfold push_binding in Hrun. case_decide as Hin; [|done]. simpl in Hrun.
      apply IH in Hrun as [Hlen Hlook]. rewrite length_alter in Hlen.
      split; [done|]. intros v l Hl. rewrite weights_for_cons.
      destruct (decide (fst w = v)) as [Heq|Hne].
      * subst v. rewrite decide_True by done. rewrite app_assoc.
        apply Hlook. rewrite list_lookup_alter_eq, Hl. done.
      * rewrite decide_False by tauto. simpl.
        apply Hlook. by rewrite list_lookup_alter_ne.
    + apply IH in Hrun as [Hlen Hlook]. split; [done|].
      intros v l Hl. rewrite weights_for_cons.
      rewrite decide_False by (intros [_ ?]; congruence). simpl. by apply Hlook.
Qed.

Lemma add_bones_lookup joints bones : ∀ jb jb',
  add_bones joints bones jb = Some jb' →
  length jb' = length jb
  ∧ ∀ v l, jb !! v = Some l → jb' !! v = Some (l ++ due_bindings joints bones v).
Proof.
  induction bones as [|bone bs IH]; intros jb jb' Hrun; simpl in Hrun.
  - injection Hrun as <-. split; [done|]. intros v l Hl. simpl. by rewrite app_nil_r.
  - simpl. destruct (find_joint joints (bone_mName bone)) as [ji|]; [|done].
    destruct (add_bone_weights ji (mWeights bone) jb) as [jb1|] eqn:H1; [|done].
    simpl in Hrun.
    apply add_bone_weights_lookup in H1 as [Hlen1 Hlook1].
    apply IH in Hrun as [Hlen Hlook].
    split; [congruence|]. intros v l Hl.
    rewrite app_assoc. apply Hlook, Hlook1, Hl.
Qed.

(** The run succeeds when every bone names a joint and every recorded
    weight sits on a vertex of the mesh. *)
Lemma add_bone_weights_total ji ws : ∀ jb,
  Forall (λ w, Qle_bool weight_threshold (snd w) = true → (fst w < length jb)%nat) ws →
  is_Some (add_bone_weights ji ws jb).
Proof.
  induction ws as [|w ws IH]; intros jb Hall; simpl; [done|].
  apply Forall_cons in Hall as [Hw Hws].
  destruct (Qle_bool weight_threshold (snd w)) eqn:Hthr.
  - unfold push_binding. rewrite decide_True by auto. simpl.
    apply IH. by rewrite length_alter.
  - by apply IH.
Qed.

Lemma add_bones_total joints bones : ∀ jb,
  Forall (λ bone,
    is_Some (find_joint joints (bone_mName bone))
    ∧ Forall (λ w, Qle_bool weight_threshold (snd w) = true → (fst w < length jb)%nat)
             (mWeights bone)) bones →
  is_Some (add_bones joints bones jb).
Proof.
  induction bones as [|bone bs IH]; intros jb Hall; simpl; [done|].
  apply Forall_cons in Hall as [[[ji Hji] Hw] Hbs]. rewrite Hji.
  destruct (add_bone_weights_total ji _ jb Hw) as [jb1 H1]. rewrite H1. simpl.
  apply add_bone_weights_lookup in H1 as [Hlen1 _].
  apply IH. by rewrite Hlen1.
Qed.

Lemma StronglySorted_weaken {A} (R R' : A → A → Prop) l :
  (∀ x y, R x y → R' x y) → StronglySorted R l → StronglySorted R' l.
Proof.
  intros Himp Hs. induction Hs as [|x l Hs IH Hx]; constructor; [done|].
  eapply Forall_impl; [exact Hx|]. auto.
Qed.

Lemma elem_of_weights_for ji v ws ji' w :
  (ji', w) ∈ weights_for ji v ws
  ↔ ji' = ji ∧ (v, w) ∈ ws ∧ weight_threshold <= w.
Proof.
  unfold weights_for. rewrite list_elem_of_fmap. split.
  - intros [[v' w'] [Heq Hin]]. simpl in Heq. injection Heq as -> ->.
    apply list_elem_of_filter in Hin as [[Hv Hthr] Hin]. simpl in *. subst v'.
    split; [done|]. split; [done|]. by apply Qle_bool_iff.
  - intros (-> & Hin & Hthr). exists (v, w). split; [done|].
    apply list_elem_of_filter. split; [|done]. simpl. split; [done|].
    by apply Qle_bool_iff.
Qed.

Lemma elem_of_due_bindings joints bones v ji w :
  (ji, w) ∈ due_bindings joints bones v
  ↔ ∃ bone, bone ∈ bones ∧ find_joint joints (bone_mName bone) = Some ji
            ∧ (v, w) ∈ mWeights bone ∧ weight_threshold <= w.
Proof.
  induction bones as [|bone bs IH]; simpl.
  - split; [intros Hin; by apply elem_of_nil in Hin|].
    intros (bone & Hin & _). by apply elem_of_nil in Hin.
  - destruct (find_joint joints (bone_mName bone)) as [ji0|] eqn:Hfind.
    + rewrite elem_of_app, elem_of_weights_for, IH. split.
      * intros [(-> & Hin & Hthr)|(b & Hb & Hrest)].
        -- exists bone. split; [left|]. done.
        -- exists b. split; [by right|done].
      * intros (b & Hb & Hf & Hin & Hthr).
        apply elem_of_cons in Hb as [->|Hb].
        -- left. rewrite Hfind in Hf. injection Hf as ->. done.
        -- right. by exists b.
    + rewrite IH. split.
      * intros (b & Hb & Hrest). exists b. split; [by right|done].
      * intros (b & Hb & Hf & Hrest).
        apply elem_of_cons in Hb as [->|Hb]; [congruence|].
        by exists b.
Qed.

(** C10: for a mesh with bones, each naming a joint and each recorded
    weight sitting on a vertex of the mesh, the joint bindings are built,
    one list per vertex; the list of a vertex is a rearrangement of the
    bindings it is due: [(ji, w)] is in it if and only if some bone bound
    to joint [ji] has the weight [w >= 0.5/255] on that vertex (smaller
    weights are dropped); and the list is sorted by descending weight. *)
Theorem BuildMeshData_joint_bindings_spec `{StdSortContract}
    (joints : list Joint) (mesh : aiMesh) :
  mBones mesh ≠ [] →
  Forall (λ bone,
    is_Some (find_joint joints (bone_mName bone))
    ∧ Forall (λ w, Qle_bool weight_threshold (snd w) = true →
                   (fst w < mNumVertices mesh)%nat) (mWeights bone))
    (mBones mesh) →
  ∃ jb, BuildMeshData_joint_bindings joints mesh = Some jb
    ∧ length jb = mNumVertices mesh
    ∧ ∀ v, (v < mNumVertices mesh)%nat →
        ∃ b, jb !! v = Some b
          ∧ b ≡ₚ due_bindings joints (mBones mesh) v
          ∧ (∀ ji w, (ji, w) ∈ b
               ↔ ∃ bone, bone ∈ mBones mesh
                   ∧ find_joint joints (bone_mName bone) = Some ji
                   ∧ (v, w) ∈ mWeights bone ∧ weight_threshold <= w)
          ∧ StronglySorted (λ x y, snd y <= snd x) b.
Proof.
  intros Hbones Hall. unfold BuildMeshData_joint_bindings.
  destruct (mBones mesh) as [|bone0 bones0] eqn:Hb; [done|]. rewrite <- Hb in *.
  destruct (add_bones_total joints (mBones mesh) (replicate (mNumVertices mesh) []))
    as [jb Hrun].
  { by rewrite length_replicate. }
  rewrite Hrun.
  apply add_bones_lookup in Hrun as [Hlen Hlook]. rewrite length_replicate in Hlen.
  eexists. split; [done|]. split; [by rewrite length_map|].
  intros v Hv.
  specialize (Hlook v [] ltac:(by apply lookup_replicate_2)). simpl in Hlook.
  exists (std_sort weight_gt (due_bindings joints (mBones mesh) v)).
  split; [by rewrite list_lookup_fmap, Hlook|].
  pose proof (std_sort_perm _ weight_gt (due_bindings joints (mBones mesh) v)) as Hperm.
  split; [done|]. split.
  - intros ji w. rewrite Hperm. apply elem_of_due_bindings.
  - eapply StronglySorted_weaken; [|apply std_sort_sorted, weight_gt_swo].
    intros x y Hxy. simpl in Hxy. unfold weight_gt in Hxy.
    by apply negb_false_iff, Qle_bool_iff in Hxy.
Qed.

Lemma BuildMeshData_joint_bindings_spec_witness :
  ∃ jb, BuildMeshData_joint_bindings (H := insertion_StdSort) two_bone_joints two_bone_mesh
        = Some jb
    ∧ length jb = 2%nat
    ∧ ∀ v, (v < 2)%nat →
        ∃ b, jb !! v = Some b
          ∧ b ≡ₚ due_bindings two_bone_joints (mBones two_bone_mesh) v
          ∧ (∀ ji w, (ji, w) ∈ b
               ↔ ∃ bone, bone ∈ mBones two_bone_mesh
                   ∧ find_joint two_bone_joints (bone_mName bone) = Some ji
                   ∧ (v, w) ∈ mWeights bone ∧ weight_threshold <= w)
          ∧ StronglySorted (λ x y, snd y <= snd x) b.
Proof.
  apply (@BuildMeshData_joint_bindings_spec insertion_StdSort insertion_StdSort_contract
           two_bone_joints two_bone_mesh).
  - discriminate.
  - repeat constructor; simpl; try (by eexists); intros; try lia; discriminate.
Defined.

Example two_bone_mesh_bindings :
  BuildMeshData_joint_bindings (H := insertion_StdSort) two_bone_joints two_bone_mesh
  = Some [ [(1%nat, 3 # 4); (0%nat, 1 # 4)]; [(1%nat, 1)] ].
Proof. reflexivity. Qed.

(** ** Properties of CompressKeyFrameSet *)

Lemma compress_bound_small n : (n < 3)%nat → (compress_bound n <= 0)%Z.
Proof.
  intros Hn. unfold compress_bound, to_int32.
  assert (n = 0 ∨ n = 1 ∨ n = 2)%nat as [-> | [-> | ->]] by lia; by vm_compute.
Qed.

(** While the bound is positive there are at least three samples, the
    bound is at most [size - 2], and erasing one sample lowers it by one. *)
Lemma compress_bound_pos n :
  (0 < compress_bound n)%Z →
  (3 ≤ n)%nat ∧ (compress_bound n <= Z.of_nat n - 2)%Z
  ∧ compress_bound (n - 1) = (compress_bound n - 1)%Z.
Proof.
  unfold compress_bound, to_int32. intros Hpos.
  assert (3 ≤ n)%nat as Hn.
  { destruct (decide (3 ≤ n)%nat); [done|].
    assert (n = 0 ∨ n = 1 ∨ n = 2)%nat as [-> | [-> | ->]] by lia;
      vm_compute in Hpos; discriminate. }
  split; [done|].
  replace (Z.of_nat (n - 1) - 2)%Z with (Z.of_nat n - 2 - 1)%Z by lia.
  remember (Z.of_nat n - 2)%Z as x eqn:Hx.
  assert (0 < x)%Z by lia.
  change (2 ^ 64)%Z with 18446744073709551616%Z in *.
  split.
  - Z.div_mod_to_equations. lia.
  - Z.div_mod_to_equations. lia.
Qed.

Lemma kf_erase_sizes_agree i kf : kf_sizes_agree kf → kf_sizes_agree (kf_erase i kf).
Proof.
  unfold kf_sizes_agree, kf_erase. simpl. intros (H1 & H2 & H3).
  destruct (decide (i < length (frame_id kf))%nat).
  - rewrite !length_delete by (apply lookup_lt_is_Some; lia).
    lia.
  - rewrite !delete_take_drop, !take_ge, !drop_ge, !app_nil_r by lia. done.
Qed.

Lemma delete_zip {A B} (l : list A) (k : list B) i :
  delete i (zip l k) = zip (delete i l) (delete i k).
Proof.
  revert k i. induction l as [|a l IH]; intros k i; [by destruct i|].
  destruct k as [|b k].
  - destruct i; simpl; [by destruct l|done].
  - destruct i; simpl; [done|]. by rewrite IH.
Qed.

Lemma kf_samples_erase i kf : kf_samples (kf_erase i kf) = delete i (kf_samples kf).
Proof. unfold kf_samples, kf_erase. simpl. by rewrite !delete_zip. Qed.

Lemma length_kf_samples kf :
  kf_sizes_agree kf → length (kf_samples kf) = length (frame_id kf).
Proof.
  unfold kf_sizes_agree, kf_samples. intros (H1 & H2 & H3).
  rewrite !length_zip. lia.
Qed.

Lemma ends_kept_refl {A} (l : list A) : ends_kept l l.
Proof. intros x mid y ->. by exists mid. Qed.

Lemma ends_kept_trans {A} (l1 l2 l3 : list A) :
  ends_kept l1 l2 → ends_kept l2 l3 → ends_kept l1 l3.
Proof.
  intros H12 H23 x mid y Hl1.
  destruct (H12 _ _ _ Hl1) as (mid2 & Hl2 & Hs2).
  destruct (H23 _ _ _ Hl2) as (mid3 & Hl3 & Hs3).
  exists mid3. split; [done|]. by etrans.
Qed.

Lemma delete_snoc_lt {A} (mid : list A) y b :
  (b < length mid)%nat → delete b (mid ++ [y]) = delete b mid ++ [y].
Proof.
  intros Hb. rewrite !delete_take_drop.
  rewrite take_app_le, drop_app_le by lia. by rewrite app_assoc.
Qed.

(** Erasing at an index that is neither the first nor the last one. *)
Lemma ends_kept_delete {A} (l : list A) i :
  (1 ≤ i)%nat → (i + 2 ≤ length l)%nat → ends_kept l (delete i l).
Proof.
  intros Hi1 Hi2 x mid y ->. rewrite length_cons, length_app in Hi2. simpl in Hi2.
  destruct i as [|b]; [lia|]. simpl.
  exists (delete b mid). rewrite delete_snoc_lt by lia.
  split; [done|]. apply sublist_delete.
Qed.

Lemma compress_continues_pos base kf :
  (0 <= base)%Z → compress_continues base kf = true →
  (Z.to_nat base + 3 ≤ length (frame_id kf))%nat
  ∧ compress_bound (length (frame_id kf) - 1)
    = (compress_bound (length (frame_id kf)) - 1)%Z.
Proof.
  unfold compress_continues. intros Hb Hc. apply Z.ltb_lt in Hc.
  destruct (compress_bound_pos (length (frame_id kf))) as (H3 & Hle & Hdec); [lia|].
  split; [lia|done].
Qed.

(** The invariant of the loop. *)
Lemma compress_loop_ends_kept `{MathLib} fuel : ∀ st,
  (0 <= fst st)%Z → kf_sizes_agree (snd st) →
  (0 <= fst (compress_loop fuel st))%Z
  ∧ kf_sizes_agree (snd (compress_loop fuel st))
  ∧ ends_kept (kf_samples (snd st)) (kf_samples (snd (compress_loop fuel st))).
Proof.
  induction fuel as [|fuel IH]; intros [base kf] Hbase Hagree; simpl in *.
  - auto using ends_kept_refl.
  - destruct (compress_continues base kf) eqn:Hc; simpl; [|auto using ends_kept_refl].
    destruct (compress_continues_pos base kf Hbase Hc) as [Hlen _].
    destruct (middle_redundant kf (Z.to_nat base)).
    + destruct (IH (base, kf_erase (Z.to_nat base + 1) kf) Hbase
                   (kf_erase_sizes_agree _ _ Hagree)) as (Hb' & Ha' & Hk').
      split; [done|]. split; [done|].
      eapply ends_kept_trans; [|exact Hk']. simpl.
      rewrite kf_samples_erase. apply ends_kept_delete; [lia|].
      rewrite length_kf_samples by done. lia.
    + apply (IH ((base + 1)%Z, kf)); simpl; [lia|done].
Qed.

(** With fuel for as many iterations as the bound exceeds [base], the loop
    stops because its condition is false. *)
Lemma compress_loop_exits `{MathLib} fuel : ∀ st,
  (0 <= fst st)%Z →
  (compress_bound (length (frame_id (snd st))) - fst st <= Z.of_nat fuel)%Z →
  compress_continues (fst (compress_loop fuel st)) (snd (compress_loop fuel st)) = false.
Proof.
  induction fuel as [|fuel IH]; intros [base kf] Hbase Hfuel; simpl in *.
  - unfold compress_continues. simpl. apply Z.ltb_ge. lia.
  - destruct (compress_continues base kf) eqn:Hc; simpl; [|done].
    destruct (compress_continues_pos base kf Hbase Hc) as [Hlen Hdec].
    destruct (middle_redundant kf (Z.to_nat base)).
    + apply IH; simpl; [done|].
      rewrite length_delete by (apply lookup_lt_is_Some; lia).
      rewrite Hdec. lia.
    + apply IH; simpl; lia.
Qed.

Lemma compress_bound_le_size n : (compress_bound n <= Z.of_nat n)%Z.
Proof.
  destruct (decide (0 < compress_bound n)%Z) as [Hpos|Hneg]; [|lia].
  destruct (compress_bound_pos n Hpos) as (_ & Hle & _). lia.
Qed.

Lemma list_ends {A} (l : list A) :
  (2 ≤ length l)%nat → ∃ x mid y, l = x :: mid ++ [y].
Proof.
  intros Hlen. destruct l as [|x l]; [simpl in Hlen; lia|].
  destruct (exists_last (l := l)) as (mid & y & ->).
  { intros ->. simpl in Hlen. lia. }
  by exists x, mid, y.
Qed.

(** C1: CompressKeyFrameSet runs its loop to the exit; for a set with fewer
    than 3 samples the loop condition is false at once and the set is
    returned unchanged; and a set with a first sample
    [x], a last sample [y] and the samples [mid] between them comes back
    as [x], a subsequence of [mid], and [y]: the first and the last sample
    are never removed. *)
Theorem CompressKeyFrameSet_keeps_ends `{MathLib} (kf : KeyFrameSet) :
  kf_sizes_agree kf →
  let kf' := CompressKeyFrameSet kf in
  (∃ base, compress_loop (length (frame_id kf)) (0%Z, kf) = (base, kf')
           ∧ compress_continues base kf' = false)
  ∧ kf_sizes_agree kf'
  ∧ ((length (frame_id kf) < 3)%nat → compress_continues 0 kf = false ∧ kf' = kf)
  ∧ (∀ x mid y, kf_samples kf = x :: mid ++ [y] →
       ∃ mid', kf_samples kf' = x :: mid' ++ [y] ∧ mid' `sublist_of` mid)
  ∧ head (kf_samples kf') = head (kf_samples kf)
  ∧ last (kf_samples kf') = last (kf_samples kf).
Proof.
  intros Hagree kf'. subst kf'. unfold CompressKeyFrameSet.
  pose proof (compress_loop_exits (length (frame_id kf)) (0%Z, kf) ltac:(done)) as Hexit.
  simpl in Hexit. specialize (Hexit ltac:(pose proof (compress_bound_le_size (length (frame_id kf))); lia)).
  destruct (compress_loop_ends_kept (length (frame_id kf)) (0%Z, kf) ltac:(done) Hagree)
    as (_ & Hagree' & Hkept). simpl in Hkept.
  assert (Hsmall : (length (frame_id kf) < 3)%nat →
                   compress_loop (length (frame_id kf)) (0%Z, kf) = (0%Z, kf)).
  { intros Hlt. pose proof (compress_bound_small _ Hlt) as Hb.
    destruct (length (frame_id kf)) eqn:E; simpl; [done|].
    unfold compress_continues. rewrite E.
    destruct (Z.ltb_spec 0 (compress_bound (S n))); [lia|done]. }
  destruct (compress_loop (length (frame_id kf)) (0%Z, kf)) as [base kf'] eqn:Hrun.
  simpl in *.
  split; [by exists base|]. split; [done|].
  split.
  { intros Hlt. specialize (Hsmall Hlt). split; [|congruence].
    unfold compress_continues. apply Z.ltb_ge. by apply compress_bound_small. }
  split; [exact Hkept|].
  destruct (decide (2 ≤ length (kf_samples kf))%nat) as [Hlen|Hlen].
  - destruct (list_ends _ Hlen) as (x & mid & y & Hl).
    destruct (Hkept _ _ _ Hl) as (mid' & Hl' & _).
    rewrite Hl, Hl'. split; [done|].
    by rewrite !app_comm_cons, !last_snoc.
  - rewrite length_kf_samples in Hlen by done.
    specialize (Hsmall ltac:(lia)). by injection Hsmall as _ ->.
Qed.

Lemma CompressKeyFrameSet_keeps_ends_witness :
  kf_sizes_agree rest_frames
  ∧ head (kf_samples (CompressKeyFrameSet (H := unrotated_MathLib) rest_frames))
    = head (kf_samples rest_frames)
  ∧ last (kf_samples (CompressKeyFrameSet (H := unrotated_MathLib) rest_frames))
    = last (kf_samples rest_frames).
Proof.
  assert (Hagree : kf_sizes_agree rest_frames) by (repeat split).
  split; [exact Hagree|].
  pose proof (@CompressKeyFrameSet_keeps_ends unrotated_MathLib rest_frames Hagree) as H.
  cbv zeta in H. destruct H as (_ & _ & _ & _ & Hhead & Hlast).
  split; [exact Hhead|exact Hlast].
Defined.

(** The middle frame of [rest_frames] is reproduced by its neighbours and
    is erased; the two end frames stay. *)
Example rest_frames_compressed :
  frame_id (CompressKeyFrameSet (H := unrotated_MathLib) rest_frames) = [0; 2]%Z.
Proof. reflexivity. Qed.

(** ** Properties of BuildActions *)


Lemma clip_frame_num_pos cur_anim :
  0 <= mDuration cur_anim → 0 < mTicksPerSecond cur_anim →
  (1 <= clip_frame_num cur_anim)%Z.
Proof.
  intros Hd Ht. unfold clip_frame_num, resample_fps.
  assert (0 <= mDuration cur_anim / mTicksPerSecond cur_anim) as Hdur.
  { apply Qle_shift_div_l; [done|]. lra. }
  assert (0 <= Qceiling (mDuration cur_anim / mTicksPerSecond cur_anim * inject_Z 25))%Z as Hc.
  { change 0%Z with (Qceiling 0). apply Qceiling_resp_le.
    change (inject_Z 25) with 25. lra. }
  destruct (Z.eqb_spec (Qceiling (mDuration cur_anim / mTicksPerSecond cur_anim * inject_Z 25)) 0);
    lia.
Qed.







(** *** The frames given to each joint by one clip *)

Lemma resample_frames_frame_id `{MathLib} frames fps_scale poss quats scales :
  ∀ cursors rkf,
    frame_id (resample_frames frames fps_scale poss quats scales cursors rkf)
    = frame_id rkf ++ frames.
Proof.
  induction frames as [|i rest IH]; intros cursors rkf; simpl.
  - by rewrite app_nil_r.
  - destruct (resample_frame i fps_scale poss quats scales cursors) as [[[r d] s] cursors'].
    rewrite IH. simpl. by rewrite <- app_assoc.
Qed.

(** Resampling appends the frames [start_frame, ..., end_frame - 1]. *)
Lemma ResampleJointTransform_frame_id `{MathLib} rkf start_frame end_frame fps_scale
    poss quats scales :
  frame_id (ResampleJointTransform rkf start_frame end_frame fps_scale poss quats scales)
  = frame_id rkf ++ frame_range start_frame end_frame.
Proof. apply resample_frames_frame_id. Qed.

(** A channel never writes the frames of joint 0: its key is positive. *)
Lemma import_channel_key0 `{MathLib} joints cur_anim frames cur_joint :
  import_channel joints cur_anim frames cur_joint !! 0%nat = frames !! 0%nat.
Proof.
  unfold import_channel.
  destruct (find_joint joints (mNodeName cur_joint)) as [ji|]; [|done].
  destruct (Z.ltb_spec 0 (Z.of_nat ji)); [|done].
  rewrite lookup_insert_ne; [done|lia].
Qed.

Lemma import_channels_key0 `{MathLib} joints cur_anim channels : ∀ frames,
  foldl (import_channel joints cur_anim) frames channels !! 0%nat = frames !! 0%nat.
Proof.
  induction channels as [|ch chs IH]; intros frames; simpl; [done|].
  by rewrite IH, import_channel_key0.
Qed.

(** A channel named like the joint [ji > 0] appends a full track to the
    frames of that joint. *)
Lemma import_channel_track `{MathLib} joints cur_anim frames cur_joint ji :
  find_joint joints (mNodeName cur_joint) = Some ji → (0 < ji)%nat →
  ∃ kf, import_channel joints cur_anim frames cur_joint !! ji = Some kf
        ∧ frame_id kf
          = frame_id (default empty_KeyFrameSet (frames !! ji))
            ++ frame_range 0 (clip_frame_num cur_anim).
Proof.
  intros Hfind Hpos. unfold import_channel. rewrite Hfind.
  destruct (Z.ltb_spec 0 (Z.of_nat ji)); [|lia].
  rewrite Nat2Z.id, lookup_insert_eq. eexists. split; [done|].
  apply ResampleJointTransform_frame_id.
Qed.

Lemma add_default_frames_lt joints : ∀ ji frames k,
  (k < ji)%nat → add_default_frames ji joints frames !! k = frames !! k.
Proof.
  induction joints as [|j js IH]; intros ji frames k Hk; simpl; [done|].
  rewrite IH by lia. destruct (frames !! ji); [done|].
  rewrite lookup_insert_ne; [done|lia].
Qed.

(** After the loop over the joints, a joint keeps the frames it had and a
    joint without frames has the single default frame. *)
Lemma add_default_frames_lookup joints : ∀ ji frames k j,
  joints !! k = Some j →
  add_default_frames ji joints frames !! (ji + k)%nat
  = Some (default (default_tf j) (frames !! (ji + k)%nat)).
Proof.
  induction joints as [|j0 js IH]; intros ji frames k j Hj; [done|].
  destruct k as [|k]; simpl in *.
  - injection Hj as ->. rewrite Nat.add_0_r.
    rewrite add_default_frames_lt by lia.
    destruct (frames !! ji) eqn:E; simpl; [done|]. by rewrite lookup_insert_eq.
  - replace (ji + S k)%nat with (S ji + k)%nat by lia.
    rewrite (IH _ _ _ _ Hj). f_equal. f_equal.
    destruct (frames !! ji); [done|]. rewrite lookup_insert_ne; [done|lia].
Qed.

(** Whatever the channels of the clip, joint 0 ends with the default
    frame. *)
Lemma import_animation_joint0 `{MathLib} j0 joints cur_anim :
  resampled_frames (import_animation (j0 :: joints) cur_anim) !! 0%nat
  = Some (default_tf j0).
Proof.
  unfold import_animation. cbn [resampled_frames].
  rewrite (add_default_frames_lookup (j0 :: joints) 0 _ 0 j0 eq_refl).
  by rewrite Nat.add_0_r, import_channels_key0, lookup_empty.
Qed.

Lemma import_channel_other `{MathLib} joints cur_anim frames cur_joint ji :
  find_joint joints (mNodeName cur_joint) ≠ Some ji →
  import_channel joints cur_anim frames cur_joint !! ji = frames !! ji.
Proof.
  intros Hne. unfold import_channel.
  destruct (find_joint joints (mNodeName cur_joint)) as [k|]; [|done].
  destruct (Z.ltb_spec 0 (Z.of_nat k)); [|done].
  rewrite Nat2Z.id, lookup_insert_ne; [done|congruence].
Qed.

Lemma import_channels_other `{MathLib} joints cur_anim channels ji : ∀ frames,
  Forall (λ ch, find_joint joints (mNodeName ch) ≠ Some ji) channels →
  foldl (import_channel joints cur_anim) frames channels !! ji = frames !! ji.
Proof.
  induction channels as [|ch chs IH]; intros frames Hall; simpl; [done|].
  apply Forall_cons in Hall as [Hch Hchs].
  by rewrite IH, import_channel_other.
Qed.

Lemma frame_range_length n : length (frame_range 0 n) = Z.to_nat n.
Proof. unfold frame_range. by rewrite length_fmap, length_seq, Z.sub_0_r. Qed.

(** A joint that no channel of the clip names receives exactly the default
    frame 0 holding its local bind transform. *)
Lemma import_animation_unmatched `{MathLib} joints cur_anim ji j :
  joints !! ji = Some j →
  Forall (λ ch, find_joint joints (mNodeName ch) ≠ Some ji) (mChannels cur_anim) →
  resampled_frames (import_animation joints cur_anim) !! ji = Some (default_tf j).
Proof.
  intros Hj Hall. unfold import_animation. cbn [resampled_frames].
  pose proof (add_default_frames_lookup joints 0 (foldl (import_channel joints cur_anim) ∅
                                                       (mChannels cur_anim)) ji j Hj) as Hl.
  simpl in Hl. rewrite Hl.
  by rewrite import_channels_other, lookup_empty.
Qed.

(** A joint of positive index named by exactly one channel of the clip
    receives the full track of the frames 0, ..., frame_num - 1. *)
Lemma import_animation_track `{MathLib} joints cur_anim ji j before ch after :
  joints !! ji = Some j → (0 < ji)%nat →
  mChannels cur_anim = before ++ ch :: after →
  find_joint joints (mNodeName ch) = Some ji →
  Forall (λ c, find_joint joints (mNodeName c) ≠ Some ji) (before ++ after) →
  ∃ kf, resampled_frames (import_animation joints cur_anim) !! ji = Some kf
        ∧ frame_id kf = frame_range 0 (clip_frame_num cur_anim)
        ∧ length (frame_id kf) = Z.to_nat (clip_frame_num cur_anim).
Proof.
  intros Hj Hpos Hch Hfind Hothers. apply Forall_app in Hothers as [Hb Ha].
  unfold import_animation. cbn [resampled_frames].
  pose proof (add_default_frames_lookup joints 0 (foldl (import_channel joints cur_anim) ∅
                                                       (mChannels cur_anim)) ji j Hj) as Hl.
  simpl in Hl. rewrite Hl, Hch, foldl_app. simpl.
  rewrite import_channels_other by done.
  destruct (import_channel_track joints cur_anim
              (foldl (import_channel joints cur_anim) ∅ before) ch ji Hfind Hpos)
    as (kf & Hkf & Hid).
  rewrite Hkf. simpl. exists kf. split; [done|].
  rewrite import_channels_other, lookup_empty in Hid by done. simpl in Hid.
  split; [done|]. by rewrite Hid, frame_range_length.
Qed.

(** C4, at the failing input: the hierarchy "a" > "b" gives the joints
    "a" (joint 0) and "b" (joint 1); the clip has 2 frames and a channel
    for each of the two; the channel of "b" yields the full track of frames
    0 and 1, but the channel of "a" is skipped by the test [joint_id > 0]
    and joint 0 is left with the single default frame 0.  The same happens
    for every joint list and every clip: joint 0 always ends with the
    default frame. *)
Theorem BuildActions_joint0_channel_skipped :
  let joints := BuildJoints (H := unrotated_MathLib) two_bone_scene in
  let anim := import_animation (H := unrotated_MathLib) joints slide_clip in
  joint_name <$> joints = ["a"; "b"]
  ∧ mNodeName <$> mChannels slide_clip = ["a"; "b"]
  ∧ find_joint joints "a" = Some 0%nat
  ∧ frame_num anim = 2%Z
  ∧ frame_id <$> resampled_frames anim !! 1%nat = Some [0; 1]%Z
  ∧ frame_id <$> resampled_frames anim !! 0%nat = Some [0%Z]
  ∧ (∀ (M : MathLib) j0 js cur_anim,
       resampled_frames (import_animation (j0 :: js) cur_anim) !! 0%nat
       = Some (default_tf j0)).
Proof.
  cbv zeta. repeat (split; [by vm_compute|]).
  intros M j0 js cur_anim. apply import_animation_joint0.
Qed.

(** ** The numbering of the used entries *)

Lemma used_at_lt used i : used_at used i = true → (i < length used)%nat.
Proof.
  unfold used_at. destruct (used !! i) eqn:E; [|done].
  intros _. by apply lookup_lt_Some in E.
Qed.

Lemma count_used_le used : (count_used used ≤ length used)%nat.
Proof. induction used as [|[] used IH]; simpl; lia. Qed.

Lemma count_used_app u1 u2 : count_used (u1 ++ u2) = (count_used u1 + count_used u2)%nat.
Proof. induction u1 as [|[] u1 IH]; simpl; lia. Qed.

Lemma count_used_take_S used i :
  (i < length used)%nat →
  count_used (take (S i) used)
  = (count_used (take i used) + if used_at used i then 1 else 0)%nat.
Proof.
  intros Hi. destruct (lookup_lt_is_Some_2 used i Hi) as [b Hb].
  rewrite (take_S_r _ _ _ Hb), count_used_app. unfold used_at. rewrite Hb. simpl.
  destruct b; lia.
Qed.

Lemma mapping_at_insert mapping i x k :
  mapping_at (<[i := x]> mapping) k
  = if decide (i = k ∧ (i < length mapping)%nat) then x else mapping_at mapping k.
Proof. unfold mapping_at. rewrite list_lookup_insert. by case_decide. Qed.

(** The state of the numbering loop after the indices below [k]. *)
Lemma assign_ids_prefix used k :
  (k ≤ length used)%nat →
  let st := foldl (λ (st : list nat * nat) i,
                     if used_at used i then (<[i := snd st]> (fst st), S (snd st)) else st)
                  (replicate (length used) 0%nat, 0%nat) (seq 0 k) in
  length (fst st) = length used
  ∧ snd st = count_used (take k used)
  ∧ ∀ i, mapping_at (fst st) i
         = if used_at used i && bool_decide (i < k)%nat
           then count_used (take i used) else 0%nat.
Proof.
  induction k as [|k IH]; intros Hk; cbv zeta.
  - simpl. split; [by rewrite length_replicate|]. split; [done|].
    intros i. rewrite andb_false_r. unfold mapping_at.
    destruct (replicate (length used) 0%nat !! i) eqn:E; [|done].
    by apply lookup_replicate in E as [-> _].
  - rewrite seq_S, foldl_snoc. simpl.
    destruct (IH ltac:(lia)) as (Hlen & Hcnt & Hmap). cbv zeta in *.
    set (st := foldl _ _ (seq 0 k)) in *.
    rewrite count_used_take_S by lia.
    destruct (used_at used k) eqn:Hused; simpl.
    + split; [by rewrite length_insert|]. split; [lia|].
      intros i. rewrite mapping_at_insert, Hmap.
      case_decide as Hi.
      * destruct Hi as [<- _]. rewrite Hused. simpl.
        rewrite bool_decide_true by lia. done.
      * assert (i ≠ k) by (intros ->; apply Hi; split; [done|lia]).
        destruct (used_at used i); simpl; [|done].
        destruct (decide (i < k)%nat).
        -- rewrite !bool_decide_true by lia. done.
        -- rewrite !bool_decide_false by lia. done.
    + split; [done|]. split; [lia|].
      intros i. rewrite Hmap.
      destruct (used_at used i) eqn:Hi; simpl; [|done].
      assert (i ≠ k) by congruence.
      destruct (decide (i < k)%nat).
      * rewrite !bool_decide_true by lia. done.
      * rewrite !bool_decide_false by lia. done.
Qed.

(** The numbering is dense: a used entry gets the number of used entries
    before it, the final id is the number of used entries. *)
Lemma assign_ids_spec used :
  length (fst (assign_ids used)) = length used
  ∧ snd (assign_ids used) = count_used used
  ∧ ∀ i, mapping_at (fst (assign_ids used)) i
         = if used_at used i then count_used (take i used) else 0%nat.
Proof.
  destruct (assign_ids_prefix used (length used) ltac:(lia)) as (Hlen & Hcnt & Hmap).
  cbv zeta in *. unfold assign_ids.
  split; [done|]. split; [by rewrite Hcnt, take_ge|].
  intros i. rewrite Hmap.
  destruct (used_at used i) eqn:Hi; simpl; [|done].
  apply used_at_lt in Hi. by rewrite bool_decide_true.
Qed.

(** [new_index(i) <= i]. *)
Lemma assign_ids_le used i : (mapping_at (fst (assign_ids used)) i ≤ i)%nat.
Proof.
  destruct (assign_ids_spec used) as (_ & _ & Hmap). rewrite Hmap.
  destruct (used_at used i); [|lia].
  etrans; [apply count_used_le|]. rewrite length_take. lia.
Qed.

(** Used entries keep their order and get distinct numbers below the final
    id. *)
Lemma assign_ids_increasing used i j :
  used_at used i = true → used_at used j = true → (i < j)%nat →
  (mapping_at (fst (assign_ids used)) i < mapping_at (fst (assign_ids used)) j)%nat
  ∧ (mapping_at (fst (assign_ids used)) j < snd (assign_ids used))%nat.
Proof.
  intros Hi Hj Hij.
  destruct (assign_ids_spec used) as (_ & Hcnt & Hmap). rewrite !Hmap, Hi, Hj, Hcnt.
  pose proof (used_at_lt _ _ Hj) as Hjn.
  assert (Hstep : ∀ k, used_at used k = true → (k < length used)%nat →
                       (count_used (take k used) < count_used (take (S k) used))%nat).
  { intros k Hk Hkn. rewrite count_used_take_S, Hk by done. lia. }
  assert (Hmono : ∀ a b, (a ≤ b)%nat → (count_used (take a used) ≤ count_used (take b used))%nat).
  { intros a b Hab. induction Hab as [|m Hle IH]; [done|].
    etrans; [exact IH|].
    destruct (decide (m < length used)%nat).
    - rewrite count_used_take_S by done. lia.
    - by rewrite !take_ge by lia. }
  split.
  - eapply Nat.lt_le_trans; [apply (Hstep i Hi); lia|]. apply Hmono. lia.
  - eapply Nat.lt_le_trans; [apply (Hstep j Hj Hjn)|].
    rewrite <- (take_ge used (length used)) at 2 by lia. apply Hmono. lia.
Qed.

(** ** The joints kept by RemoveUnusedJoints *)

Lemma used_at_insert used i k :
  used_at (<[i := true]> used) k
  = if decide (i = k ∧ (i < length used)%nat) then true else used_at used k.
Proof. unfold used_at. rewrite list_lookup_insert. by case_decide. Qed.

Lemma count_used_insert used : ∀ i,
  used_at used i = false → (i < length used)%nat →
  count_used (<[i := true]> used) = S (count_used used).
Proof.
  induction used as [|b used IH]; intros i Hi Hlt; simpl in *; [lia|].
  destruct i as [|i]; simpl.
  - unfold used_at in Hi. simpl in Hi. by subst b.
  - rewrite IH; [lia|done|lia].
Qed.

Lemma count_unused_0 used i :
  count_unused used = 0%nat → (i < length used)%nat → used_at used i = true.
Proof.
  unfold count_unused. revert i. induction used as [|b used IH]; intros i H0 Hi; simpl in *; [lia|].
  pose proof (count_used_le used). destruct b; simpl in *; [|lia].
  destruct i as [|i]; [done|]. apply IH; lia.
Qed.

Lemma parent_used_mono used used' j :
  (∀ k, used_at used k = true → used_at used' k = true) →
  parent_used used j → parent_used used' j.
Proof. intros Hmono [?|?]; [by left|right; auto]. Qed.

Lemma parent_index_lt n j :
  parent_in_range n j → parent j ≠ (-1)%Z → (parent_index j < n)%nat.
Proof. unfold parent_in_range, parent_index. lia. Qed.

(** One climb: it only adds marks, it leaves the parent of its start joint
    and of every joint it marks marked, and it ends because its condition
    is false. *)
Lemma climb_spec d joints fuel : ∀ j used,
  length used = length joints →
  Forall (parent_in_range (length joints)) joints →
  parent_in_range (length joints) j →
  (count_unused used ≤ fuel)%nat →
  length (snd (climb fuel d joints (j, used))) = length used
  ∧ (∀ k, used_at used k = true → used_at (snd (climb fuel d joints (j, used))) k = true)
  ∧ parent_used (snd (climb fuel d joints (j, used))) j
  ∧ (∀ k jk, used_at (snd (climb fuel d joints (j, used))) k = true →
             used_at used k = false → joints !! k = Some jk →
             parent_used (snd (climb fuel d joints (j, used))) jk)
  ∧ climb_continues (fst (climb fuel d joints (j, used)))
                    (snd (climb fuel d joints (j, used))) = false.
Proof.
  induction fuel as [|fuel IH]; intros j used Hlen Hall Hj Hfuel.
  - simpl.
    assert (Hpu : parent_used used j).
    { destruct (decide (parent j = (-1)%Z)) as [?|Hne]; [by left|right].
      apply count_unused_0; [lia|]. rewrite Hlen. by apply parent_index_lt. }
    split; [done|]. split; [done|]. split; [done|].
    split; [intros k jk ? ?; congruence|].
    unfold climb_continues. destruct Hpu as [->| ->]; [done|].
    by rewrite andb_false_r.
  - simpl. destruct (climb_continues j used) eqn:Hc.
    + unfold climb_continues in Hc. apply andb_true_iff in Hc as [Hne Hun].
      apply negb_true_iff in Hne, Hun. apply Z.eqb_neq in Hne.
      pose proof (parent_index_lt _ _ Hj Hne) as Hp.
      destruct (lookup_lt_is_Some_2 joints (parent_index j) Hp) as [j1 Hj1].
      assert (at_index d joints (parent_index j) = j1) as ->.
      { unfold at_index. by rewrite nth_lookup, Hj1. }
      destruct (IH j1 (<[parent_index j := true]> used)) as (Hl & Hm & Hpu & Hnew & Hexit).
      * by rewrite length_insert.
      * done.
      * eapply Forall_lookup_1; [exact Hall|exact Hj1].
      * unfold count_unused in *.
        rewrite length_insert, (count_used_insert _ _ Hun) by lia.
        pose proof (count_used_le used). lia.
      * rewrite length_insert in Hl.
        assert (Hstep : ∀ k, used_at used k = true →
                        used_at (<[parent_index j := true]> used) k = true).
        { intros k Hk. rewrite used_at_insert. by case_decide. }
        split; [done|]. split; [auto|]. split.
        { right. apply Hm. rewrite used_at_insert, decide_True; [done|]. split; [done|lia]. }
        split; [|done].
        intros k jk Hk' Hk Hjk.
        destruct (decide (k = parent_index j)) as [->|Hkp].
        -- rewrite Hj1 in Hjk. by injection Hjk as <-.
        -- apply (Hnew k jk Hk'); [|done].
           rewrite used_at_insert, decide_False; [done|]. intros [? _]. congruence.
    + split; [done|]. split; [done|]. split.
      { unfold climb_continues in Hc. apply andb_false_iff in Hc as [Hc|Hc].
        - left. apply negb_false_iff in Hc. by apply Z.eqb_eq in Hc.
        - right. by apply negb_false_iff in Hc. }
      split; [intros k jk Hk1 Hk2; simpl in Hk1; congruence|done].
Qed.

(** The state of the second loop after the indices below [k]: every used
    joint that the loop has visited or marked has its parent marked. *)
Lemma mark_ancestors_prefix joints used0 k :
  length used0 = length joints →
  Forall (parent_in_range (length joints)) joints →
  (k ≤ length joints)%nat →
  let used :=
    foldl (λ used ji,
             if used_at used ji
             then match joints !! ji with
                  | Some j => snd (climb (length joints) j joints (j, used))
                  | None => used
                  end
             else used)
          used0 (seq 0 k) in
  length used = length used0
  ∧ (∀ i, used_at used0 i = true → used_at used i = true)
  ∧ (∀ i ji, used_at used i = true → ((i < k)%nat ∨ used_at used0 i = false) →
             joints !! i = Some ji → parent_used used ji).
Proof.
  intros Hlen Hall. induction k as [|k IH]; intros Hk; cbv zeta.
  - simpl. split; [done|]. split; [done|].
    intros i ji Hi [?|?] _; [lia|congruence].
  - rewrite seq_S, foldl_snoc. simpl.
    destruct (IH ltac:(lia)) as (Hl & Hm & Hclosed). cbv zeta in *.
    set (used := foldl _ used0 (seq 0 k)) in *.
    destruct (used_at used k) eqn:Huk; [|].
    + destruct (lookup_lt_is_Some_2 joints k ltac:(lia)) as [j Hj]. rewrite Hj.
      destruct (climb_spec j joints (length joints) j used) as (Hl' & Hm' & Hpu & Hnew & _).
      * congruence.
      * done.
      * eapply Forall_lookup_1; [exact Hall|exact Hj].
      * unfold count_unused. lia.
      * split; [congruence|]. split; [auto|].
        intros i ji Hi Hcase Hji.
        destruct (used_at used i) eqn:Hui.
        -- destruct (decide (i = k)) as [->|Hik].
           ++ rewrite Hj in Hji. by injection Hji as <-.
           ++ eapply parent_used_mono; [exact Hm'|].
              apply (Hclosed i ji Hui); [|done]. destruct Hcase; [left; lia|by right].
        -- by apply (Hnew i ji).
    + split; [done|]. split; [done|].
      intros i ji Hi Hcase Hji. apply (Hclosed i ji Hi); [|done].
      destruct Hcase as [Hlt|?]; [|by right].
      left. assert (i ≠ k) by congruence. lia.
Qed.

Lemma mark_ancestors_closed joints used0 :
  length used0 = length joints →
  Forall (parent_in_range (length joints)) joints →
  length (mark_ancestors joints used0) = length used0
  ∧ (∀ i, used_at used0 i = true → used_at (mark_ancestors joints used0) i = true)
  ∧ (∀ i ji, used_at (mark_ancestors joints used0) i = true → joints !! i = Some ji →
             parent_used (mark_ancestors joints used0) ji).
Proof.
  intros Hlen Hall.
  destruct (mark_ancestors_prefix joints used0 (length joints) Hlen Hall ltac:(lia))
    as (Hl & Hm & Hclosed). cbv zeta in *.
  split; [done|]. split; [done|].
  intros i ji Hi Hji. apply (Hclosed i ji Hi); [|done].
  left. by apply lookup_lt_Some in Hji.
Qed.

(** The first loop marks the joint ids of all bindings, one by one. *)
Lemma mark_bound_joints_flat meshes : ∀ used,
  mark_bound_joints meshes used = foldl mark_id used (bound_ids meshes).
Proof.
  unfold mark_bound_joints, bound_ids.
  induction meshes as [|mesh meshes IHm]; intros used; simpl; [done|].
  rewrite foldl_app, IHm. f_equal. clear IHm. revert used.
  induction (lods mesh) as [|lod ls IHl]; intros used; simpl; [done|].
  rewrite foldl_app, IHl. f_equal. clear IHl. revert used.
  induction (joint_bindings lod) as [|bindings bs IHb]; intros used; simpl; [done|].
  rewrite foldl_app, IHb. f_equal. by rewrite foldl_fmap.
Qed.

Lemma foldl_mark_id ids : ∀ used,
  length (foldl mark_id used ids) = length used
  ∧ ∀ k, used_at (foldl mark_id used ids) k = true
         ↔ used_at used k = true ∨ (k ∈ ids ∧ (k < length used)%nat).
Proof.
  induction ids as [|i ids IH]; intros used; simpl.
  - split; [done|]. intros k. split; [by left|].
    intros [?|[Hin _]]; [done|]. by apply elem_of_nil in Hin.
  - destruct (IH (mark_id used i)) as [Hl Hk]. unfold mark_id in *.
    rewrite length_insert in *. split; [done|].
    intros k. rewrite Hk, used_at_insert, elem_of_cons. case_decide as Hd.
    + destruct Hd as [-> Hlt]. split; [|by left]. intros _. right. split; [by left|done].
    + split.
      * intros [?|[? ?]]; [by left|right]. split; [by right|done].
      * intros [?|[[->|?] ?]]; [by left| |right; by split].
        exfalso. apply Hd. by split.
Qed.

(** X21: the joints kept by RemoveUnusedJoints, for parent fields that are -1
    or joint indices: every joint a vertex is bound to is kept, the parent
    of a kept joint is kept (so every ancestor is), and the new index of a
    joint is never above its old one. *)
Lemma RemoveUnusedJoints_keeps_ancestors joints meshes :
  Forall (parent_in_range (length joints)) joints →
  let used := joints_used_of joints meshes in
  length used = length joints
  ∧ (∀ i, i ∈ bound_ids meshes → (i < length joints)%nat → used_at used i = true)
  ∧ (∀ i ji, used_at used i = true → joints !! i = Some ji → parent_used used ji)
  ∧ (∀ i, (mapping_at (fst (joint_mapping_of joints meshes)) i ≤ i)%nat).
Proof.
  intros Hall used. subst used. unfold joints_used_of, joint_mapping_of.
  rewrite mark_bound_joints_flat.
  destruct (foldl_mark_id (bound_ids meshes) (replicate (length joints) false)) as [Hl Hk].
  rewrite length_replicate in *.
  destruct (mark_ancestors_closed joints _ Hl Hall) as (Hl' & Hm & Hclosed).
  split; [congruence|]. split.
  - intros i Hin Hi. apply Hm, Hk. right. by split.
  - split; [done|]. intros i. apply assign_ids_le.
Qed.

(** The compaction only copies entries: every joint left by
    RemoveUnusedJoints is one of the input joints as it was, its [parent]
    field included. *)
Lemma compact_elem_of {A} used mapping new_size (v : list A) x :
  x ∈ compact used mapping new_size v → x ∈ v.
Proof.
  unfold compact. intros Hin. apply (subseteq_take new_size) in Hin. revert Hin.
  generalize (seq 0 (length used)). intros ids. revert v.
  induction ids as [|ji ids IH]; intros v Hin; simpl in Hin; [done|].
  destruct (used_at used ji); [|by apply IH].
  destruct (v !! ji) as [y|] eqn:Hy; [|by apply IH].
  apply IH in Hin. apply list_elem_of_lookup in Hin as [k Hk].
  destruct (decide (k = mapping_at mapping ji)) as [->|Hne].
  - destruct (decide (mapping_at mapping ji < length v)%nat).
    + rewrite list_lookup_insert_eq in Hk by done. injection Hk as <-.
      apply list_elem_of_lookup. by exists ji.
    + rewrite list_insert_ge in Hk by lia. apply list_elem_of_lookup. by exists (mapping_at mapping ji).
  - rewrite list_lookup_insert_ne in Hk by done.
    apply list_elem_of_lookup. by exists k.
Qed.

Lemma RemoveUnusedJoints_copies {Mtl} (st : PruneState Mtl) j :
  j ∈ joints_ (RemoveUnusedJoints st) → j ∈ joints_ st.
Proof.
  unfold RemoveUnusedJoints. destruct (assign_ids _) as [mapping new_id]. simpl.
  apply compact_elem_of.
Qed.

(** ** The materials kept by RemoveUnusedMaterials *)

Lemma move_materials_length {Mtl} (mapping : list nat) new_size (materials : list Mtl) :
  (new_size ≤ length materials)%nat →
  length (move_materials mapping new_size materials) = new_size.
Proof.
  intros Hle. unfold move_materials. rewrite length_take.
  assert (∀ ids (ms : list Mtl),
            length (foldl (λ ms i, match ms !! mapping_at mapping i with
                                   | Some m => <[i := m]> ms
                                   | None => ms
                                   end) ms ids) = length ms) as Hlen.
  { induction ids as [|i ids IH]; intros ms; simpl; [done|].
    rewrite IH. destruct (ms !! mapping_at mapping i); [|done]. by rewrite length_insert. }
  rewrite Hlen. lia.
Qed.

(** X22: the part of the contract that RemoveUnusedMaterials meets, for material
    ids inside the material array: as many materials remain as are used by
    some mesh, and the meshes get dense ids that keep distinct materials
    apart and stay inside the shortened array. *)
Lemma RemoveUnusedMaterials_dense {Mtl} (st : PruneState Mtl) :
  Forall (λ mesh, (mtl_id mesh < length (materials_ st))%nat) (meshes_ st) →
  let used := mark_used_materials (meshes_ st) (replicate (length (materials_ st)) false) in
  let st' := RemoveUnusedMaterials st in
  length (materials_ st') = count_used used
  ∧ (∀ i, used_at used i = true ↔ ∃ mesh, mesh ∈ meshes_ st ∧ mtl_id mesh = i)
  ∧ mtl_id <$> meshes_ st'
    = (λ mesh, mapping_at (fst (assign_ids used)) (mtl_id mesh)) <$> meshes_ st
  ∧ Forall (λ mesh, (mtl_id mesh < length (materials_ st'))%nat) (meshes_ st')
  ∧ (∀ m1 m2, m1 ∈ meshes_ st → m2 ∈ meshes_ st → (mtl_id m1 < mtl_id m2)%nat →
       (mapping_at (fst (assign_ids used)) (mtl_id m1)
        < mapping_at (fst (assign_ids used)) (mtl_id m2))%nat).
Proof.
  intros Hin used st'. subst st'. unfold RemoveUnusedMaterials. fold used.
  assert (Hused : used = foldl mark_id (replicate (length (materials_ st)) false)
                               (mtl_id <$> meshes_ st)).
  { subst used. unfold mark_used_materials. by rewrite foldl_fmap. }
  destruct (foldl_mark_id (mtl_id <$> meshes_ st) (replicate (length (materials_ st)) false))
    as [Hl Hk].
  rewrite <- Hused, length_replicate in *.
  assert (Hmark : ∀ i, used_at used i = true ↔ ∃ mesh, mesh ∈ meshes_ st ∧ mtl_id mesh = i).
  { intros i. rewrite Hk. split.
    - intros [Hrep|[Hi _]].
      + unfold used_at in Hrep. destruct (replicate _ _ !! i) eqn:E; [|done].
        apply lookup_replicate in E as [-> _]. done.
      + apply list_elem_of_fmap in Hi as (mesh & -> & Hm). by exists mesh.
    - intros (mesh & Hm & <-). right. split; [apply list_elem_of_fmap; by exists mesh|].
      eapply Forall_forall in Hin; [exact Hin|done]. }
  destruct (assign_ids_spec used) as (Hml & Hcnt & Hmap).
  destruct (assign_ids used) as [mapping new_id] eqn:Hids. simpl in *.
  pose proof (count_used_le used) as Hle.
  split; [rewrite move_materials_length; [done|lia]|].
  split; [done|].
  split; [by rewrite <- list_fmap_compose|].
  split.
  - apply Forall_fmap, Forall_forall. intros mesh Hm. simpl.
    rewrite move_materials_length by lia.
    assert (Hu : used_at used (mtl_id mesh) = true) by (apply Hmark; by exists mesh).
    rewrite Hmap, Hu, Hcnt.
    pose proof (used_at_lt _ _ Hu) as Hlt.
    rewrite <- (take_drop (mtl_id mesh) used) at 2. rewrite count_used_app.
    destruct (drop (mtl_id mesh) used) as [|b rest] eqn:Hd.
    { apply (f_equal length) in Hd. rewrite length_drop in Hd. simpl in Hd. lia. }
    assert (b = true) as ->.
    { unfold used_at in Hu. rewrite <- (Nat.add_0_r (mtl_id mesh)), <- lookup_drop, Hd in Hu.
      done. }
    simpl. lia.
  - intros m1 m2 H1 H2 Hlt.
    pose proof (assign_ids_increasing used (mtl_id m1) (mtl_id m2)) as Hinc.
    rewrite Hids in Hinc. simpl in Hinc.
    apply Hinc; [apply Hmark; by exists m1|apply Hmark; by exists m2|done].
Qed.

(** ** RemoveUnusedMaterials and RemoveUnusedJoints at concrete models *)

(** C5, at the failing input: of the materials stone, wood and glass the
    only mesh uses glass (material 2).  The used material is numbered 0,
    but the loop [GetMaterial(i) = GetMaterial(mtl_mapping[i])] copies
    material 0 over every entry: after pruning the mesh's material id 0
    holds stone, not the glass the mesh referenced before. *)
Theorem RemoveUnusedMaterials_glass_lost :
  let st' := RemoveUnusedMaterials glass_model in
  mtl_id <$> meshes_ glass_model = [2%nat]
  ∧ materials_ glass_model !! 2%nat = Some "glass"
  ∧ mtl_id <$> meshes_ st' = [0%nat]
  ∧ materials_ st' = ["stone"]
  ∧ materials_ st' !! 0%nat ≠ materials_ glass_model !! 2%nat.
Proof. cbv zeta. repeat (split; [by vm_compute|]). by vm_compute. Qed.

(** C6, at the failing input: the skeleton r > b1, b5, b2 > b3 has the
    joints r, b1, b5, b2, b3 with parents -1, 0, 0, 0, 3; the mesh binds
    its vertex to b2 and b3 only.  The used joints are r, b2, b3 (every
    ancestor of a bound joint is kept) and they are renumbered 0, 1, 2
    (never upwards), but the joints are copied with their old parent
    indices: b3 keeps parent 3, which is no joint of the three that
    remain. *)
Theorem RemoveUnusedJoints_arm_parent_dangling :
  let st' := RemoveUnusedJoints arm_model in
  (λ j, (joint_name j, parent j)) <$> joints_ arm_model
    = [("r", -1); ("b1", 0); ("b5", 0); ("b2", 0); ("b3", 3)]%Z
  ∧ joint_bindings <$> (meshes_ arm_model ≫= lods) = [[[(4%nat, 1 # 2); (3%nat, 1 # 2)]]]
  ∧ joints_used_of (joints_ arm_model) (meshes_ arm_model) = [true; false; false; true; true]
  ∧ joint_mapping_of (joints_ arm_model) (meshes_ arm_model) = ([0; 0; 0; 1; 2]%nat, 3%nat)
  ∧ (λ j, (joint_name j, parent j)) <$> joints_ st' = [("r", -1); ("b2", 0); ("b3", 3)]%Z
  ∧ joint_bindings <$> (meshes_ st' ≫= lods) = [[[(2%nat, 1 # 2); (1%nat, 1 # 2)]]]
  ∧ Exists (λ j, parent j ≠ (-1)%Z ∧ ¬ (0 <= parent j < Z.of_nat (length (joints_ st')))%Z)
           (joints_ st').
Proof.
  cbv zeta. repeat (split; [by vm_compute|]).
  apply (bool_decide_unpack _). by vm_compute.
Qed.

(** ** Position quantisation *)

Lemma float_to_int32_near x :
  inject_Z (float_to_int32 x) - 1 < x ∧ x < inject_Z (float_to_int32 x) + 1.
Proof.
  unfold float_to_int32.
  destruct (Qle_bool 0 x) eqn:E.
  - pose proof (Qfloor_le x). pose proof (Qlt_floor x) as Hlt.
    rewrite inject_Z_plus in Hlt. change (inject_Z 1) with 1 in Hlt. lra.
  - pose proof (Qle_ceiling x). pose proof (Qceiling_lt x) as Hlt.
    replace (Qceiling x - 1)%Z with (Qceiling x + -1)%Z in Hlt by lia.
    rewrite inject_Z_plus in Hlt. change (inject_Z (-1)) with (-1) in Hlt. lra.
Qed.

(** Truncation keeps a value of the closed [int16_t] range in the range. *)
Lemma float_to_int32_range x :
  -32768 <= x → x <= 32767 → (-32768 <= float_to_int32 x <= 32767)%Z.
Proof.
  intros Hlo Hhi. unfold float_to_int32.
  destruct (Qle_bool 0 x) eqn:E.
  - apply Qle_bool_iff in E. split.
    + transitivity 0%Z; [lia|]. change 0%Z with (Qfloor 0). by apply Qfloor_resp_le.
    + change 32767%Z with (Qfloor 32767). by apply Qfloor_resp_le.
  - split.
    + change (-32768)%Z with (Qceiling (-32768)). by apply Qceiling_resp_le.
    + change 32767%Z with (Qceiling 32767). by apply Qceiling_resp_le.
Qed.

Lemma round_to_int_near x :
  inject_Z (round_to_int x) - (1 # 2) <= x ∧ x < inject_Z (round_to_int x) + (1 # 2).
Proof.
  unfold round_to_int.
  pose proof (Qfloor_le (x + (1 # 2))). pose proof (Qlt_floor (x + (1 # 2))) as Hlt.
  rewrite inject_Z_plus in Hlt. change (inject_Z 1) with 1 in Hlt. lra.
Qed.

Lemma round_to_int_range x :
  -32768 <= x → x <= 32767 → (-32768 <= round_to_int x <= 32767)%Z.
Proof.
  intros Hlo Hhi. unfold round_to_int. split.
  - change (-32768)%Z with (Qfloor (-32768)). apply Qfloor_resp_le. lra.
  - assert (Qfloor (x + (1 # 2)) <= Qfloor (32767 + (1 # 2)))%Z as Hle
      by (apply Qfloor_resp_le; lra).
    by vm_compute in Hle |- *.
Qed.

Lemma to_int16_clamp_id z :
  (-32768 <= z <= 32767)%Z → to_int16 (clamp_int z (-32768) 32767) = z.
Proof.
  intros Hz. unfold clamp_int, to_int16.
  destruct (Z.ltb_spec z (-32768)); [lia|].
  destruct (Z.ltb_spec 32767 z); [lia|].
  rewrite Z.mod_small; lia.
Qed.

(** The value handed to the cast lies in the [int16_t] range for a
    coordinate inside the box. *)
Lemma quantize_argument_range p center extent :
  0 < extent → center - extent <= p → p <= center + extent →
  let v := ((p - center) / extent * (1 # 2) + (1 # 2)) * 65535 - 32768 in
  -32768 <= v ∧ v <= 32767 ∧ p == center + extent * ((v + (1 # 2)) * (2 # 65535)).
Proof.
  intros He Hlo Hhi v. subst v.
  assert (-1 <= (p - center) / extent) as H1.
  { apply Qle_shift_div_l; [done|]. lra. }
  assert ((p - center) / extent <= 1) as H2.
  { apply Qle_shift_div_r; [done|]. lra. }
  split; [lra|]. split; [lra|].
  field. lra.
Qed.

(** The distance of the recovered coordinate from the original one, in
    terms of the distance of the stored integer from the exact value. *)
Lemma dequantize_error q p center extent v :
  p == center + extent * ((v + (1 # 2)) * (2 # 65535)) →
  dequantize_axis q center extent - p == extent * (2 # 65535) * (inject_Z q - v).
Proof.
  intros Hp. unfold dequantize_axis. rewrite Hp, inject_Z_plus.
  change (inject_Z 32768) with 32768. field.
Qed.

(** With the fraction discarded the recovered coordinate is less than one
    quantisation step, [2 * extent / 65535], away. *)
Lemma quantize_axis_roundtrip p center extent :
  0 < extent → center - extent <= p → p <= center + extent →
  Qabs (dequantize_axis (quantize_axis p center extent) center extent - p)
  < extent * (2 # 65535).
Proof.
  intros He Hlo Hhi.
  destruct (quantize_argument_range p center extent He Hlo Hhi) as (Hv1 & Hv2 & Hp).
  unfold quantize_axis.
  set (v := ((p - center) / extent * (1 # 2) + (1 # 2)) * 65535 - 32768) in *.
  rewrite to_int16_clamp_id by (by apply float_to_int32_range).
  rewrite (dequantize_error _ _ _ _ v Hp).
  destruct (float_to_int32_near v) as [Hn1 Hn2].
  apply Qabs_Qlt_condition. split; nra.
Qed.

(** With rounding to the nearest integer, as the claim words it, the
    recovered coordinate is within [extent / 65535], hence within
    [extent / 32768]. *)
Lemma quantize_axis_rounded_roundtrip p center extent :
  0 < extent → center - extent <= p → p <= center + extent →
  Qabs (dequantize_axis (quantize_axis_rounded p center extent) center extent - p)
  <= extent / 32768.
Proof.
  intros He Hlo Hhi.
  destruct (quantize_argument_range p center extent He Hlo Hhi) as (Hv1 & Hv2 & Hp).
  unfold quantize_axis_rounded.
  set (v := ((p - center) / extent * (1 # 2) + (1 # 2)) * 65535 - 32768) in *.
  rewrite to_int16_clamp_id by (by apply round_to_int_range).
  rewrite (dequantize_error _ _ _ _ v Hp).
  destruct (round_to_int_near v) as [Hn1 Hn2].
  apply Qabs_Qle_condition.
  assert (extent / 32768 == extent * (1 # 32768)) as -> by (field; lra).
  split; nra.
Qed.

(** C3, at the failing input: in the box of centre 0 and extent 1 the
    coordinate p = -66049 / 2^25 is mapped to -64.99999... and the cast
    discards the fraction, storing -64 where rounding stores -65; the
    recovered coordinate -127 / 65535 is further than extent / 32768 from
    p. *)
Theorem quantize_axis_exceeds_bound :
  let p := off_grid_coordinate in
  0 - 1 <= p ∧ p <= 0 + 1
  ∧ quantize_axis p 0 1 = (-64)%Z
  ∧ quantize_axis_rounded p 0 1 = (-65)%Z
  ∧ dequantize_axis (quantize_axis p 0 1) 0 1 == - (127 # 65535)
  ∧ 1 / 32768 < Qabs (dequantize_axis (quantize_axis p 0 1) 0 1 - p).
Proof.
  cbv zeta. split; [by vm_compute|]. split; [by vm_compute|].
  split; [by vm_compute|]. split; [by vm_compute|].
  split; by vm_compute.
Qed.

(** ** Failing to locate or import a source *)

Lemma lod_fails_dec {Model} (env : Collaborators Model) input_name_str metadata lod :
  Decision (lod_fails env input_name_str metadata lod).
Proof.
  unfold lod_fails. apply or_dec; [apply _|].
  destruct (aiImportFile env _); [right; discriminate|by left].
Defined.

(** The loop stops at the first LOD that fails, with its error appended to
    the log. *)
Lemma load_lods_fails {Model} (env : Collaborators Model) input_name_str metadata lods :
  ∀ scenes log,
    Exists (lod_fails env input_name_str metadata) lods →
    ∃ lod, lod ∈ lods ∧ lod_fails env input_name_str metadata lod
      ∧ load_lods env input_name_str metadata lods scenes log
        = (None, log ++ [lod_error env input_name_str metadata lod]).
Proof.
  induction lods as [|lod rest IH]; intros scenes log Hex.
  - by apply Exists_nil in Hex.
  - destruct (lod_fails_dec env input_name_str metadata lod) as [Hfail|Hok].
    + exists lod. split; [left|]. split; [done|].
      simpl. unfold lod_error, lod_fails in *.
      destruct (lod_names env input_name_str metadata lod) as [lod_file_name file_name].
      simpl in Hfail.
      destruct (string_empty file_name) eqn:E; [done|].
      destruct Hfail as [? | ->]; [done|done].
    + apply Exists_cons in Hex as [?|Hex]; [done|].
      simpl. unfold lod_fails in Hok.
      destruct (lod_names env input_name_str metadata lod) as [lod_file_name file_name].
      simpl in Hok.
      destruct (string_empty file_name) eqn:E; [tauto|].
      destruct (aiImportFile env file_name) as [scene|] eqn:Himp; [|tauto].
      destruct (IH (scenes ++ [scene]) log Hex) as (lod' & Hin & Hf & Hrun).
      exists lod'. split; [by right|]. by split.
Qed.

(** When every LOD loads, the loop returns the scenes and logs nothing. *)
Lemma load_lods_succeeds {Model} (env : Collaborators Model) input_name_str metadata lods :
  ∀ scenes log,
    Forall (λ lod, ¬ lod_fails env input_name_str metadata lod) lods →
    ∃ loaded, load_lods env input_name_str metadata lods scenes log
              = (Some (scenes ++ loaded), log)
              ∧ length loaded = length lods.
Proof.
  induction lods as [|lod rest IH]; intros scenes log Hall; simpl.
  - exists []. by rewrite app_nil_r.
  - apply Forall_cons in Hall as [Hok Hrest]. unfold lod_fails in Hok.
    destruct (lod_names env input_name_str metadata lod) as [lod_file_name file_name].
    simpl in Hok.
    destruct (string_empty file_name) eqn:E; [tauto|].
    destruct (aiImportFile env file_name) as [scene|] eqn:Himp; [|tauto].
    destruct (IH (scenes ++ [scene]) log Hrest) as (loaded & Hrun & Hlen).
    exists (scene :: loaded). rewrite Hrun. split; [|simpl; by rewrite Hlen].
    by rewrite <- app_assoc.
Qed.

(** C9: Convert returns the null model with one logged error when the
    input itself is not located, and, for an input handed to the importer,
    when some LOD's file is not located or some LOD's scene is not
    imported; the error names a LOD that failed, and nothing built from the
    scenes loaded before it is returned. *)
Theorem Convert_aborts_on_missing_source {Model} (env : Collaborators Model)
    (input_name : string) (metadata : MeshMetadata) :
  (string_empty (Locate env input_name) = true →
   Convert env input_name metadata = (None, [CouldNotFind input_name]))
  ∧ (string_empty (Locate env input_name) = false →
     extension env (Locate env input_name) ≠ ".model_bin" →
     extension env (Locate env input_name) ≠ ".meshml" →
     (∃ lod, (lod < NumLods metadata)%nat
             ∧ lod_fails env (Locate env input_name) metadata lod) →
     ∃ lod, (lod < NumLods metadata)%nat
       ∧ lod_fails env (Locate env input_name) metadata lod
       ∧ Convert env input_name metadata
         = (None, [lod_error env (Locate env input_name) metadata lod])).
Proof.
  split.
  - intros Hempty. unfold Convert. by rewrite Hempty.
  - intros Hfound Hbin Hml (lod & Hlod & Hfail).
    unfold Convert. rewrite Hfound.
    rewrite decide_False by done. rewrite decide_False by done.
    unfold LoadFromAssimp.
    destruct (load_lods_fails env (Locate env input_name) metadata
                (seq 0 (NumLods metadata)) [] []) as (lod' & Hin & Hf & Hrun).
    { apply Exists_exists. exists lod. split; [|done].
      rewrite elem_of_seq. lia. }
    rewrite Hrun. simpl. exists lod'. split; [|by split].
    rewrite elem_of_seq in Hin. lia.
Qed.

Lemma Convert_aborts_on_missing_source_witness :
  string_empty (Locate hero_env "hero.fbx") = false
  ∧ lod_fails hero_env "hero.fbx" hero_metadata 1
  ∧ ∃ lod, (lod < 2)%nat
      ∧ lod_fails hero_env "hero.fbx" hero_metadata lod
      ∧ Convert hero_env "hero.fbx" hero_metadata
        = (None, [lod_error hero_env "hero.fbx" hero_metadata lod]).
Proof.
  split; [reflexivity|]. split; [right; reflexivity|].
  apply (proj2 (Convert_aborts_on_missing_source hero_env "hero.fbx" hero_metadata)).
  - reflexivity.
  - discriminate.
  - discriminate.
  - exists 1%nat. split; [simpl; lia|]. right. reflexivity.
Defined.

Example hero_convert_log :
  Convert hero_env "hero.fbx" hero_metadata
  = (None, [ImportError "hero_lod1.fbx" "unreadable"]).
Proof. reflexivity. Qed.

(** * Further properties *)

(** ** GetInterpTime: the bracket and the cursor *)

(** X1: whatever the hint (a stale or out-of-range cursor included) and
    whatever the query time, the two indices GetInterpTime returns for a
    non-empty track are indices of the track, the lower one not above the
    upper one; on a track of at least two samples they are adjacent. *)
Theorem GetInterpTime_bracket_in_range {T} (vec : list (float * T)) (time : float)
    (hint : nat) :
  vec ≠ [] →
  let r := GetInterpTime vec time hint in
  (interp_result_lower r ≤ interp_result_upper r)%nat
  ∧ (interp_result_upper r < length vec)%nat
  ∧ ((2 ≤ length vec)%nat → interp_result_upper r = S (interp_result_lower r)).
Proof.
  intros Hne. cbv zeta.
  unfold GetInterpTime, interp_result_lower, interp_result_upper.
  destruct (Nat.eqb_spec (length vec) 1) as [H1|H1]; simpl.
  - rewrite H1. lia.
  - assert (2 ≤ length vec)%nat as Hlen.
    { destruct vec as [|? [|? ?]]; simpl in *; try lia. contradiction. }
    unfold bracket.
    destruct (Nat.eqb_spec (find_upper vec time hint) 0) as [E|E]; simpl; [lia|].
    destruct (Nat.leb_spec (length vec - 1) (find_upper vec time hint)); simpl; lia.
Qed.

Lemma GetInterpTime_bracket_in_range_witness :
  let vec := [(0, tt); (2, tt); (4, tt)] in
  vec ≠ []
  ∧ (interp_result_upper (GetInterpTime vec 3 7) < length vec)%nat.
Proof.
  split; [discriminate|].
  apply (GetInterpTime_bracket_in_range [(0, tt); (2, tt); (4, tt)] 3 7 ltac:(discriminate)).
Defined.

Lemma clamp_unit_id x : 0 <= x → x <= 1 → clamp x 0 1 = x.
Proof.
  intros H0 H1. unfold clamp.
  destruct (Qlt_le_dec x 0); [lra|].
  destruct (Qlt_le_dec 1 x); [lra|done].
Qed.

(** X2: on a track of at least two samples whose times never decrease, a
    query that lies within the span of the track and starts from a valid
    cursor gets a bracket that encloses it, [t_lower <= time <= t_upper];
    the cursor never moves back; the returned upper index is again a valid
    cursor for this query time (hence for every later one); and on a
    bracket of positive length the fraction is the exact linear position
    [(time - t_lower) / (t_upper - t_lower)], the clamp being idle. *)
Theorem GetInterpTime_encloses {T} (vec : list (float * T)) (time : float) (hint : nat) :
  (2 ≤ length vec)%nat →
  times_nondecreasing vec →
  valid_cursor vec time hint →
  time_of vec 0 <= time →
  time <= time_of vec (length vec - 1) →
  let r := GetInterpTime vec time hint in
  let lo := interp_result_lower r in
  let up := interp_result_upper r in
  time_of vec lo <= time
  ∧ time <= time_of vec up
  ∧ (hint ≤ up)%nat
  ∧ valid_cursor vec time up
  ∧ (time_of vec lo < time_of vec up →
     interp_result_fraction r = (time - time_of vec lo) / (time_of vec up - time_of vec lo)).
Proof.
  intros Hlen Hmono [Hhint Hprev] Hfirst Hlast. cbv zeta.
  unfold GetInterpTime, interp_result_lower, interp_result_upper, interp_result_fraction.
  destruct (Nat.eqb_spec (length vec) 1) as [H1|_]; [lia|].
  pose proof (find_upper_lower vec time hint) as Hlow.
  pose proof (find_upper_stop vec time hint) as Hstop.
  pose proof (find_upper_skipped vec time hint) as Hskip.
  set (i := find_upper vec time hint) in *.
  assert (Hbr : ∃ lo up, bracket (length vec) i = (lo, up)
                         ∧ up = S lo ∧ (up < length vec)%nat ∧ (hint ≤ up)%nat
                         ∧ time_of vec lo <= time ∧ time <= time_of vec up).
  { unfold bracket.
    destruct (Nat.eqb_spec i 0) as [E|E].
    - exists 0%nat, 1%nat. split; [done|]. split; [done|]. split; [lia|]. split; [lia|].
      split; [done|].
      eapply Qle_trans; [apply Hstop; lia|]. rewrite E. apply Hmono; lia.
    - destruct (Nat.leb_spec (length vec - 1) i) as [Hge|Hlt].
      + exists (length vec - 2)%nat, (length vec - 1)%nat.
        split; [done|]. split; [lia|]. split; [lia|]. split; [lia|].
        split; [|done].
        destruct (decide (hint ≤ length vec - 2)%nat) as [Hh|Hh].
        * apply Qlt_le_weak, Hskip; lia.
        * destruct Hprev as [->|Hp]; [lia|].
          replace (length vec - 2)%nat with (hint - 1)%nat by lia. exact Hp.
      + exists (i - 1)%nat, i. split; [done|]. split; [lia|]. split; [lia|]. split; [lia|].
        split; [|apply Hstop; lia].
        destruct (decide (hint ≤ i - 1)%nat) as [Hh|Hh].
        * apply Qlt_le_weak, Hskip; lia.
        * destruct Hprev as [->|Hp]; [lia|].
          replace (i - 1)%nat with (hint - 1)%nat by lia. exact Hp. }
  destruct Hbr as (lo & up & -> & Hup & Hupl & Hhu & Hlo_t & Hup_t). simpl.
  split; [done|]. split; [done|]. split; [done|].
  split.
  { split; [done|]. right. replace (up - 1)%nat with lo by lia. done. }
  intros Hpos. unfold interp_fraction.
  destruct (Qeq_bool (time_of vec up - time_of vec lo) 0) eqn:Hz.
  { apply Qeq_bool_iff in Hz. lra. }
  apply clamp_unit_id.
  - apply Qle_shift_div_l; lra.
  - apply Qle_shift_div_r; lra.
Qed.

Lemma GetInterpTime_encloses_witness :
  let vec := [(0, tt); (2, tt); (4, tt)] in
  time_of vec (interp_result_lower (GetInterpTime vec 3 1)) <= 3
  ∧ 3 <= time_of vec (interp_result_upper (GetInterpTime vec 3 1)).
Proof.
  assert (Hmono : times_nondecreasing [(0, tt); (2, tt); (4, tt)]).
  { intros i j Hij Hj. simpl in Hj.
    assert (i = 0 ∨ i = 1 ∨ i = 2)%nat as [-> | [-> | ->]] by lia;
      assert (j = 0 ∨ j = 1 ∨ j = 2)%nat as [-> | [-> | ->]] by lia;
      try lia; by vm_compute. }
  assert (Hcur : valid_cursor [(0, tt); (2, tt); (4, tt)] 3 1).
  { split; [simpl; lia|]. right. by vm_compute. }
  pose proof (GetInterpTime_encloses [(0, tt); (2, tt); (4, tt)] 3 1
                ltac:(simpl; lia) Hmono Hcur ltac:(by vm_compute) ltac:(by vm_compute)) as H.
  cbv zeta in H. destruct H as (Hlo & Hup & _). split; [exact Hlo|exact Hup].
Defined.

(** ** BuildJoints: the parent links *)

Lemma alloc_joint_parent `{MathLib} j local_matrix parent_id :
  parent (alloc_joint j local_matrix parent_id) = to_int16 parent_id.
Proof. unfold alloc_joint. by destruct (MatrixToDQ _) as [[r d] s]. Qed.

Lemma parents_precede_cast_snoc joints j p :
  parents_precede_cast joints →
  parent j = to_int16 p → (-1 <= p < Z.of_nat (length joints))%Z →
  parents_precede_cast (joints ++ [j]).
Proof.
  intros Hinv Hj Hp i j' Hi.
  destruct (decide (i < length joints)%nat) as [Hlt|Hge].
  - rewrite lookup_app_l in Hi by done. by apply Hinv.
  - rewrite lookup_app_r in Hi by lia.
    destruct (i - length joints)%nat as [|k] eqn:E; simpl in Hi; [|done].
    injection Hi as <-. exists p. split; [done|]. lia.
Qed.

(** The invariant of the allocation walk: the parent handed down is -1 or
    the index of a joint already stored, and the list only grows. *)
Lemma alloc_joints_parents `{MathLib} node : ∀ parent_id st,
  (-1 <= parent_id < Z.of_nat (length (snd st)))%Z →
  parents_precede_cast (snd st) →
  (length (snd st) ≤ length (snd (alloc_joints node parent_id st)))%nat
  ∧ parents_precede_cast (snd (alloc_joints node parent_id st)).
Proof.
  induction node as [name trans ms cs IHcs] using aiNode_ind.
  intros parent_id [jn joints] Hp Hinv. simpl in *.
  set (step := match jn !! name with
               | Some j =>
                   (Z.of_nat (length joints),
                    (<[name := alloc_joint j (mat_transpose trans) parent_id]> jn,
                     joints ++ [alloc_joint j (mat_transpose trans) parent_id]))
               | None => ((-1)%Z, (jn, joints))
               end).
  assert (Hstep : (-1 <= fst step < Z.of_nat (length (snd (snd step))))%Z
                  ∧ (length joints ≤ length (snd (snd step)))%nat
                  ∧ parents_precede_cast (snd (snd step))).
  { subst step. destruct (jn !! name) as [j|]; simpl.
    - rewrite length_app. simpl. split; [lia|]. split; [lia|].
      apply (parents_precede_cast_snoc joints _ parent_id Hinv); [|done].
      apply alloc_joint_parent.
    - split; [lia|]. split; [lia|done]. }
  destruct step as [joint_id st1]. simpl in Hstep.
  destruct Hstep as (Hid & Hgrow & Hinv1).
  revert st1 Hid Hgrow Hinv1.
  induction IHcs as [|c cs Hc _ IH]; intros st1 Hid Hgrow Hinv1; [done|].
  destruct (Hc joint_id st1 Hid Hinv1) as [Hg Hi].
  apply IH; [lia|lia|done].
Qed.

(** X3: the joints BuildJoints stores form a forest in storage order: as
    long as the skeleton has at most 32768 joints (so that the cast of a
    parent index to [int16_t] loses nothing), every joint's parent field is
    -1 or the index of a joint stored before it; in particular it is a
    parent field that RemoveUnusedJoints can follow. *)
Theorem BuildJoints_parents_precede `{MathLib} (scene : aiScene) :
  (Z.of_nat (length (BuildJoints scene)) <= 32768)%Z →
  parents_precede (BuildJoints scene)
  ∧ Forall (parent_in_range (length (BuildJoints scene))) (BuildJoints scene).
Proof.
  intros Hsize.
  assert (Hcast : parents_precede_cast (BuildJoints scene)).
  { unfold BuildJoints.
    apply (alloc_joints_parents (mRootNode scene) (-1)%Z); simpl; [lia|].
    intros i j Hi. done. }
  assert (Hpre : parents_precede (BuildJoints scene)).
  { intros i j Hi. destruct (Hcast i j Hi) as (p & Hp & Hrange).
    pose proof (lookup_lt_Some _ _ _ Hi) as Hlt.
    rewrite Hp. unfold to_int16. Z.div_mod_to_equations. lia. }
  split; [exact Hpre|].
  apply Forall_lookup. intros i j Hi.
  pose proof (lookup_lt_Some _ _ _ Hi) as Hlt.
  specialize (Hpre i j Hi). unfold parent_in_range. lia.
Qed.

Lemma BuildJoints_parents_precede_witness :
  parents_precede (BuildJoints (H := unrotated_MathLib) arm_scene).
Proof.
  apply (@BuildJoints_parents_precede unrotated_MathLib arm_scene).
  vm_compute. discriminate.
Defined.

(** ** CompressKeyFrameSet: the frame ids *)

Lemma StronglySorted_delete {A} (R : A → A → Prop) l i :
  StronglySorted R l → StronglySorted R (delete i l).
Proof.
  intros Hs. revert i. induction Hs as [|x l Hs IH Hx]; intros i; [destruct i; constructor|].
  destruct i as [|i]; simpl; [done|].
  constructor; [apply IH|by apply Forall_delete].
Qed.

Lemma compress_loop_frame_ids `{MathLib} fuel : ∀ st,
  frame_id (snd (compress_loop fuel st)) `sublist_of` frame_id (snd st)
  ∧ (frame_ids_increasing (snd st) → frame_ids_increasing (snd (compress_loop fuel st))).
Proof.
  induction fuel as [|fuel IH]; intros [base kf]; simpl; [done|].
  destruct (compress_continues base kf); simpl; [|done].
  destruct (middle_redundant kf (Z.to_nat base)).
  - destruct (IH (base, kf_erase (Z.to_nat base + 1) kf)) as [Hsub Hinc]. simpl in *.
    split.
    + etrans; [exact Hsub|]. apply sublist_delete.
    + intros Hs. apply Hinc. by apply StronglySorted_delete.
  - apply (IH ((base + 1)%Z, kf)).
Qed.

(** X4: CompressKeyFrameSet keeps the order of the key frames: the frame
    ids it leaves are a subsequence of the frame ids it was given, and frame
    ids that increase strictly along the set still do so afterwards. *)
Theorem CompressKeyFrameSet_frame_ids_increasing `{MathLib} (kf : KeyFrameSet) :
  frame_ids_increasing kf →
  frame_ids_increasing (CompressKeyFrameSet kf)
  ∧ frame_id (CompressKeyFrameSet kf) `sublist_of` frame_id kf.
Proof.
  intros Hinc. unfold CompressKeyFrameSet.
  destruct (compress_loop_frame_ids (length (frame_id kf)) (0%Z, kf)) as [Hsub Hkeep].
  split; [by apply Hkeep|exact Hsub].
Qed.

Lemma CompressKeyFrameSet_frame_ids_increasing_witness :
  frame_ids_increasing (CompressKeyFrameSet (H := unrotated_MathLib) rest_frames).
Proof.
  apply (@CompressKeyFrameSet_frame_ids_increasing unrotated_MathLib rest_frames).
  unfold frame_ids_increasing. simpl.
  repeat (constructor; [|repeat (constructor; [lia|]); constructor]).
  constructor.
Defined.

(** ** ResampleJointTransform: the resampled rotations *)

Lemma Qlt_bool_spec a b : if Qlt_bool a b then a < b else b <= a.
Proof.
  unfold Qlt_bool. destruct (Qle_bool b a) eqn:E; simpl.
  - by apply Qle_bool_iff.
  - apply Qnot_le_lt. intros Hle. apply Qle_bool_iff in Hle. congruence.
Qed.

(** The sign convention of one resampled frame: a rotation whose scalar
    part is negative is stored negated. *)
Lemma resample_frame_sign `{MathLibContract} i fps_scale poss quats scales cursors :
  0 <= q_w (fst (fst (fst (resample_frame i fps_scale poss quats scales cursors)))).
Proof.
  unfold resample_frame. destruct cursors as [[i_pos i_rot] i_scale].
  repeat match goal with
         | |- context [is_empty ?x] => destruct (is_empty x)
         | |- context [GetInterpTime ?a ?b ?c] => destruct (GetInterpTime a b c) as [? [? ?]]
         | |- context [sclerp ?a ?b ?c ?d ?e] => destruct (sclerp a b c d e) as [? ?]
         end; cbn [fst snd];
    match goal with
    | |- context [Qlt_bool (SignBit (q_w ?r)) 0] =>
        pose proof (Qlt_bool_spec (SignBit (q_w r)) 0) as Hs;
        destruct (Qlt_bool (SignBit (q_w r)) 0); cbn [fst snd quat_neg q_w];
        (destruct (Qlt_le_dec (q_w r) 0) as [Hneg|Hnn];
         [pose proof (SignBit_neg _ Hneg)|]);
        (destruct (Qlt_le_dec 0 (q_w r)) as [Hpos|Hnp];
         [pose proof (SignBit_pos _ Hpos)|]);
        cbn [q_w] in *; lra
    end.
Qed.

Lemma kf_push_sizes_agree kf f r d s : kf_sizes_agree kf → kf_sizes_agree (kf_push kf f r d s).
Proof.
  unfold kf_sizes_agree, kf_push. simpl. rewrite !length_app. simpl. lia.
Qed.

Lemma resample_frames_canonical `{MathLibContract} frames fps_scale poss quats scales :
  ∀ cursors rkf,
    kf_sizes_agree rkf →
    kf_sizes_agree (resample_frames frames fps_scale poss quats scales cursors rkf)
    ∧ ∃ rs, kf_bind_real (resample_frames frames fps_scale poss quats scales cursors rkf)
            = kf_bind_real rkf ++ rs
            ∧ length rs = length frames
            ∧ Forall (λ q, 0 <= q_w q) rs.
Proof.
  induction frames as [|i rest IH]; intros cursors rkf Hagree; simpl.
  - split; [done|]. exists []. by rewrite app_nil_r.
  - pose proof (resample_frame_sign i fps_scale poss quats scales cursors) as Hsign.
    destruct (resample_frame i fps_scale poss quats scales cursors) as [[[r d] s] cursors'].
    simpl in Hsign.
    destruct (IH cursors' (kf_push rkf i r d s) (kf_push_sizes_agree _ _ _ _ _ Hagree))
      as (Ha & rs & Hrs & Hlen & Hall).
    split; [done|]. exists (r :: rs). simpl in Hrs.
    rewrite Hrs, <- app_assoc. simpl. split; [done|]. split; [by rewrite Hlen|].
    by constructor.
Qed.

(** X5: ResampleJointTransform appends one sample per frame of
    [start_frame, end_frame) and keeps the four vectors of the set equally
    long; with a SignBit that has the sign of its argument, every rotation
    it appends has a non-negative scalar part (the canonical hemisphere). *)
Theorem ResampleJointTransform_canonical `{MathLibContract} (rkf : KeyFrameSet)
    (start_frame end_frame : Z) (fps_scale : float) (poss : list (float * float3))
    (quats : list (float * Quaternion)) (scales : list (float * float3)) :
  kf_sizes_agree rkf →
  let kf := ResampleJointTransform rkf start_frame end_frame fps_scale poss quats scales in
  kf_sizes_agree kf
  ∧ ∃ rs, kf_bind_real kf = kf_bind_real rkf ++ rs
          ∧ length rs = Z.to_nat (end_frame - start_frame)
          ∧ Forall (λ q, 0 <= q_w q) rs.
Proof.
  intros Hagree kf. subst kf. unfold ResampleJointTransform.
  destruct (resample_frames_canonical (frame_range start_frame end_frame) fps_scale
              poss quats scales (0, 0, 0)%nat rkf Hagree) as (Ha & rs & Hrs & Hlen & Hall).
  split; [done|]. exists rs. split; [done|]. split; [|done].
  rewrite Hlen. unfold frame_range. by rewrite length_fmap, length_seq.
Qed.

Lemma ResampleJointTransform_canonical_witness :
  kf_sizes_agree
    (ResampleJointTransform (H := unrotated_MathLib) empty_KeyFrameSet 0 2 1
       (mPositionKeys (slide_channel "a")) (mRotationKeys (slide_channel "a"))
       (mScalingKeys (slide_channel "a"))).
Proof.
  apply (@ResampleJointTransform_canonical unrotated_MathLib unrotated_MathLib_contract
           empty_KeyFrameSet 0 2 1).
  repeat split.
Defined.

(** ** BuildActions: the key frames on the timeline *)

Lemma resample_frames_sizes_agree `{MathLib} frames fps_scale poss quats scales :
  ∀ cursors rkf,
    kf_sizes_agree rkf →
    kf_sizes_agree (resample_frames frames fps_scale poss quats scales cursors rkf).
Proof.
  induction frames as [|i rest IH]; intros cursors rkf Hagree; simpl; [done|].
  destruct (resample_frame i fps_scale poss quats scales cursors) as [[[r d] s] cursors'].
  by apply IH, kf_push_sizes_agree.
Qed.

Lemma frame_range_within n : Forall (λ f, 0 <= f < n)%Z (frame_range 0 n).
Proof.
  unfold frame_range. apply Forall_fmap, Forall_forall. intros k Hk. simpl.
  apply elem_of_seq in Hk. lia.
Qed.

Lemma frame_range_nonempty n : (1 <= n)%Z → frame_range 0 n ≠ [].
Proof.
  intros Hn Hnil. apply (f_equal length) in Hnil.
  rewrite frame_range_length in Hnil. simpl in Hnil. lia.
Qed.

Lemma import_channel_frames_ok `{MathLib} joints cur_anim frames cur_joint :
  (1 <= clip_frame_num cur_anim)%Z →
  map_Forall (λ _ kf, clip_frames_ok (clip_frame_num cur_anim) kf) frames →
  map_Forall (λ _ kf, clip_frames_ok (clip_frame_num cur_anim) kf)
             (import_channel joints cur_anim frames cur_joint).
Proof.
  intros Hn Hall. unfold import_channel.
  destruct (find_joint joints (mNodeName cur_joint)) as [ji|]; [|done].
  destruct (Z.ltb_spec 0 (Z.of_nat ji)); [|done].
  apply map_Forall_insert_2; [|done].
  set (rkf := default empty_KeyFrameSet (frames !! Z.to_nat (Z.of_nat ji))).
  assert (Hrkf : kf_sizes_agree rkf
                 ∧ Forall (λ f, 0 <= f < clip_frame_num cur_anim)%Z (frame_id rkf)).
  { subst rkf. destruct (frames !! Z.to_nat (Z.of_nat ji)) as [kf|] eqn:E; simpl.
    - destruct (map_Forall_lookup_1 _ _ _ _ Hall E) as (? & _ & ?). done.
    - split; [by repeat split|constructor]. }
  destruct Hrkf as [Hagree Hrange].
  split; [by apply resample_frames_sizes_agree|].
  rewrite ResampleJointTransform_frame_id. split.
  - intros Hnil. apply app_eq_nil in Hnil as [_ Hnil]. by apply frame_range_nonempty in Hnil.
  - apply Forall_app. split; [done|apply frame_range_within].
Qed.

Lemma default_tf_frames_ok n j : (1 <= n)%Z → clip_frames_ok n (default_tf j).
Proof.
  intros Hn. split; [by repeat split|]. split; [done|].
  simpl. constructor; [lia|constructor].
Qed.

Lemma add_default_frames_frames_ok n joints : ∀ ji frames,
  (1 <= n)%Z →
  map_Forall (λ _ kf, clip_frames_ok n kf) frames →
  map_Forall (λ _ kf, clip_frames_ok n kf) (add_default_frames ji joints frames).
Proof.
  induction joints as [|j js IH]; intros ji frames Hn Hall; simpl; [done|].
  apply IH; [done|]. destruct (frames !! ji); [done|].
  apply map_Forall_insert_2; [|done]. by apply default_tf_frames_ok.
Qed.

(** What one imported clip holds for the joints: every joint has frames,
    at least one, with ids inside the clip. *)
Lemma import_animation_frames_ok `{MathLib} joints cur_anim :
  (1 <= clip_frame_num cur_anim)%Z →
  let anim := import_animation joints cur_anim in
  map_Forall (λ _ kf, clip_frames_ok (frame_num anim) kf) (resampled_frames anim)
  ∧ ∀ ji, (ji < length joints)%nat → is_Some (resampled_frames anim !! ji).
Proof.
  intros Hn anim. subst anim. unfold import_animation. cbn [resampled_frames frame_num].
  split.
  - apply add_default_frames_frames_ok; [done|].
    generalize (mChannels cur_anim). intros channels.
    assert (Hempty : map_Forall (λ (_ : nat) kf, clip_frames_ok (clip_frame_num cur_anim) kf) ∅)
      by apply map_Forall_empty.
    revert Hempty. generalize (∅ : gmap nat KeyFrameSet).
    induction channels as [|ch chs IH]; intros frames Hall; simpl; [done|].
    apply IH. by apply import_channel_frames_ok.
  - intros ji Hji. destruct (lookup_lt_is_Some_2 joints ji Hji) as [j Hj].
    pose proof (add_default_frames_lookup joints 0
                  (foldl (import_channel joints cur_anim) ∅ (mChannels cur_anim)) ji j Hj) as Hl.
    simpl in Hl. rewrite Hl. by eexists.
Qed.

Lemma fmap_at_index_seq {A B} (g : A → B) (d : A) (l : list A) :
  (λ i, g (at_index d l i)) <$> seq 0 (length l) = g <$> l.
Proof.
  apply list_eq. intros i. rewrite !list_lookup_fmap.
  destruct (decide (i < length l)%nat) as [Hlt|Hge].
  - rewrite lookup_seq_lt by done. simpl.
    destruct (lookup_lt_is_Some_2 l i Hlt) as [x Hx]. rewrite Hx. simpl.
    unfold at_index. by rewrite nth_lookup, Hx.
  - rewrite lookup_seq_ge by lia. by rewrite lookup_ge_None_2 by lia.
Qed.

Lemma append_shifted_sizes_agree offset frame kf :
  kf_sizes_agree kf → kf_sizes_agree (append_shifted offset frame kf).
Proof.
  unfold append_shifted. generalize (seq 0 (length (frame_id frame))). intros ids.
  revert kf. induction ids as [|f ids IH]; intros kf Hagree; simpl; [done|].
  by apply IH, kf_push_sizes_agree.
Qed.

Lemma append_shifted_frame_id offset frame kf :
  frame_id (append_shifted offset frame kf)
  = frame_id kf ++ ((λ f, (f + offset)%Z) <$> frame_id frame).
Proof.
  rewrite <- (fmap_at_index_seq (λ f, (f + offset)%Z) 0%Z (frame_id frame)).
  unfold append_shifted. generalize (seq 0 (length (frame_id frame))). intros ids.
  revert kf. induction ids as [|f ids IH]; intros kf; simpl; [by rewrite app_nil_r|].
  rewrite IH. simpl. by rewrite <- app_assoc.
Qed.

Lemma compress_loop_nonempty `{MathLib} fuel : ∀ st,
  (0 <= fst st)%Z → frame_id (snd st) ≠ [] →
  frame_id (snd (compress_loop fuel st)) ≠ [].
Proof.
  induction fuel as [|fuel IH]; intros [base kf] Hbase Hne; simpl in *; [done|].
  destruct (compress_continues base kf) eqn:Hc; simpl; [|done].
  destruct (compress_continues_pos base kf Hbase Hc) as [Hlen _].
  destruct (middle_redundant kf (Z.to_nat base)).
  - apply IH; simpl; [done|]. intros Hnil. apply (f_equal length) in Hnil.
    rewrite length_delete in Hnil by (apply lookup_lt_is_Some; lia). simpl in Hnil. lia.
  - apply IH; simpl; [lia|done].
Qed.

(** What CompressKeyFrameSet keeps of a set on a timeline. *)
Lemma CompressKeyFrameSet_timeline `{MathLib} n kf :
  timeline_frames_ok n kf →
  timeline_frames_ok n (CompressKeyFrameSet kf)
  ∧ (frame_id kf ≠ [] → frame_id (CompressKeyFrameSet kf) ≠ []).
Proof.
  intros [Hagree Hrange]. unfold CompressKeyFrameSet.
  destruct (compress_loop_ends_kept (length (frame_id kf)) (0%Z, kf) ltac:(done) Hagree)
    as (_ & Hagree' & _).
  destruct (compress_loop_frame_ids (length (frame_id kf)) (0%Z, kf)) as [Hsub _].
  split; [split; [done|]|].
  - rewrite Forall_forall in Hrange. apply Forall_forall. intros f Hf.
    apply Hrange. eapply elem_of_sublist; [exact Hf|exact Hsub].
  - intros Hne. by apply compress_loop_nonempty.
Qed.

(** The loop over the joints of one clip touches every joint once. *)
Lemma foldl_alter_seq {A B} (m : gmap nat B) (g : B → A → A) n : ∀ (l : list A) k,
  foldl (λ l ji, match m !! ji with Some b => alter (g b) ji l | None => l end) l (seq 0 n) !! k
  = if decide (k < n)%nat
    then match m !! k with Some b => g b <$> l !! k | None => l !! k end
    else l !! k.
Proof.
  induction n as [|n IH]; intros l k; [by case_decide; [lia|]|].
  rewrite seq_S, foldl_snoc. simpl.
  destruct (m !! n) as [b|] eqn:Hb.
  - destruct (decide (k = n)) as [->|Hne].
    + rewrite list_lookup_alter_eq, IH.
      rewrite decide_False by lia. rewrite decide_True by lia. by rewrite Hb.
    + rewrite list_lookup_alter_ne by done. rewrite IH.
      case_decide; case_decide; try lia; done.
  - rewrite IH. destruct (decide (k = n)) as [->|Hne].
    + rewrite decide_False by lia. rewrite decide_True by lia. by rewrite Hb.
    + case_decide; case_decide; try lia; done.
Qed.

Lemma foldl_alter_seq_length {A B} (m : gmap nat B) (g : B → A → A) ids : ∀ (l : list A),
  length (foldl (λ l ji, match m !! ji with Some b => alter (g b) ji l | None => l end) l ids)
  = length l.
Proof.
  induction ids as [|ji ids IH]; intros l; simpl; [done|].
  rewrite IH. destruct (m !! ji); [by rewrite length_alter|done].
Qed.

(** One clip appended to the timeline. *)
Lemma concat_animation_frames `{MathLib} num_joints kfs actions offset anim :
  (0 <= offset)%Z → clip_ok num_joints anim →
  length kfs = num_joints →
  Forall (timeline_frames_ok offset) kfs →
  let st' := concat_animation num_joints (kfs, actions, offset) anim in
  snd st' = (offset + frame_num anim)%Z
  ∧ length (fst (fst st')) = num_joints
  ∧ Forall (timeline_frames_ok (snd st')) (fst (fst st'))
  ∧ Forall (λ kf, frame_id kf ≠ []) (fst (fst st')).
Proof.
  intros Hoff (Hn & Hclip & Hsome) Hlen Hall. cbv zeta. unfold concat_animation.
  cbn [fst snd].
  set (g := λ frame kf, CompressKeyFrameSet (append_shifted offset frame kf)).
  change (foldl _ kfs (seq 0 num_joints))
    with (foldl (λ l ji, match resampled_frames anim !! ji with
                         | Some b => alter (g b) ji l
                         | None => l
                         end) kfs (seq 0 num_joints)).
  split; [done|]. split; [by rewrite foldl_alter_seq_length|].
  assert (Hpoint : ∀ k kf', foldl (λ l ji, match resampled_frames anim !! ji with
                                          | Some b => alter (g b) ji l
                                          | None => l
                                          end) kfs (seq 0 num_joints) !! k = Some kf' →
            timeline_frames_ok (offset + frame_num anim) kf' ∧ frame_id kf' ≠ []).
  { intros k kf' Hk.
    pose proof (lookup_lt_Some _ _ _ Hk) as Hlt.
    rewrite foldl_alter_seq_length, Hlen in Hlt.
    rewrite foldl_alter_seq, decide_True in Hk by done.
    destruct (Hsome k Hlt) as [frame Hframe]. rewrite Hframe in Hk.
    destruct (kfs !! k) as [kf|] eqn:Hkf; [|done]. simpl in Hk. injection Hk as <-.
    destruct (map_Forall_lookup_1 _ _ _ _ Hclip Hframe) as (Hfa & Hfne & Hfr).
    destruct (Forall_lookup_1 _ _ _ _ Hall Hkf) as [Hka Hkr].
    subst g. simpl.
    assert (Hok : timeline_frames_ok (offset + frame_num anim)
                                     (append_shifted offset frame kf)).
    { split; [by apply append_shifted_sizes_agree|].
      rewrite append_shifted_frame_id. apply Forall_app. split.
      - eapply Forall_impl; [exact Hkr|]. intros f Hf. simpl in Hf. lia.
      - apply Forall_fmap. eapply Forall_impl; [exact Hfr|]. intros f Hf. simpl in *. lia. }
    destruct (CompressKeyFrameSet_timeline _ _ Hok) as [Hok' Hne'].
    split; [done|]. apply Hne'. rewrite append_shifted_frame_id.
    intros Hnil. apply app_eq_nil in Hnil as [_ Hnil].
    apply fmap_nil_inv in Hnil. done. }
  split; apply Forall_lookup; intros k kf' Hk; by destruct (Hpoint k kf' Hk).
Qed.

Lemma foldl_concat_animation_frames `{MathLib} num_joints anims : ∀ kfs actions offset,
  (0 <= offset)%Z → Forall (clip_ok num_joints) anims →
  length kfs = num_joints →
  Forall (timeline_frames_ok offset) kfs →
  let st' := foldl (concat_animation num_joints) (kfs, actions, offset) anims in
  length (fst (fst st')) = num_joints
  ∧ Forall (timeline_frames_ok (snd st')) (fst (fst st'))
  ∧ (Forall (λ kf, frame_id kf ≠ []) kfs ∨ anims ≠ [] →
     Forall (λ kf, frame_id kf ≠ []) (fst (fst st'))).
Proof.
  induction anims as [|anim rest IH]; intros kfs actions offset Hoff Hclips Hlen Hall.
  - simpl. split; [done|]. split; [done|]. by intros [?|?].
  - apply Forall_cons in Hclips as [Hclip Hrest].
    destruct (concat_animation_frames num_joints kfs actions offset anim Hoff Hclip Hlen Hall)
      as (Ho & Hl & Ha & Hne).
    cbv zeta in *. cbn [foldl].
    destruct (concat_animation num_joints (kfs, actions, offset) anim)
      as [[kfs1 actions1] offset1].
    cbn [fst snd] in Ho, Hl, Ha, Hne.
    destruct Hclip as (Hn & _).
    destruct (IH kfs1 actions1 offset1 ltac:(lia) Hrest Hl Ha) as (Hl' & Ha' & Hne').
    split; [done|]. split; [done|]. intros _. apply Hne'. by left.
Qed.

(** X6: for clips of non-negative duration and positive tick rate,
    BuildActions gives the model one key frame set per joint; in every one
    of them the four vectors are equally long (the assertion at the head of
    CompressKeyFrameSet holds throughout) and every frame id lies on the
    timeline, [0 <= id < NumFrames]; and as soon as the scene has a clip, no
    joint is left without a key frame. *)
Theorem BuildActions_key_frames `{MathLib} (joints : list Joint) (scene : aiScene) :
  Forall (λ c, 0 <= mDuration c ∧ 0 < mTicksPerSecond c) (mAnimations scene) →
  let r := BuildActions joints scene in
  length (KeyFrameSets r) = length joints
  ∧ Forall (timeline_frames_ok (NumFrames r)) (KeyFrameSets r)
  ∧ (mAnimations scene ≠ [] → Forall (λ kf, frame_id kf ≠ []) (KeyFrameSets r)).
Proof.
  intros Hclips r. subst r. unfold BuildActions.
  assert (Hok : Forall (clip_ok (length joints)) (import_animation joints <$> mAnimations scene)).
  { apply Forall_fmap. eapply Forall_impl; [exact Hclips|].
    intros c [Hd Ht]. simpl.
    pose proof (clip_frame_num_pos c Hd Ht) as Hn.
    destruct (import_animation_frames_ok joints c Hn) as [Hall Hsome].
    split; [exact Hn|]. split; [exact Hall|exact Hsome]. }
  destruct (foldl_concat_animation_frames (length joints)
              (import_animation joints <$> mAnimations scene)
              (replicate (length joints) empty_KeyFrameSet) [] 0%Z ltac:(done) Hok)
    as (Hl & Ha & Hne).
  { by rewrite length_replicate. }
  { apply Forall_replicate. split; [by repeat split|constructor]. }
  cbv zeta in *.
  destruct (foldl _ _ _) as [[kfs actions] offset]. cbn [fst snd] in *.
  cbn [KeyFrameSets NumFrames].
  split; [done|]. split; [done|].
  intros Hnil. apply Hne. right. intros Hmap. apply fmap_nil_inv in Hmap. done.
Qed.

Lemma BuildActions_key_frames_witness :
  let r := BuildActions (H := unrotated_MathLib) two_bone_joints two_bone_scene in
  Forall (λ c, 0 <= mDuration c ∧ 0 < mTicksPerSecond c) (mAnimations two_bone_scene)
  ∧ length (KeyFrameSets r) = 2%nat
  ∧ Forall (timeline_frames_ok (NumFrames r)) (KeyFrameSets r).
Proof.
  assert (Hclips : Forall (λ c, 0 <= mDuration c ∧ 0 < mTicksPerSecond c)
                          (mAnimations two_bone_scene)).
  { repeat constructor; simpl; lra. }
  split; [exact Hclips|].
  pose proof (@BuildActions_key_frames unrotated_MathLib two_bone_joints two_bone_scene Hclips)
    as H.
  cbv zeta in H. destruct H as (Hlen & Hall & _).
  split; [exact Hlen|exact Hall].
Defined.

(** ** RemoveUnusedJoints: the compaction *)

Lemma assign_ids_lt used i :
  used_at used i = true →
  (mapping_at (fst (assign_ids used)) i < snd (assign_ids used))%nat.
Proof.
  intros Hu. destruct (assign_ids_spec used) as (_ & Hcnt & Hmap).
  rewrite Hmap, Hu, Hcnt.
  pose proof (used_at_lt _ _ Hu) as Hlt.
  rewrite <- (take_drop i used) at 2. rewrite count_used_app.
  destruct (drop i used) as [|b rest] eqn:Hd.
  { apply (f_equal length) in Hd. rewrite length_drop in Hd. simpl in Hd. lia. }
  assert (b = true) as ->.
  { unfold used_at in Hu. rewrite <- (Nat.add_0_r i), <- lookup_drop, Hd in Hu. done. }
  simpl. lia.
Qed.

(** The state of the in-place compaction after the indices below [k]: the
    entries from [k] on are untouched, and every used entry below [k] has
    been copied to its new index. *)
Lemma compact_prefix {A} used (v : list A) k :
  let mapping := fst (assign_ids used) in
  let v' := foldl (λ v ji,
                     if used_at used ji
                     then match v !! ji with
                          | Some x => <[mapping_at mapping ji := x]> v
                          | None => v
                          end
                     else v)
                  v (seq 0 k) in
  length v' = length v
  ∧ (∀ i, (k ≤ i)%nat → v' !! i = v !! i)
  ∧ (∀ i, (i < k)%nat → used_at used i = true → (i < length v)%nat →
          v' !! mapping_at mapping i = v !! i).
Proof.
  cbv zeta. induction k as [|k IH].
  - simpl. split; [done|]. split; [done|]. intros i Hi. lia.
  - rewrite seq_S, foldl_snoc. simpl.
    destruct IH as (Hlen & Hrest & Hdone).
    set (v' := foldl _ v (seq 0 k)) in *.
    destruct (used_at used k) eqn:Hk; [|].
    + rewrite (Hrest k) by lia.
      destruct (v !! k) as [x|] eqn:Hx.
      * pose proof (lookup_lt_Some _ _ _ Hx) as Hkv.
        pose proof (assign_ids_le used k) as Hle.
        split; [by rewrite length_insert|]. split.
        -- intros i Hi. rewrite list_lookup_insert_ne by lia. apply Hrest. lia.
        -- intros i Hi Hu Hiv. destruct (decide (i = k)) as [->|Hne].
           ++ rewrite list_lookup_insert_eq by lia. done.
           ++ destruct (assign_ids_increasing used i k Hu Hk ltac:(lia)) as [Hinc _].
              rewrite list_lookup_insert_ne by lia. apply Hdone; [lia|done|done].
      * apply lookup_ge_None in Hx.
        split; [done|]. split; [intros i Hi; apply Hrest; lia|].
        intros i Hi Hu Hiv. apply Hdone; [lia|done|done].
    + split; [done|]. split; [intros i Hi; apply Hrest; lia|].
      intros i Hi Hu Hiv. apply Hdone; [|done|done].
      assert (i ≠ k) by congruence. lia.
Qed.

(** The compaction moves every used entry to its new index and keeps as
    many entries as are used. *)
Lemma compact_lookup {A} used (v : list A) :
  let mapping := fst (assign_ids used) in
  let v' := compact used mapping (snd (assign_ids used)) v in
  ((length used ≤ length v)%nat → length v' = count_used used)
  ∧ ∀ i, used_at used i = true → (i < length v)%nat →
         v' !! mapping_at mapping i = v !! i.
Proof.
  cbv zeta. unfold compact.
  destruct (compact_prefix used v (length used)) as (Hlen & _ & Hdone). cbv zeta in *.
  split.
  - intros Hle. rewrite length_take, Hlen.
    destruct (assign_ids_spec used) as (_ & -> & _).
    pose proof (count_used_le used). lia.
  - intros i Hu Hiv. rewrite lookup_take_lt by (by apply assign_ids_lt).
    apply Hdone; [by apply used_at_lt|done|done].
Qed.

Lemma fmap_bind_comm {A B C} (g : B → C) (f : A → list B) (l : list A) :
  g <$> (l ≫= f) = l ≫= (λ x, g <$> f x).
Proof.
  induction l as [|x l IH]; [done|].
  rewrite !bind_cons, fmap_app. by rewrite IH.
Qed.

Lemma bound_ids_remap_meshes mapping meshes :
  bound_ids (remap_meshes mapping meshes) = mapping_at mapping <$> bound_ids meshes.
Proof.
  unfold bound_ids, remap_meshes.
  rewrite list_fmap_bind, fmap_bind_comm.
  apply list_bind_ext; [|done]. intros mesh. cbn [compose lods].
  rewrite list_fmap_bind, fmap_bind_comm.
  apply list_bind_ext; [|done]. intros lod. cbn [compose joint_bindings].
  change (map (map (remap_binding mapping)) (joint_bindings lod))
    with (map (remap_binding mapping) <$> joint_bindings lod).
  rewrite list_fmap_bind, fmap_bind_comm.
  apply list_bind_ext; [|done]. intros bindings. cbn [compose].
  change (map (remap_binding mapping) bindings) with (remap_binding mapping <$> bindings).
  induction bindings as [|b bindings IH]; [done|].
  rewrite !fmap_cons. f_equal. exact IH.
Qed.

(** X7: for parent fields that are -1 or joint indices and one key frame
    set per joint, RemoveUnusedJoints keeps as many joints (and key frame
    sets) as are marked used; every binding of every vertex is rewritten
    through the joint mapping; and the joint and the key frame set found at
    the rewritten id are exactly the joint and the key frame set the
    binding referred to before: the in-place compaction overwrites no
    entry that is still to be moved. *)
Theorem RemoveUnusedJoints_bindings_follow {Mtl} (st : PruneState Mtl) :
  Forall (parent_in_range (length (joints_ st))) (joints_ st) →
  length (kfs_ st) = length (joints_ st) →
  let used := joints_used_of (joints_ st) (meshes_ st) in
  let mapping := fst (joint_mapping_of (joints_ st) (meshes_ st)) in
  let st' := RemoveUnusedJoints st in
  length (joints_ st') = count_used used
  ∧ length (kfs_ st') = count_used used
  ∧ bound_ids (meshes_ st') = mapping_at mapping <$> bound_ids (meshes_ st)
  ∧ ∀ id, id ∈ bound_ids (meshes_ st) → (id < length (joints_ st))%nat →
          joints_ st' !! mapping_at mapping id = joints_ st !! id
          ∧ kfs_ st' !! mapping_at mapping id = kfs_ st !! id.
Proof.
  intros Hall Hkfs. cbv zeta. unfold RemoveUnusedJoints, joint_mapping_of.
  set (used := joints_used_of (joints_ st) (meshes_ st)).
  assert (Hused : length used = length (joints_ st)
                  ∧ ∀ i, i ∈ bound_ids (meshes_ st) → (i < length (joints_ st))%nat →
                         used_at used i = true).
  { subst used. unfold joints_used_of. rewrite mark_bound_joints_flat.
    destruct (foldl_mark_id (bound_ids (meshes_ st)) (replicate (length (joints_ st)) false))
      as [Hl Hk].
    rewrite length_replicate in *.
    destruct (mark_ancestors_closed (joints_ st) _ Hl Hall) as (Hl' & Hm & _).
    split; [congruence|]. intros i Hin Hi. apply Hm, Hk. right. by split. }
  destruct Hused as [Hlen Hbound].
  destruct (compact_lookup used (joints_ st)) as [Hjl Hjs].
  destruct (compact_lookup used (kfs_ st)) as [Hkl Hks]. cbv zeta in *.
  destruct (assign_ids used) as [mapping new_id]. cbn [fst snd] in *.
  cbn [joints_ kfs_ meshes_].
  split; [apply Hjl; lia|]. split; [apply Hkl; lia|].
  split; [apply bound_ids_remap_meshes|].
  intros id Hin Hid. split; [apply Hjs|apply Hks]; auto; lia.
Qed.

Lemma arm_model_parents :
  Forall (parent_in_range (length (joints_ arm_model))) (joints_ arm_model).
Proof.
  apply Forall_lookup. intros i j Hi.
  pose proof (lookup_lt_Some _ _ _ Hi) as Hlt.
  change (length (joints_ arm_model)) with 5%nat in *.
  unfold parent_in_range.
  do 5 (destruct i as [|i]; [vm_compute in Hi; injection Hi as <-; simpl; lia|]).
  lia.
Qed.

Lemma RemoveUnusedJoints_bindings_follow_witness :
  let mapping := fst (joint_mapping_of (joints_ arm_model) (meshes_ arm_model)) in
  joints_ (RemoveUnusedJoints arm_model) !! mapping_at mapping 4
  = joints_ arm_model !! 4%nat.
Proof.
  pose proof (RemoveUnusedJoints_bindings_follow arm_model arm_model_parents eq_refl) as H.
  cbv zeta in H. destruct H as (_ & _ & _ & H).
  apply (H 4%nat).
  - apply (bool_decide_unpack _). by vm_compute.
  - vm_compute. lia.
Defined.

(** ** Convert and LoadFromAssimp: the sources that load *)

(** When every LOD loads, the loop returns one scene per LOD, in the order
    of the LODs, each the scene the importer gave for that LOD's file, and
    it logs nothing. *)
Lemma load_lods_scenes {Model} (env : Collaborators Model) input_name_str metadata lods :
  ∀ scenes log,
    Forall (λ lod, ¬ lod_fails env input_name_str metadata lod) lods →
    ∃ loaded, load_lods env input_name_str metadata lods scenes log
              = (Some (scenes ++ loaded), log)
              ∧ Forall2 (λ lod scene,
                           aiImportFile env (snd (lod_names env input_name_str metadata lod))
                           = Some scene) lods loaded.
Proof.
  induction lods as [|lod rest IH]; intros scenes log Hall; simpl.
  - exists []. rewrite app_nil_r. split; [done|constructor].
  - apply Forall_cons in Hall as [Hok Hrest]. unfold lod_fails in Hok.
    destruct (lod_names env input_name_str metadata lod) as [lod_file_name file_name] eqn:Hn.
    simpl in Hok.
    destruct (string_empty file_name) eqn:E; [tauto|].
    destruct (aiImportFile env file_name) as [scene|] eqn:Himp; [|tauto].
    destruct (IH (scenes ++ [scene]) log Hrest) as (loaded & Hrun & Hscenes).
    exists (scene :: loaded). rewrite Hrun. split; [by rewrite <- app_assoc|].
    constructor; [by rewrite Hn|exact Hscenes].
Qed.

(** X8: the loop of LoadFromAssimp over the LODs, when no LOD fails (the
    file of every LOD is located and the importer returns a scene for it).
    The loop runs to its end without a [return]: it leaves exactly NumLods
    scenes, scene [lod] being the one the importer returned for the file
    of LOD [lod] (the input itself for LOD 0), and it logs nothing. *)
Theorem load_lods_loads_every_lod {Model} (env : Collaborators Model)
    (input_name_str : string) (metadata : MeshMetadata) (log : list LogMessage) :
  (∀ lod, (lod < NumLods metadata)%nat →
          ¬ lod_fails env input_name_str metadata lod) →
  ∃ scenes,
    load_lods env input_name_str metadata (seq 0 (NumLods metadata)) [] log
    = (Some scenes, log)
    ∧ length scenes = NumLods metadata
    ∧ ∀ lod scene, scenes !! lod = Some scene →
        aiImportFile env (snd (lod_names env input_name_str metadata lod)) = Some scene.
Proof.
  intros Hok.
  destruct (load_lods_scenes env input_name_str metadata
              (seq 0 (NumLods metadata)) [] log) as (scenes & Hrun & Hscenes).
  { apply Forall_forall. intros lod Hin. apply Hok. apply elem_of_seq in Hin. lia. }
  exists scenes. split; [exact Hrun|]. split.
  - apply Forall2_length in Hscenes. by rewrite length_seq in Hscenes.
  - intros lod scene Hlod.
    destruct (Forall2_lookup_r _ _ _ _ _ Hscenes Hlod) as (lod' & Hseq & Himp).
    apply lookup_seq in Hseq as [-> _]. exact Himp.
Qed.

Lemma load_lods_loads_every_lod_witness :
  ∃ scenes,
    load_lods hero_env "hero.fbx" single_lod_metadata (seq 0 1) [] []
    = (Some scenes, [])
    ∧ length scenes = 1%nat
    ∧ ∀ lod scene, scenes !! lod = Some scene →
        aiImportFile hero_env (snd (lod_names hero_env "hero.fbx" single_lod_metadata lod))
        = Some scene.
Proof.
  apply (load_lods_loads_every_lod hero_env "hero.fbx" single_lod_metadata []).
  intros lod Hlod. simpl in Hlod. assert (lod = 0%nat) as -> by lia.
  intros [Hempty|Hnone]; discriminate.
Defined.

(** ** Position quantisation: range and order *)

Lemma float_to_int32_mono x y : x <= y → (float_to_int32 x <= float_to_int32 y)%Z.
Proof.
  intros Hxy. unfold float_to_int32.
  destruct (Qle_bool 0 x) eqn:Ex; destruct (Qle_bool 0 y) eqn:Ey.
  - by apply Qfloor_resp_le.
  - apply Qle_bool_iff in Ex. assert (0 <= y) as Hy by lra.
    apply Qle_bool_iff in Hy. congruence.
  - assert (x <= 0) as Hx.
    { destruct (Qlt_le_dec 0 x) as [Hpos|?]; [|done].
      assert (0 <= x) as Hx by lra. apply Qle_bool_iff in Hx. congruence. }
    apply Qle_bool_iff in Ey.
    transitivity 0%Z.
    + change 0%Z with (Qceiling 0). by apply Qceiling_resp_le.
    + change 0%Z with (Qfloor 0). by apply Qfloor_resp_le.
  - by apply Qceiling_resp_le.
Qed.

Lemma clamp_int_range z : (-32768 <= clamp_int z (-32768) 32767 <= 32767)%Z.
Proof.
  unfold clamp_int.
  destruct (Z.ltb_spec z (-32768)); [lia|]. destruct (Z.ltb_spec 32767 z); lia.
Qed.

Lemma to_int16_small z : (-32768 <= z <= 32767)%Z → to_int16 z = z.
Proof. intros Hz. unfold to_int16. rewrite Z.mod_small; lia. Qed.

Lemma clamp_int_mono x y lo hi :
  (lo <= hi)%Z → (x <= y)%Z → (clamp_int x lo hi <= clamp_int y lo hi)%Z.
Proof.
  intros Hlh Hxy. unfold clamp_int.
  destruct (Z.ltb_spec x lo); destruct (Z.ltb_spec y lo);
    destruct (Z.ltb_spec hi x); destruct (Z.ltb_spec hi y); lia.
Qed.

Lemma quantize_axis_monotone_aux (center extent : float) :
  (∀ p, (-32768 <= quantize_axis p center extent <= 32767)%Z)
  ∧ (0 < extent → ∀ p p', p <= p' →
       (quantize_axis p center extent <= quantize_axis p' center extent)%Z).
Proof.
  split.
  - intros p. unfold quantize_axis.
    rewrite to_int16_small by apply clamp_int_range. apply clamp_int_range.
  - intros He p p' Hpp. unfold quantize_axis.
    rewrite !to_int16_small by apply clamp_int_range.
    apply clamp_int_mono; [lia|]. apply float_to_int32_mono.
    assert ((p - center) / extent <= (p' - center) / extent) as Hdiv.
    { unfold Qdiv. apply Qmult_le_compat_r; [lra|].
      apply Qinv_le_0_compat. lra. }
    lra.
Qed.

(** X9: the quantiser of one position axis, for a box of positive extent
    and coordinates within 16384 extents of its centre (coordinates of a
    later LOD outside the box of LOD 0 included).  The value handed to
    [static_cast<int32_t>] stays inside the [int32_t] range, so that the
    cast is defined; the stored value is inside the [int16_t] range; and
    the quantiser preserves the order of the coordinates. *)
Theorem quantize_axis_monotone (p p' center extent : float) :
  0 < extent → near_box p center extent → near_box p' center extent → p <= p' →
  Qabs (((p - center) / extent * (1 # 2) + (1 # 2)) * 65535 - 32768) <= 1073741824
  ∧ Qabs (((p' - center) / extent * (1 # 2) + (1 # 2)) * 65535 - 32768) <= 1073741824
  ∧ (-32768 <= quantize_axis p center extent)%Z
  ∧ (quantize_axis p center extent <= quantize_axis p' center extent)%Z
  ∧ (quantize_axis p' center extent <= 32767)%Z.
Proof.
  intros He Hp Hp' Hpp.
  assert (Harg : ∀ x, near_box x center extent →
            Qabs (((x - center) / extent * (1 # 2) + (1 # 2)) * 65535 - 32768)
            <= 1073741824).
  { intros x Hx. unfold near_box in Hx. apply Qabs_Qle_condition in Hx as [Hlo Hhi].
    assert (-16384 <= (x - center) / extent) as H1.
    { apply Qle_shift_div_l; [done|]. lra. }
    assert ((x - center) / extent <= 16384) as H2.
    { apply Qle_shift_div_r; [done|]. lra. }
    apply Qabs_Qle_condition. split; lra. }
  split; [by apply Harg|]. split; [by apply Harg|].
  destruct (quantize_axis_monotone_aux center extent) as [Hrange Hmono].
  pose proof (Hrange p). pose proof (Hrange p'). specialize (Hmono He p p' Hpp). lia.
Qed.

Lemma quantize_axis_monotone_witness :
  (quantize_axis (1 # 3) 0 1 <= quantize_axis (1 # 2) 0 1)%Z.
Proof.
  apply (quantize_axis_monotone (1 # 3) (1 # 2) 0 1); by vm_compute.
Defined.

(** ** Convert: the merged index buffer *)

Lemma foldl_index_bytes is16 l : ∀ bytes,
  foldl (λ bytes index, bytes ++ index_bytes is16 index) bytes l
  = bytes ++ (l ≫= index_bytes is16).
Proof.
  induction l as [|x l IH]; intros bytes; simpl; [by rewrite app_nil_r|].
  rewrite IH. by rewrite <- app_assoc.
Qed.

Lemma merge_indices_visited nodes meshes :
  merge_indices nodes meshes
  = foldl (push_lod_indices (is_index_16_bit meshes))
          {| merged_indices := []; mesh_num_indices := []; mesh_start_indices := [0%Z] |}
          (visited_lods nodes meshes).
Proof.
  unfold merge_indices, visited_lods.
  generalize {| merged_indices := []; mesh_num_indices := []; mesh_start_indices := [0%Z] |}.
  induction nodes as [|node nodes IHn]; intros st; [done|].
  rewrite bind_cons, foldl_app. cbn [foldl]. rewrite IHn. f_equal. clear IHn.
  revert st. induction (mesh_indices node) as [|mi mis IHm]; intros st; [done|].
  rewrite bind_cons, foldl_app. cbn [foldl]. by rewrite IHm.
Qed.

Lemma back_snoc v x : back (v ++ [x]) = x.
Proof. unfold back. by rewrite last_snoc. Qed.

Lemma to_uint32_small z : (0 <= z < 4294967296)%Z → to_uint32 z = z.
Proof. intros Hz. unfold to_uint32. by rewrite Z.mod_small. Qed.

(** The three vectors after the LODs [lods] have been pushed, while the
    running total stays below 2^32. *)
Lemma foldl_push_lod_indices is16 lods : ∀ st,
  (0 <= back (mesh_start_indices st))%Z →
  (back (mesh_start_indices st) + Z.of_nat (length (concat lods)) < 4294967296)%Z →
  let st' := foldl (push_lod_indices is16) st lods in
  merged_indices st' = merged_indices st ++ (concat lods ≫= index_bytes is16)
  ∧ mesh_num_indices st' = mesh_num_indices st ++ ((λ l, Z.of_nat (length l)) <$> lods)
  ∧ ∃ ext, mesh_start_indices st' = mesh_start_indices st ++ ext
           ∧ length ext = length lods
           ∧ ∀ k, (k < length lods)%nat →
                  ext !! k = Some (back (mesh_start_indices st)
                                   + Z.of_nat (length (concat (take (S k) lods))))%Z.
Proof.
  induction lods as [|l lods IH]; intros st Hback Hbound; cbv zeta.
  - simpl. rewrite !app_nil_r. split; [done|]. split; [done|].
    exists []. rewrite app_nil_r. split; [done|]. split; [done|]. intros k Hk. simpl in Hk. lia.
  - cbn [foldl]. rewrite concat_cons, length_app in Hbound.
    assert (Hnum : to_uint32 (Z.of_nat (length l)) = Z.of_nat (length l))
      by (apply to_uint32_small; lia).
    assert (Hstart : to_uint32 (back (mesh_start_indices st) + Z.of_nat (length l))
                     = (back (mesh_start_indices st) + Z.of_nat (length l))%Z)
      by (apply to_uint32_small; lia).
    destruct (IH (push_lod_indices is16 st l)) as (Hbytes & Hnums & ext & Hext & Hlen & Hk).
    { unfold push_lod_indices. cbn [mesh_start_indices]. rewrite back_snoc, Hnum, Hstart. lia. }
    { unfold push_lod_indices. cbn [mesh_start_indices]. rewrite back_snoc, Hnum, Hstart. lia. }
    cbv zeta in *. rewrite Hbytes, Hnums.
    unfold push_lod_indices at 1 2. cbn [merged_indices mesh_num_indices].
    rewrite foldl_index_bytes, Hnum, concat_cons, bind_app, <- !app_assoc.
    split; [done|]. split; [done|].
    exists ((back (mesh_start_indices st) + Z.of_nat (length l))%Z :: ext).
    rewrite Hext. unfold push_lod_indices at 1. cbn [mesh_start_indices].
    rewrite Hnum, Hstart, <- app_assoc. split; [done|]. split; [simpl; by rewrite Hlen|].
    intros k Hlt. destruct k as [|k]; simpl.
    + rewrite ?take_0. simpl. rewrite ?app_nil_r. done.
    + simpl in Hlt. rewrite Hk by lia.
      unfold push_lod_indices. cbn [mesh_start_indices]. rewrite back_snoc, Hnum, Hstart.
      f_equal. rewrite length_app. lia.
Qed.

(** The offsets and counts of the merged index buffer. *)
Lemma merge_indices_offsets nodes meshes :
  (Z.of_nat (length (concat (visited_lods nodes meshes))) < 4294967296)%Z →
  let lods := visited_lods nodes meshes in
  let buf := merge_indices nodes meshes in
  merged_indices buf = concat lods ≫= index_bytes (is_index_16_bit meshes)
  ∧ mesh_num_indices buf = (λ l, Z.of_nat (length l)) <$> lods
  ∧ length (mesh_start_indices buf) = S (length lods)
  ∧ ∀ k, (k ≤ length lods)%nat →
         mesh_start_indices buf !! k = Some (Z.of_nat (indices_before lods k)).
Proof.
  intros Hbound. cbv zeta. rewrite merge_indices_visited.
  destruct (foldl_push_lod_indices (is_index_16_bit meshes) (visited_lods nodes meshes)
              {| merged_indices := []; mesh_num_indices := []; mesh_start_indices := [0%Z] |})
    as (Hbytes & Hnums & ext & Hext & Hlen & Hk).
  { done. }
  { cbn [mesh_start_indices]. unfold back. simpl. lia. }
  cbv zeta in *. cbn [merged_indices mesh_num_indices mesh_start_indices] in *.
  rewrite Hbytes, Hnums, Hext. simpl.
  split; [done|]. split; [done|]. split; [by rewrite Hlen|].
  intros k Hle. destruct k as [|k]; simpl; [done|].
  rewrite Hk by lia. unfold back, indices_before. simpl. done.
Qed.

Lemma foldl_max_ge l : ∀ m, (m <= foldl Z.max m l)%Z ∧ Forall (λ x, x <= foldl Z.max m l)%Z l.
Proof.
  induction l as [|x l IH]; intros m; simpl; [split; [lia|constructor]|].
  destruct (IH (Z.max m x)) as [Hm Hall]. split; [lia|].
  constructor; [lia|done].
Qed.

(** No index of any LOD of any mesh exceeds [max_index]. *)
Lemma max_index_ge meshes mesh mesh_lod index :
  mesh ∈ meshes → mesh_lod ∈ mesh → index ∈ mesh_lod → (index <= max_index meshes)%Z.
Proof.
  unfold max_index. generalize 0%Z.
  induction meshes as [|mesh0 meshes IHm]; intros m Hmesh Hlod Hidx.
  - by apply elem_of_nil in Hmesh.
  - cbn [foldl].
    assert (Hmono : ∀ ms a,
              (a <= foldl (λ m mesh, foldl (λ m mesh_lod, foldl Z.max m mesh_lod) m mesh)
                          a ms)%Z).
    { induction ms as [|ms0 ms IH]; intros a; simpl; [lia|].
      etrans; [|apply IH].
      generalize a. induction ms0 as [|l0 ms0 IH0]; intros b; simpl; [lia|].
      etrans; [|apply IH0]. apply foldl_max_ge. }
    apply elem_of_cons in Hmesh as [->|Hmesh]; [|by apply IHm].
    etrans; [|apply Hmono].
    clear IHm Hmono. revert m.
    induction mesh0 as [|l0 mesh0 IHl]; intros m; [by apply elem_of_nil in Hlod|].
    cbn [foldl].
    assert (Hmono : ∀ ls a, (a <= foldl (λ m mesh_lod, foldl Z.max m mesh_lod) a ls)%Z).
    { induction ls as [|ls0 ls IH]; intros a; simpl; [lia|].
      etrans; [|apply IH]. apply foldl_max_ge. }
    apply elem_of_cons in Hlod as [->|Hlod]; [|by apply IHl].
    etrans; [|apply Hmono].
    destruct (foldl_max_ge l0 m) as [_ Hall].
    rewrite Forall_forall in Hall. by apply Hall.
Qed.

Lemma visited_lods_elem_of nodes meshes mesh_lod :
  mesh_lod ∈ visited_lods nodes meshes → ∃ mesh, mesh ∈ meshes ∧ mesh_lod ∈ mesh.
Proof.
  unfold visited_lods. intros Hin.
  apply list_elem_of_bind in Hin as (node & Hin & _).
  apply list_elem_of_bind in Hin as (mi & Hin & _).
  destruct (meshes !! mi) as [mesh|] eqn:E; simpl in Hin.
  - exists mesh. split; [by eapply list_elem_of_lookup_2|done].
  - by apply elem_of_nil in Hin.
Qed.

(** Byte [r] of element [i] of a buffer of equally wide elements. *)
Lemma bind_fixed_width_lookup {A} (f : A → list Z) w (l : list A) : ∀ i r x,
  (∀ y, length (f y) = w) → (r < w)%nat → l !! i = Some x →
  (l ≫= f) !! (w * i + r)%nat = f x !! r.
Proof.
  induction l as [|y l IH]; intros i r x Hw Hr Hx; [done|].
  rewrite bind_cons. destruct i as [|i]; simpl in Hx.
  - injection Hx as ->. rewrite Nat.mul_0_r. simpl.
    rewrite lookup_app_l by (rewrite Hw; lia). done.
  - rewrite lookup_app_r by (rewrite Hw; lia). rewrite Hw.
    replace (w * S i + r - w)%nat with (w * i + r)%nat by lia.
    by apply IH.
Qed.

(** What SaveByAssimp reads at the place of one stored index. *)
Lemma read_index_stored is16 (l : list Z) e index :
  l !! e = Some index →
  (0 <= index < 4294967296)%Z → (is16 = true → index < 65535)%Z →
  read_index is16 (l ≫= index_bytes is16) e = index_read_back is16 index.
Proof.
  intros He Hrange H16. unfold read_index, index_read_back.
  destruct is16; simpl.
  - specialize (H16 eq_refl).
    assert (Hb : ∀ r, (r < 2)%nat →
              byte_at (l ≫= index_bytes true) (2 * e + r)
              = default 0%Z (uint16_bytes (to_uint16 index) !! r)).
    { intros r Hr. unfold byte_at.
      by rewrite (bind_fixed_width_lookup (index_bytes true) 2 l e r index). }
    unfold read_int16.
    rewrite <- (Nat.add_0_r (2 * e)) at 1. rewrite !Hb by lia. simpl.
    unfold to_uint32, to_int16, to_uint16.
    destruct (Z.leb_spec 32768 index); Z.div_mod_to_equations; lia.
  - assert (Hb : ∀ r, (r < 4)%nat →
              byte_at (l ≫= index_bytes false) (4 * e + r)
              = default 0%Z (uint32_bytes index !! r)).
    { intros r Hr. unfold byte_at.
      by rewrite (bind_fixed_width_lookup (index_bytes false) 4 l e r index). }
    unfold read_int32.
    rewrite <- (Nat.add_0_r (4 * e)) at 1. rewrite !Hb by lia. simpl.
    unfold to_uint32, to_int32.
    Z.div_mod_to_equations. lia.
Qed.

Lemma concat_lookup_offset {A} (lods : list (list A)) k lod j :
  lods !! k = Some lod → (j < length lod)%nat →
  concat lods !! (length (concat (take k lods)) + j)%nat = lod !! j.
Proof.
  intros Hk Hj. pose proof (take_drop_middle lods k lod Hk) as Hsplit.
  remember (take k lods) as pre eqn:Hpre. remember (drop (S k) lods) as post eqn:Hpost.
  rewrite <- Hsplit. rewrite concat_app, concat_cons.
  rewrite lookup_app_r by lia.
  replace (length (concat pre) + j - length (concat pre))%nat with j by lia.
  by rewrite lookup_app_l.
Qed.

Lemma merge_indices_read_back_aux nodes meshes k mesh_lod :
  Forall (Forall (Forall (λ index, 0 <= index < 4294967296)%Z)) meshes →
  (Z.of_nat (length (concat (visited_lods nodes meshes))) < 4294967296)%Z →
  visited_lods nodes meshes !! k = Some mesh_lod →
  let buf := merge_indices nodes meshes in
  let is16 := is_index_16_bit meshes in
  mesh_num_indices buf !! k = Some (Z.of_nat (length mesh_lod))
  ∧ mesh_start_indices buf !! k
    = Some (Z.of_nat (indices_before (visited_lods nodes meshes) k))
  ∧ ∀ j index, mesh_lod !! j = Some index →
      read_index is16 (merged_indices buf) (indices_before (visited_lods nodes meshes) k + j)
      = index_read_back is16 index.
Proof.
  intros Hrange Hbound Hk. cbv zeta.
  destruct (merge_indices_offsets nodes meshes Hbound) as (Hbytes & Hnums & _ & Hstarts).
  cbv zeta in *.
  pose proof (lookup_lt_Some _ _ _ Hk) as Hlt.
  split; [by rewrite Hnums, list_lookup_fmap, Hk|].
  split; [apply Hstarts; lia|].
  intros j index Hj. rewrite Hbytes.
  pose proof (lookup_lt_Some _ _ _ Hj) as Hjlt.
  assert (Hin : ∃ mesh, mesh ∈ meshes ∧ mesh_lod ∈ mesh).
  { apply (visited_lods_elem_of nodes). by eapply list_elem_of_lookup_2. }
  destruct Hin as (mesh & Hmesh & Hlod).
  assert (Hidx : index ∈ mesh_lod) by (by eapply list_elem_of_lookup_2).
  apply read_index_stored.
  - unfold indices_before. rewrite (concat_lookup_offset _ k mesh_lod j Hk Hjlt). done.
  - rewrite Forall_forall in Hrange. specialize (Hrange mesh Hmesh).
    rewrite Forall_forall in Hrange. specialize (Hrange mesh_lod Hlod).
    rewrite Forall_forall in Hrange. by apply Hrange.
  - intros H16. unfold is_index_16_bit in H16. apply Z.ltb_lt in H16.
    pose proof (max_index_ge meshes mesh mesh_lod index Hmesh Hlod Hidx). lia.
Qed.

(** X12: the merged index buffer and its reader.  For indices that are
    [uint32_t] values and fewer than 2^32 of them in all, the [k]-th LOD
    that Convert visits gets its number of indices as NumIndices and the
    number of indices of the LODs visited before it as StartIndexLocation;
    the 16-bit format is chosen exactly when the largest index of the model
    is below 65535; and SaveByAssimp, reading element
    [StartIndexLocation + j], finds index [j] of that LOD again, except
    that in the 16-bit format an index from 32768 on comes back enlarged by
    2^32 - 65536, because the element is read as a signed [int16_t]. *)
Theorem merge_indices_read_back (nodes : list NodeTransform) (meshes : IndexVectors)
    (k : nat) (mesh_lod : list Z) :
  Forall (Forall (Forall (λ index, 0 <= index < 4294967296)%Z)) meshes →
  (Z.of_nat (length (concat (visited_lods nodes meshes))) < 4294967296)%Z →
  visited_lods nodes meshes !! k = Some mesh_lod →
  let buf := merge_indices nodes meshes in
  let is16 := is_index_16_bit meshes in
  mesh_num_indices buf !! k = Some (Z.of_nat (length mesh_lod))
  ∧ mesh_start_indices buf !! k
    = Some (Z.of_nat (indices_before (visited_lods nodes meshes) k))
  ∧ (is16 = true ↔ (max_index meshes < 65535)%Z)
  ∧ ∀ j index, mesh_lod !! j = Some index →
      read_index is16 (merged_indices buf) (indices_before (visited_lods nodes meshes) k + j)
      = (if is16 && (32768 <=? index)%Z then index + 4294901760 else index)%Z.
Proof.
  intros Hrange Hbound Hk.
  destruct (merge_indices_read_back_aux nodes meshes k mesh_lod Hrange Hbound Hk)
    as (Hnum & Hstart & Hread).
  cbv zeta in *. split; [done|]. split; [done|].
  split; [unfold is_index_16_bit; apply Z.ltb_lt|]. exact Hread.
Qed.

Lemma face_indices_lookup faces j face :
  faces !! j = Some face →
  face_indices faces !! (j * 3 + 0)%nat = Some (fst (fst face))
  ∧ face_indices faces !! (j * 3 + 1)%nat = Some (snd (fst face))
  ∧ face_indices faces !! (j * 3 + 2)%nat = Some (snd face).
Proof.
  intros Hj. unfold face_indices.
  replace (j * 3 + 0)%nat with (3 * j + 0)%nat by lia.
  replace (j * 3 + 1)%nat with (3 * j + 1)%nat by lia.
  replace (j * 3 + 2)%nat with (3 * j + 2)%nat by lia.
  rewrite !(bind_fixed_width_lookup _ 3 faces j _ face) by (done || lia).
  done.
Qed.

Lemma face_indices_length faces : length (face_indices faces) = (3 * length faces)%nat.
Proof.
  unfold face_indices. induction faces as [|f faces IH]; [done|].
  rewrite bind_cons, length_app, IH. simpl. lia.
Qed.

(** X13: the triangles survive the trip from BuildMeshData through
    Convert to SaveByAssimp.  If the [k]-th LOD that Convert visits holds
    the indices BuildMeshData pushed for the faces [faces], then the faces
    SaveByAssimp rebuilds from the merged index buffer, NumIndices and
    StartIndexLocation of that LOD are [faces] again, provided that, when
    the 16-bit format was chosen, every index of the LOD is below 32768. *)
Theorem SaveByAssimp_faces_roundtrip (nodes : list NodeTransform) (meshes : IndexVectors)
    (k : nat) (faces : list (Z * Z * Z)) :
  Forall (Forall (Forall (λ index, 0 <= index < 4294967296)%Z)) meshes →
  (Z.of_nat (length (concat (visited_lods nodes meshes))) < 4294967296)%Z →
  visited_lods nodes meshes !! k = Some (face_indices faces) →
  (is_index_16_bit meshes = true → Forall (λ index, index < 32768)%Z (face_indices faces)) →
  let buf := merge_indices nodes meshes in
  ∃ start num,
    mesh_start_indices buf !! k = Some start
    ∧ mesh_num_indices buf !! k = Some num
    ∧ read_faces (is_index_16_bit meshes) (merged_indices buf) start num = faces.
Proof.
  intros Hrange Hbound Hk Hsmall.
  destruct (merge_indices_read_back_aux nodes meshes k _ Hrange Hbound Hk)
    as (Hnum & Hstart & Hread).
  cbv zeta in *. eexists _, _. split; [exact Hstart|]. split; [exact Hnum|].
  unfold read_faces. rewrite Nat2Z.id, face_indices_length.
  replace (Z.to_nat (Z.of_nat (3 * length faces) / 3)) with (length faces).
  2:{ rewrite Nat2Z.inj_mul. change (Z.of_nat 3) with 3%Z.
      rewrite Z.mul_comm, Z.div_mul by lia. by rewrite Nat2Z.id. }
  assert (Hexact : ∀ e index, face_indices faces !! e = Some index →
            read_index (is_index_16_bit meshes) (merged_indices (merge_indices nodes meshes))
                       (indices_before (visited_lods nodes meshes) k + e) = index).
  { intros e index He. rewrite (Hread e index He). unfold index_read_back.
    destruct (is_index_16_bit meshes) eqn:E16; [|done].
    specialize (Hsmall eq_refl). rewrite Forall_forall in Hsmall.
    assert (index < 32768)%Z as Hlt by (apply Hsmall; by eapply list_elem_of_lookup_2).
    simpl. destruct (Z.leb_spec 32768 index); [lia|done]. }
  apply list_eq. intros j. rewrite list_lookup_fmap.
  destruct (faces !! j) as [[[a b] c]|] eqn:Hj.
  - rewrite lookup_seq_lt by (by eapply lookup_lt_Some). simpl.
    destruct (face_indices_lookup faces j (a, b, c) Hj) as (H0 & H1 & H2). simpl in *.
    rewrite <- !Nat.add_assoc.
    rewrite (Hexact _ _ H0), (Hexact _ _ H1), (Hexact _ _ H2). done.
  - apply lookup_ge_None in Hj. by rewrite lookup_seq_ge by lia.
Qed.

Lemma quad_indices_range :
  Forall (Forall (Forall (λ index, 0 <= index < 4294967296)%Z)) quad_indices.
Proof. apply (bool_decide_unpack _). by vm_compute. Qed.

Lemma merge_indices_read_back_witness :
  mesh_num_indices (merge_indices quad_nodes quad_indices) !! 0%nat = Some 6%Z
  ∧ mesh_start_indices (merge_indices quad_nodes quad_indices) !! 0%nat = Some 0%Z.
Proof.
  destruct (merge_indices_read_back quad_nodes quad_indices 0 (face_indices quad_faces)
              quad_indices_range ltac:(by vm_compute) eq_refl) as (Hnum & Hstart & _).
  split; [exact Hnum|exact Hstart].
Defined.

Lemma SaveByAssimp_faces_roundtrip_witness :
  ∃ start num,
    mesh_start_indices (merge_indices quad_nodes quad_indices) !! 0%nat = Some start
    ∧ mesh_num_indices (merge_indices quad_nodes quad_indices) !! 0%nat = Some num
    ∧ read_faces (is_index_16_bit quad_indices)
                 (merged_indices (merge_indices quad_nodes quad_indices)) start num
      = quad_faces.
Proof.
  apply (SaveByAssimp_faces_roundtrip quad_nodes quad_indices 0 quad_faces
           quad_indices_range ltac:(by vm_compute) eq_refl).
  intros _. apply (bool_decide_unpack _). by vm_compute.
Defined.

(** The vertex 40000 of a model stored with 16-bit indices is read back as
    4294941760. *)
Example large_index_read_back :
  is_index_16_bit large_indices = true
  ∧ read_faces true (merged_indices (merge_indices quad_nodes large_indices)) 0 3
    = [(0, 1, 4294941760)%Z].
Proof. split; by vm_compute. Qed.

(** ** Convert: the blend weights of a vertex *)









(** Two equal shares are both rounded up: the stored weights are 128 and
    128, and they add up to 256. *)
Example half_binding_packed :
  pack_binding half_binding = ([128; 128; 0; 0]%Z, [0; 1; 0; 0]%Z).
Proof. by vm_compute. Qed.

(** ** Normals and tangent frames in four bytes *)






(** ** Convert: the vertex layout *)

(** X18: the vertex layout Convert decides on.  Positions are always
    stream 0, in the format EF_SIGNED_ABGR16; a tangent stream is present
    exactly when the model has tangent frames, and a normal stream exactly
    when it has normals but no tangent frames (never both); diffuse,
    specular and texture coordinate streams follow their flags, and the
    blend weight and blend index streams are present exactly for a skinned
    model, the index stream right after the weight stream and last; every
    stream that is present is an index into [merged_ves] whose element has
    the matching usage, every absent one is -1 and its usage does not
    occur, and no usage occurs twice. *)
Theorem vertex_layout_streams (flags : AttributeFlags) (skinned : bool) :
  let layout := vertex_layout flags skinned in
  position_stream layout = 0%Z
  ∧ merged_ves layout !! 0%nat
    = Some {| usage := VEU_Position; usage_index := 0; format := EF_SIGNED_ABGR16 |}
  ∧ stream_iff layout (has_tangent_quat_ flags) (tangent_quat_stream layout) VEU_Tangent
  ∧ stream_iff layout (negb (has_tangent_quat_ flags) && has_normal_ flags)
               (normal_stream layout) VEU_Normal
  ∧ stream_iff layout (has_diffuse_ flags) (diffuse_stream layout) VEU_Diffuse
  ∧ stream_iff layout (has_specular_ flags) (specular_stream layout) VEU_Specular
  ∧ stream_iff layout (has_texcoord_ flags) (texcoord_stream layout) VEU_TextureCoord
  ∧ stream_iff layout skinned (blend_weights_stream layout) VEU_BlendWeight
  ∧ stream_iff layout skinned (blend_indices_stream layout) VEU_BlendIndex
  ∧ (skinned = true →
     blend_indices_stream layout = (blend_weights_stream layout + 1)%Z
     ∧ blend_indices_stream layout = (Z.of_nat (length (merged_ves layout)) - 1)%Z)
  ∧ NoDup (usage <$> merged_ves layout).
Proof.
  destruct flags as [[] [] [] [] []], skinned; cbv zeta;
    repeat (split; [first [reflexivity | apply (bool_decide_unpack _); by vm_compute
                          | intros; discriminate
                          | split; [done|apply (bool_decide_unpack _); by vm_compute]]|]);
    apply (bool_decide_unpack _); by vm_compute.
Qed.

(** ** RemoveUnusedMaterials when the used materials come first *)

Lemma count_used_prefix used k :
  (k ≤ length used)%nat →
  (∀ i, (i < length used)%nat → used_at used i = true ↔ (i < k)%nat) →
  (∀ i, (i ≤ k)%nat → count_used (take i used) = i)
  ∧ count_used used = k.
Proof.
  intros Hk Hused.
  assert (Hlow : ∀ i, (i ≤ k)%nat → count_used (take i used) = i).
  { induction i as [|i IH]; intros Hi; [by rewrite take_0|].
    rewrite count_used_take_S by lia. rewrite IH by lia.
    assert (used_at used i = true) as -> by (apply Hused; lia). lia. }
  split; [done|].
  assert (Hhigh : ∀ i, (k ≤ i)%nat → (i ≤ length used)%nat → count_used (take i used) = k).
  { intros i Hki. induction Hki as [|i Hki IH]; intros Hi; [by apply Hlow|].
    rewrite count_used_take_S by lia. rewrite IH by lia.
    destruct (used_at used i) eqn:E; [|lia].
    apply Hused in E; lia. }
  rewrite <- (take_ge used (length used)) at 1 by lia. by apply Hhigh.
Qed.

(** The copying loop leaves the entries below [k] alone when the mapping is
    the identity below [k]. *)
Lemma move_materials_prefix {Mtl} (mapping : list nat) k (materials : list Mtl) :
  (k ≤ length materials)%nat →
  (∀ i, (i < k)%nat → mapping_at mapping i = i) →
  move_materials mapping k materials = take k materials.
Proof.
  intros Hk Hid. unfold move_materials.
  assert (Hinv : ∀ ids (ms : list Mtl),
            ∀ j, (j < k)%nat →
              foldl (λ ms i, match ms !! mapping_at mapping i with
                             | Some m => <[i := m]> ms
                             | None => ms
                             end) ms ids !! j = ms !! j).
  { induction ids as [|i ids IH]; intros ms j Hj; simpl; [done|].
    rewrite IH by done.
    destruct (ms !! mapping_at mapping i) as [m|] eqn:Hm; [|done].
    destruct (decide (i = j)) as [->|Hne].
    - rewrite Hid in Hm by done.
      rewrite list_lookup_insert_eq by (by eapply lookup_lt_Some). done.
    - by rewrite list_lookup_insert_ne. }
  apply list_eq. intros j.
  destruct (decide (j < k)%nat) as [Hj|Hj].
  - rewrite !lookup_take_lt by done. by apply Hinv.
  - by rewrite !lookup_take_ge by lia.
Qed.

(** X19: RemoveUnusedMaterials is harmless when no unused material comes
    before a used one.  If the materials used by the meshes are exactly the
    first [k] materials, pruning keeps exactly these [k] materials, each at
    its old index, and leaves every mesh's material id as it was. *)
Theorem RemoveUnusedMaterials_prefix {Mtl} (st : PruneState Mtl) (k : nat) :
  Forall (λ mesh, (mtl_id mesh < length (materials_ st))%nat) (meshes_ st) →
  (k ≤ length (materials_ st))%nat →
  (∀ i, (i < length (materials_ st))%nat →
        (∃ mesh, mesh ∈ meshes_ st ∧ mtl_id mesh = i) ↔ (i < k)%nat) →
  materials_ (RemoveUnusedMaterials st) = take k (materials_ st)
  ∧ mtl_id <$> meshes_ (RemoveUnusedMaterials st) = mtl_id <$> meshes_ st.
Proof.
  intros Hin Hk Hprefix. unfold RemoveUnusedMaterials.
  set (used := mark_used_materials (meshes_ st) (replicate (length (materials_ st)) false)).
  assert (Hused : used = foldl mark_id (replicate (length (materials_ st)) false)
                               (mtl_id <$> meshes_ st)).
  { subst used. unfold mark_used_materials. by rewrite foldl_fmap. }
  destruct (foldl_mark_id (mtl_id <$> meshes_ st) (replicate (length (materials_ st)) false))
    as [Hl Hmark].
  rewrite <- Hused, length_replicate in *.
  assert (Hu : ∀ i, (i < length used)%nat → used_at used i = true ↔ (i < k)%nat).
  { intros i Hi. rewrite Hl in Hi. rewrite <- (Hprefix i Hi), Hmark. split.
    - intros [Hrep|[Hi' _]].
      + unfold used_at in Hrep. destruct (replicate _ _ !! i) eqn:E; [|done].
        apply lookup_replicate in E as [-> _]. done.
      + apply list_elem_of_fmap in Hi' as (mesh & -> & Hm). by exists mesh.
    - intros (mesh & Hm & <-). right. split; [apply list_elem_of_fmap; by exists mesh|done]. }
  destruct (count_used_prefix used k ltac:(lia) Hu) as [Hlow Hcount].
  destruct (assign_ids_spec used) as (_ & Hcnt & Hmap).
  destruct (assign_ids used) as [mapping new_id]. cbn [fst snd] in *.
  cbn [materials_ meshes_]. subst new_id. rewrite Hcount.
  assert (Hid : ∀ i, (i < k)%nat → mapping_at mapping i = i).
  { intros i Hi. rewrite Hmap.
    assert (used_at used i = true) as -> by (apply Hu; lia).
    apply Hlow. lia. }
  split; [by apply move_materials_prefix|].
  rewrite <- list_fmap_compose. apply Forall_fmap_ext.
  rewrite Forall_forall in Hin. apply Forall_forall. intros mesh Hm. simpl.
  apply Hid. apply Hprefix; [by apply Hin|]. by exists mesh.
Qed.

Lemma RemoveUnusedMaterials_prefix_witness :
  materials_ (RemoveUnusedMaterials wall_model) = take 2 (materials_ wall_model)
  ∧ mtl_id <$> meshes_ (RemoveUnusedMaterials wall_model) = mtl_id <$> meshes_ wall_model.
Proof.
  apply (RemoveUnusedMaterials_prefix wall_model 2).
  - repeat constructor.
  - simpl. lia.
  - intros i Hi. simpl in Hi. split.
    + intros (mesh & Hm & <-).
      apply elem_of_cons in Hm as [->|Hm]; [simpl; lia|].
      apply elem_of_cons in Hm as [->|Hm]; [simpl; lia|].
      by apply elem_of_nil in Hm.
    + intros Hlt. destruct i as [|[|i]]; [| |lia].
      * eexists. split; [left|done].
      * eexists. split; [right; left|done].
Defined.

Lemma RemoveUnusedMaterials_dense_witness :
  length (materials_ (RemoveUnusedMaterials glass_model)) = 1%nat.
Proof.
  assert (Hin : Forall (λ mesh, (mtl_id mesh < length (materials_ glass_model))%nat)
                       (meshes_ glass_model)).
  { repeat constructor. }
  destruct (RemoveUnusedMaterials_dense glass_model Hin) as (Hlen & _).
  exact Hlen.
Defined.

Lemma RemoveUnusedJoints_keeps_ancestors_witness :
  used_at (joints_used_of (joints_ arm_model) (meshes_ arm_model)) 4 = true.
Proof.
  destruct (RemoveUnusedJoints_keeps_ancestors (joints_ arm_model) (meshes_ arm_model)
              arm_model_parents) as (_ & Hbound & _).
  apply Hbound.
  - apply (bool_decide_unpack _). by vm_compute.
  - vm_compute. lia.
Defined.

(** ** BuildJoints: the bones find their joints *)

Lemma bone_joint_name `{MathLib} mesh_trans bone :
  joint_name (bone_joint mesh_trans bone) = bone_mName bone.
Proof. unfold bone_joint. by destruct (MatrixToDQ _) as [[r d] s]. Qed.

Lemma alloc_joint_name `{MathLib} j local_matrix parent_id :
  joint_name (alloc_joint j local_matrix parent_id) = joint_name j.
Proof. unfold alloc_joint. by destruct (MatrixToDQ _) as [[r d] s]. Qed.

Lemma keys_kept_refl jn : keys_kept jn jn.
Proof. by intros k. Qed.

Lemma keys_kept_trans jn1 jn2 jn3 : keys_kept jn1 jn2 → keys_kept jn2 jn3 → keys_kept jn1 jn3.
Proof. intros H12 H23 k Hk. by apply H23, H12. Qed.

Lemma keys_kept_insert (jn : gmap string Joint) k j : keys_kept jn (<[k := j]> jn).
Proof.
  intros k' Hk'. destruct (decide (k = k')) as [->|Hne].
  - rewrite lookup_insert_eq. by eexists.
  - by rewrite lookup_insert_ne.
Qed.

Lemma add_node_bones_keys `{MathLib} meshes mesh_trans node_meshes : ∀ jn,
  keyed_by_name jn →
  keyed_by_name (add_node_bones meshes mesh_trans node_meshes jn)
  ∧ keys_kept jn (add_node_bones meshes mesh_trans node_meshes jn)
  ∧ ∀ mi mesh bone, mi ∈ node_meshes → meshes !! mi = Some mesh → bone ∈ mBones mesh →
      is_Some (add_node_bones meshes mesh_trans node_meshes jn !! bone_mName bone).
Proof.
  unfold add_node_bones.
  assert (Hbones : ∀ bones jn, keyed_by_name jn →
            let jn' := foldl (λ jn bone, <[bone_mName bone := bone_joint mesh_trans bone]> jn)
                             jn bones in
            keyed_by_name jn' ∧ keys_kept jn jn'
            ∧ ∀ bone, bone ∈ bones → is_Some (jn' !! bone_mName bone)).
  { induction bones as [|b bs IH]; intros jn Hk; cbv zeta; simpl.
    - split; [done|]. split; [apply keys_kept_refl|].
      intros bone Hin. by apply elem_of_nil in Hin.
    - destruct (IH (<[bone_mName b := bone_joint mesh_trans b]> jn)) as (Hk' & Hkept & Hin).
      { apply map_Forall_insert_2; [apply bone_joint_name|done]. }
      cbv zeta in *. split; [done|]. split.
      + eapply keys_kept_trans; [apply keys_kept_insert|exact Hkept].
      + intros bone Hb. apply elem_of_cons in Hb as [->|Hb]; [|by apply Hin].
        apply Hkept. rewrite lookup_insert_eq. by eexists. }
  induction node_meshes as [|mi mis IH]; intros jn Hk; simpl.
  - split; [done|]. split; [apply keys_kept_refl|].
    intros mi mesh bone Hin. by apply elem_of_nil in Hin.
  - destruct (meshes !! mi) as [mesh0|] eqn:Hmesh0.
    + destruct (Hbones (mBones mesh0) jn Hk) as (Hk1 & Hkept1 & Hin1). cbv zeta in *.
      destruct (IH _ Hk1) as (Hk' & Hkept & Hin).
      split; [done|]. split; [by eapply keys_kept_trans|].
      intros mi' mesh bone Hmi Hmesh Hb.
      apply elem_of_cons in Hmi as [->|Hmi]; [|by eapply Hin].
      rewrite Hmesh0 in Hmesh. injection Hmesh as <-. by apply Hkept, Hin1.
    + destruct (IH _ Hk) as (Hk' & Hkept & Hin).
      split; [done|]. split; [done|].
      intros mi' mesh bone Hmi Hmesh Hb.
      apply elem_of_cons in Hmi as [->|Hmi]; [congruence|by eapply Hin].
Qed.

(** The walks over the children, as folds. *)
Lemma node_names_eq name trans ms cs :
  node_names (AiNode name trans ms cs) = name :: (cs ≫= node_names).
Proof. reflexivity. Qed.

Lemma node_mesh_ids_eq name trans ms cs :
  node_mesh_ids (AiNode name trans ms cs) = ms ++ (cs ≫= node_mesh_ids).
Proof. reflexivity. Qed.

Lemma build_bind_matrix_eq `{MathLib} meshes name trans ms cs parent_mat jn :
  build_bind_matrix meshes (AiNode name trans ms cs) parent_mat jn
  = foldl (λ jn c, build_bind_matrix meshes c (mat_mul (mat_transpose trans) parent_mat) jn)
          (add_node_bones meshes (mat_mul (mat_transpose trans) parent_mat) ms jn) cs.
Proof.
  cbn [build_bind_matrix].
  generalize (add_node_bones meshes (mat_mul (mat_transpose trans) parent_mat) ms jn).
  induction cs as [|c cs IH]; intros jn1; [done|]. cbn [foldl]. apply IH.
Qed.

Lemma mark_joint_nodes_eq name trans ms cs jn :
  mark_joint_nodes (AiNode name trans ms cs) jn
  = let found := bool_decide (is_Some (jn !! name)) in
    let acc := foldl (λ (acc : bool * gmap string Joint) c,
                        (fst (mark_joint_nodes c (snd acc)) || fst acc,
                         snd (mark_joint_nodes c (snd acc))))
                     (found, jn) cs in
    if fst acc && negb found
    then (fst acc, <[name := helper_joint name]> (snd acc))
    else (fst acc, snd acc).
Proof.
  cbn [mark_joint_nodes]. cbv zeta.
  set (found := bool_decide (is_Some (jn !! name))).
  match goal with
  | |- context [?over cs (found, jn)] =>
      assert (Hfold : ∀ acc,
                over cs acc
                = foldl (λ (acc : bool * gmap string Joint) c,
                           (fst (mark_joint_nodes c (snd acc)) || fst acc,
                            snd (mark_joint_nodes c (snd acc)))) acc cs)
  end.
  { induction cs as [|c cs IH]; intros acc; [done|].
    cbn [foldl]. rewrite <- IH. by destruct (mark_joint_nodes c (snd acc)). }
  rewrite Hfold. by destruct (foldl _ _ cs).
Qed.

Lemma alloc_joints_eq `{MathLib} name trans ms cs parent_id jn joints :
  alloc_joints (AiNode name trans ms cs) parent_id (jn, joints)
  = let step :=
      match jn !! name with
      | Some j =>
          (Z.of_nat (length joints),
           (<[name := alloc_joint j (mat_transpose trans) parent_id]> jn,
            joints ++ [alloc_joint j (mat_transpose trans) parent_id]))
      | None => ((-1)%Z, (jn, joints))
      end in
    foldl (λ st c, alloc_joints c (fst step) st) (snd step) cs.
Proof.
  cbn [alloc_joints]. cbv zeta.
  destruct (match jn !! name with
            | Some j => _
            | None => _
            end) as [joint_id st1].
  cbn [fst snd]. revert st1.
  induction cs as [|c cs IH]; intros st1; [done|]. cbn [foldl]. apply IH.
Qed.

Lemma build_bind_matrix_keys `{MathLib} meshes node : ∀ parent_mat jn,
  keyed_by_name jn →
  keyed_by_name (build_bind_matrix meshes node parent_mat jn)
  ∧ keys_kept jn (build_bind_matrix meshes node parent_mat jn)
  ∧ ∀ mi mesh bone, mi ∈ node_mesh_ids node → meshes !! mi = Some mesh →
      bone ∈ mBones mesh →
      is_Some (build_bind_matrix meshes node parent_mat jn !! bone_mName bone).
Proof.
  induction node as [name trans ms cs IHcs] using aiNode_ind.
  intros parent_mat jn Hk. rewrite build_bind_matrix_eq, node_mesh_ids_eq.
  set (mesh_trans := mat_mul (mat_transpose trans) parent_mat).
  destruct (add_node_bones_keys meshes mesh_trans ms jn Hk) as (Hk1 & Hkept1 & Hin1).
  assert (Hchildren : ∀ jn1, keyed_by_name jn1 →
            let res := foldl (λ jn c, build_bind_matrix meshes c mesh_trans jn) jn1 cs in
            keyed_by_name res ∧ keys_kept jn1 res
            ∧ ∀ mi mesh bone, mi ∈ cs ≫= node_mesh_ids → meshes !! mi = Some mesh →
                bone ∈ mBones mesh → is_Some (res !! bone_mName bone)).
  { clear Hk1 Hkept1 Hin1. induction IHcs as [|c cs Hc _ IH]; intros jn1 Hk1; cbv zeta.
    - cbn [foldl]. split; [done|]. split; [apply keys_kept_refl|].
      intros mi mesh bone Hmi. by apply elem_of_nil in Hmi.
    - cbn [foldl]. destruct (Hc mesh_trans jn1 Hk1) as (Hk2 & Hkept2 & Hin2).
      destruct (IH _ Hk2) as (Hk' & Hkept' & Hin'). cbv zeta in *.
      split; [done|]. split; [by eapply keys_kept_trans|].
      intros mi mesh bone Hmi Hmesh Hb. rewrite bind_cons in Hmi.
      apply elem_of_app in Hmi as [Hmi|Hmi]; [|by eapply Hin'].
      by eapply Hkept', Hin2. }
  destruct (Hchildren _ Hk1) as (Hk' & Hkept' & Hin'). cbv zeta in *.
  split; [done|]. split; [by eapply keys_kept_trans|].
  intros mi mesh bone Hmi Hmesh Hb.
  apply elem_of_app in Hmi as [Hmi|Hmi]; [|by eapply Hin'].
  by eapply Hkept', Hin1.
Qed.

Lemma mark_joint_nodes_keys node : ∀ jn,
  keyed_by_name jn →
  keyed_by_name (snd (mark_joint_nodes node jn))
  ∧ keys_kept jn (snd (mark_joint_nodes node jn)).
Proof.
  induction node as [name trans ms cs IHcs] using aiNode_ind.
  intros jn Hk. rewrite mark_joint_nodes_eq. cbv zeta.
  set (found := bool_decide (is_Some (jn !! name))).
  assert (Hchildren : ∀ acc : bool * gmap string Joint, keyed_by_name (snd acc) →
            let res := foldl (λ (acc : bool * gmap string Joint) c,
                                (fst (mark_joint_nodes c (snd acc)) || fst acc,
                                 snd (mark_joint_nodes c (snd acc)))) acc cs in
            keyed_by_name (snd res) ∧ keys_kept (snd acc) (snd res)).
  { induction IHcs as [|c cs Hc _ IH]; intros acc Hacc; cbv zeta; cbn [foldl].
    - split; [done|apply keys_kept_refl].
    - destruct (Hc (snd acc) Hacc) as [Hk2 Hkept2].
      destruct (IH (fst (mark_joint_nodes c (snd acc)) || fst acc,
                    snd (mark_joint_nodes c (snd acc))) Hk2) as [Hk' Hkept'].
      cbv zeta in *. split; [done|]. by eapply keys_kept_trans. }
  destruct (Hchildren (found, jn) Hk) as [Hk' Hkept']. cbv zeta in *. cbn [snd] in *.
  destruct (fst _ && negb found); cbn [snd]; [|by split].
  split.
  - apply map_Forall_insert_2; [done|done].
  - eapply keys_kept_trans; [exact Hkept'|apply keys_kept_insert].
Qed.

Lemma alloc_joints_names `{MathLib} node : ∀ parent_id st,
  keyed_by_name (fst st) →
  let st' := alloc_joints node parent_id st in
  keyed_by_name (fst st') ∧ keys_kept (fst st) (fst st')
  ∧ (∀ j, j ∈ snd st → j ∈ snd st')
  ∧ ∀ name, name ∈ node_names node → is_Some (fst st !! name) →
      ∃ j, j ∈ snd st' ∧ joint_name j = name.
Proof.
  induction node as [name trans ms cs IHcs] using aiNode_ind.
  intros parent_id [jn joints] Hk. cbv zeta. cbn [fst snd] in Hk |- *.
  rewrite alloc_joints_eq, node_names_eq. cbv zeta.
  set (step := match jn !! name with
               | Some j =>
                   (Z.of_nat (length joints),
                    (<[name := alloc_joint j (mat_transpose trans) parent_id]> jn,
                     joints ++ [alloc_joint j (mat_transpose trans) parent_id]))
               | None => ((-1)%Z, (jn, joints))
               end).
  assert (Hstep : keyed_by_name (fst (snd step)) ∧ keys_kept jn (fst (snd step))
                  ∧ (∀ j, j ∈ joints → j ∈ snd (snd step))
                  ∧ (is_Some (jn !! name) →
                     ∃ j, j ∈ snd (snd step) ∧ joint_name j = name)).
  { subst step. destruct (jn !! name) as [j|] eqn:Hj; cbn [fst snd].
    - pose proof (map_Forall_lookup_1 _ _ _ _ Hk Hj) as Hname. simpl in Hname.
      split; [apply map_Forall_insert_2; [by rewrite alloc_joint_name|done]|].
      split; [apply keys_kept_insert|].
      split; [intros j' Hj'; apply elem_of_app; by left|].
      intros _. eexists. split; [apply elem_of_app; right; by left|].
      by rewrite alloc_joint_name.
    - split; [done|]. split; [apply keys_kept_refl|]. split; [done|].
      intros [? ?]. done. }
  destruct Hstep as (Hk1 & Hkept1 & Hsub1 & Hself).
  assert (Hchildren : ∀ st1 : gmap string Joint * list Joint, keyed_by_name (fst st1) →
            let res := foldl (λ st c, alloc_joints c (fst step) st) st1 cs in
            keyed_by_name (fst res) ∧ keys_kept (fst st1) (fst res)
            ∧ (∀ j, j ∈ snd st1 → j ∈ snd res)
            ∧ ∀ name, name ∈ cs ≫= node_names → is_Some (fst st1 !! name) →
                ∃ j, j ∈ snd res ∧ joint_name j = name).
  { clear Hk1 Hkept1 Hsub1 Hself. generalize (fst step). intros joint_id.
    induction IHcs as [|c cs Hc _ IH]; intros st1 Hst1; cbv zeta; cbn [foldl].
    - split; [done|]. split; [apply keys_kept_refl|]. split; [done|].
      intros name' Hin. by apply elem_of_nil in Hin.
    - destruct (Hc joint_id st1 Hst1) as (Hk2 & Hkept2 & Hsub2 & Hnames2).
      destruct (IH _ Hk2) as (Hk' & Hkept' & Hsub' & Hnames'). cbv zeta in *.
      split; [done|]. split; [by eapply keys_kept_trans|].
      split; [intros j Hj; by apply Hsub', Hsub2|].
      intros name' Hin Hsome. rewrite bind_cons in Hin.
      apply elem_of_app in Hin as [Hin|Hin].
      + destruct (Hnames2 name' Hin Hsome) as (j & Hj & Hname). exists j. split; [|done].
        by apply Hsub'.
      + apply Hnames'; [done|]. by apply Hkept2. }
  destruct (Hchildren (snd step) Hk1) as (Hk' & Hkept' & Hsub' & Hnames'). cbv zeta in *.
  split; [done|]. split; [by eapply keys_kept_trans|].
  split; [intros j Hj; by apply Hsub', Hsub1|].
  intros name' Hin Hsome. apply elem_of_cons in Hin as [->|Hin].
  - destruct (Hself Hsome) as (j & Hj & Hname). exists j. split; [by apply Hsub'|done].
  - apply Hnames'; [done|]. by apply Hkept1.
Qed.

(** X20: BuildJoints gives a joint to every bone that is named after a
    node.  For a bone of a mesh attached to some node of the scene, if the
    bone's name is the name of a node of the hierarchy, the joint list
    holds a joint of that name, so that the search for the bone's joint in
    BuildMeshData (and for a channel's joint in BuildActions) succeeds and
    returns the index of a joint with the bone's name. *)
Theorem BuildJoints_bones_find_joints `{MathLib} (scene : aiScene) (mi : nat)
    (mesh : aiMesh) (bone : aiBone) :
  mi ∈ node_mesh_ids (mRootNode scene) →
  scene_mMeshes scene !! mi = Some mesh →
  bone ∈ mBones mesh →
  bone_mName bone ∈ node_names (mRootNode scene) →
  ∃ ji j, find_joint (BuildJoints scene) (bone_mName bone) = Some ji
          ∧ BuildJoints scene !! ji = Some j
          ∧ joint_name j = bone_mName bone.
Proof.
  intros Hmi Hmesh Hbone Hname. unfold BuildJoints.
  set (jn0 := build_bind_matrix (scene_mMeshes scene) (mRootNode scene) float4x4_Identity ∅).
  destruct (build_bind_matrix_keys (scene_mMeshes scene) (mRootNode scene)
              float4x4_Identity ∅) as (Hk0 & _ & Hin0).
  { apply map_Forall_empty. }
  fold jn0 in Hk0, Hin0.
  destruct (mark_joint_nodes_keys (mRootNode scene) jn0 Hk0) as [Hk1 Hkept1].
  destruct (alloc_joints_names (mRootNode scene) (-1)%Z
              (snd (mark_joint_nodes (mRootNode scene) jn0), []) Hk1)
    as (_ & _ & _ & Hnames).
  cbv zeta in Hnames. cbn [fst snd] in Hnames.
  destruct (Hnames (bone_mName bone) Hname) as (j & Hj & Hjname).
  { apply Hkept1. by eapply Hin0. }
  set (joints := snd (alloc_joints _ _ _)) in *.
  destruct (list_find_elem_of (λ j, joint_name j = bone_mName bone) joints j Hj Hjname)
    as [[ji j'] Hfind].
  exists ji, j'. unfold find_joint. rewrite Hfind. split; [done|].
  apply list_find_Some in Hfind as (Hlook & Hp & _). by split.
Qed.

Lemma BuildJoints_bones_find_joints_witness :
  ∃ ji j, find_joint (BuildJoints (H := unrotated_MathLib) arm_scene) "b3" = Some ji
          ∧ BuildJoints (H := unrotated_MathLib) arm_scene !! ji = Some j
          ∧ joint_name j = "b3".
Proof.
  apply (@BuildJoints_bones_find_joints unrotated_MathLib arm_scene 0 arm_mesh
           (arm_bone "b3" (1 # 2))).
  - apply (bool_decide_unpack _). by vm_compute.
  - reflexivity.
  - unfold arm_mesh. cbn [mBones]. do 3 right. left.
  - apply (bool_decide_unpack _). by vm_compute.
Defined.

(** ** LoadFromMeshML: the transforms read from the document *)

Lemma Qdiv_sign_pos a s : 0 < s → 0 < a → 0 < a / s.
Proof.
  intros Hs Ha. unfold Qdiv. apply Qmult_lt_0_compat; [done|]. by apply Qinv_lt_0_compat.
Qed.

Lemma Qdiv_sign_neg a s : 0 < s → a < 0 → a / s < 0.
Proof.
  intros Hs Ha. pose proof (Qdiv_sign_pos (- a) s Hs ltac:(lra)) as Hp.
  setoid_replace (- a / s) with (- (a / s)) using relation Qeq in Hp by (field; lra). lra.
Qed.

(** X23: the real/dual branch of CompileBonesChunk and CompileKeyFramesChunk.
    For a quaternion whose length comes out positive, with a SignBit that
    has the sign of its argument, the stored rotation has a non-negative
    scalar part; when the scalar part of the document's quaternion is
    negative, the stored rotation is the negated quotient and the stored
    scale is the negated length, and when it is positive they are the
    quotient and the length themselves.  The sign of the stored scale thus
    records the hemisphere of the document's quaternion, and the two
    negations cancel in the product of rotation and scale. *)
Theorem normalize_signed_hemisphere `{MathLibContract} `{QuatLength} (real : Quaternion) :
  0 < quat_length real →
  let '(bind_real, bind_scale) := normalize_signed real in
  0 <= q_w bind_real
  ∧ (q_w real < 0 →
     bind_real = quat_neg (quat_div real (quat_length real))
     ∧ bind_scale = - quat_length real)
  ∧ (0 < q_w real →
     bind_real = quat_div real (quat_length real)
     ∧ bind_scale = quat_length real)
  ∧ quat_eq (quat_scale bind_real bind_scale)
            (quat_scale (quat_div real (quat_length real)) (quat_length real)).
Proof.
  intros Hpos. unfold normalize_signed.
  set (s := quat_length real) in *.
  destruct (Qlt_le_dec (SignBit (q_w (quat_div real s))) 0) as [Hneg|Hnn].
  - split; [|split; [|split]].
    + destruct (Qlt_le_dec 0 (q_w (quat_div real s))) as [Hgt|Hle].
      * pose proof (SignBit_pos _ Hgt). lra.
      * simpl in *. lra.
    + done.
    + intros Hw0. pose proof (SignBit_pos _ (Qdiv_sign_pos _ s Hpos Hw0)).
      simpl in *. lra.
    + unfold quat_eq. simpl. repeat split; ring.
  - split; [|split; [|split]].
    + destruct (Qlt_le_dec (q_w (quat_div real s)) 0) as [Hlt|Hge]; [|done].
      pose proof (SignBit_neg _ Hlt). lra.
    + intros Hw0. pose proof (SignBit_neg _ (Qdiv_sign_neg _ s Hpos Hw0)).
      simpl in *. lra.
    + done.
    + unfold quat_eq. repeat split; reflexivity.
Qed.

Lemma normalize_signed_hemisphere_witness :
  normalize_signed (H := unrotated_MathLib) (H0 := axis_QuatLength) (Quat 0 0 0 (-2))
  = (quat_neg (quat_div (Quat 0 0 0 (-2)) 2), - 2)
  ∧ 0 <= q_w (quat_neg (quat_div (Quat 0 0 0 (-2)) 2)).
Proof.
  split; [reflexivity|].
  pose proof (@normalize_signed_hemisphere unrotated_MathLib unrotated_MathLib_contract
                axis_QuatLength (Quat 0 0 0 (-2))) as Hrec.
  assert (Hlen : 0 < quat_length (QuatLength := axis_QuatLength) (Quat 0 0 0 (-2)))
    by reflexivity.
  exact (proj1 (Hrec Hlen)).
Defined.

(** ** CompileKeyFramesChunk and the default key frames *)

Lemma foldl_push_key_sizes_agree `{MathLib} `{QuatLength} keys : ∀ st,
  kf_sizes_agree (snd st) → kf_sizes_agree (snd (foldl push_key st keys)).
Proof.
  induction keys as [|key keys IH]; intros st Hagree; simpl; [done|].
  apply IH. unfold push_key.
  destruct (key_transform (key_pose key)) as [[r d] s]. simpl.
  by apply kf_push_sizes_agree.
Qed.

Lemma foldl_push_key_unnumbered `{MathLib} `{QuatLength} keys :
  Forall (λ key, key_id key = None) keys →
  ∀ f kfs,
    frame_id (snd (foldl push_key (f, kfs) keys))
    = frame_id kfs ++ ((λ i, f + 1 + Z.of_nat i)%Z <$> seq 0 (length keys)).
Proof.
  induction 1 as [|key keys Hkey _ IH]; intros f kfs; simpl.
  - by rewrite app_nil_r.
  - unfold push_key at 2. rewrite Hkey. cbn [fst snd].
    destruct (key_transform (key_pose key)) as [[r d] s].
    rewrite IH. cbn [kf_push frame_id]. rewrite <- app_assoc. simpl.
    do 2 f_equal; [lia|].
    rewrite <- fmap_S_seq, <- list_fmap_compose. apply list_fmap_ext.
    intros _ i _. simpl. lia.
Qed.

(** X24: the keys of a [key_frame] node that give no [id] are numbered
    0, 1, 2, ... in document order, whatever frames the set of the joint
    already holds: the new ids follow the old ones in the vector. *)
Theorem push_keys_unnumbered `{MathLib} `{QuatLength} (keys : list KeyNode)
    (kfs : KeyFrameSet) :
  Forall (λ key, key_id key = None) keys →
  frame_id (push_keys keys kfs) = frame_id kfs ++ (Z.of_nat <$> seq 0 (length keys)).
Proof.
  intros Hkeys. unfold push_keys. by rewrite foldl_push_key_unnumbered.
Qed.

Lemma push_keys_unnumbered_witness :
  frame_id (push_keys (H := unrotated_MathLib) (H0 := axis_QuatLength)
              [plain_key; plain_key] empty_KeyFrameSet) = [0; 1]%Z.
Proof.
  apply (@push_keys_unnumbered unrotated_MathLib axis_QuatLength
           [plain_key; plain_key] empty_KeyFrameSet).
  by repeat constructor.
Defined.

Lemma compile_key_frames_unnamed `{MathLib} `{QuatLength} nodes :
  Forall (λ node, kf_joint node = None) nodes →
  ∀ pre m j,
    length pre = S j →
    compile_key_frames nodes (j, pre ++ replicate m empty_KeyFrameSet)
    = if decide (length nodes <= m)%nat
      then Some ((j + length nodes)%nat,
                 pre ++ (compiled_keys <$> nodes)
                     ++ replicate (m - length nodes) empty_KeyFrameSet)
      else None.
Proof.
  induction 1 as [|node nodes Hnode _ IH]; intros pre m j Hpre.
  - simpl. by rewrite Nat.sub_0_r, Nat.add_0_r.
  - cbn [compile_key_frames]. unfold compile_key_frame. rewrite Hnode. cbn [fst snd].
    rewrite lookup_app_r by lia. rewrite Hpre, Nat.sub_diag.
    destruct m as [|m]; simpl.
    + done.
    + rewrite insert_app_r_alt by lia. rewrite Hpre, Nat.sub_diag. simpl.
      rewrite (cons_middle _ pre), app_assoc.
      rewrite IH by (rewrite length_app; simpl; lia).
      case_decide; case_decide; try lia; [|done].
      rewrite <- app_assoc. simpl. do 2 f_equal. lia.
Qed.

(** X25: CompileKeyFramesChunk on [key_frame] nodes that do not name their
    joint.  The counter starts at 0 and is incremented before its first
    use, so the n-th node (from 1) writes the set of joint n and joint 0
    keeps its empty set; with as many nodes as joints, or more, the last
    one indexes the vector past its end. *)
Theorem CompileKeyFramesChunk_unnamed_joints `{MathLib} `{QuatLength} (num_joints : nat)
    (nodes : list KeyFrameNode) :
  Forall (λ node, kf_joint node = None) nodes →
  ((length nodes < num_joints)%nat →
   CompileKeyFramesChunk num_joints nodes
   = Some (empty_KeyFrameSet :: (compiled_keys <$> nodes)
             ++ replicate (num_joints - S (length nodes)) empty_KeyFrameSet))
  ∧ (nodes ≠ [] → (num_joints <= length nodes)%nat →
     CompileKeyFramesChunk num_joints nodes = None).
Proof.
  intros Hnodes. unfold CompileKeyFramesChunk. split.
  - intros Hlt. destruct num_joints as [|m]; [lia|].
    change (replicate (S m) empty_KeyFrameSet)
      with ([empty_KeyFrameSet] ++ replicate m empty_KeyFrameSet).
    rewrite (compile_key_frames_unnamed nodes Hnodes [empty_KeyFrameSet] m 0) by done.
    case_decide; [|lia]. done.
  - intros Hne Hle. destruct num_joints as [|m].
    + destruct nodes as [|node nodes]; [done|].
      apply Forall_cons in Hnodes as [Hnode _].
      cbn [compile_key_frames]. unfold compile_key_frame. by rewrite Hnode.
    + change (replicate (S m) empty_KeyFrameSet)
        with ([empty_KeyFrameSet] ++ replicate m empty_KeyFrameSet).
      rewrite (compile_key_frames_unnamed nodes Hnodes [empty_KeyFrameSet] m 0) by done.
      case_decide; [lia|]. done.
Qed.

Lemma CompileKeyFramesChunk_unnamed_joints_witness :
  CompileKeyFramesChunk (H := unrotated_MathLib) (H0 := axis_QuatLength) 3 plain_key_frames
  = None.
Proof.
  apply (@CompileKeyFramesChunk_unnamed_joints unrotated_MathLib axis_QuatLength
           3 plain_key_frames).
  - by repeat constructor.
  - done.
  - simpl. lia.
Defined.

Lemma CompressKeyFrameSet_sizes_agree `{MathLib} kf :
  kf_sizes_agree kf → kf_sizes_agree (CompressKeyFrameSet kf).
Proof.
  intros Hagree. unfold CompressKeyFrameSet.
  by destruct (compress_loop_ends_kept (length (frame_id kf)) (0%Z, kf) ltac:(done) Hagree)
    as (_ & Hagree' & _).
Qed.

Lemma compile_key_frames_sizes_agree `{MathLib} `{QuatLength} nodes : ∀ st st',
  compile_key_frames nodes st = Some st' →
  Forall kf_sizes_agree (snd st) →
  length (snd st') = length (snd st) ∧ Forall kf_sizes_agree (snd st').
Proof.
  induction nodes as [|node nodes IH]; intros st st' Hrun Hagree; simpl in Hrun.
  - by injection Hrun as <-.
  - destruct (compile_key_frame st node) as [st1|] eqn:Hstep; [|done].
    unfold compile_key_frame in Hstep.
    destruct (snd st !! _) as [kfs|] eqn:Hkfs; [|done].
    injection Hstep as <-.
    destruct (IH _ _ Hrun) as [Hlen Hall].
    + cbn [snd]. apply Forall_insert; [done|].
      apply CompressKeyFrameSet_sizes_agree.
      unfold push_keys. apply foldl_push_key_sizes_agree. cbn [snd].
      rewrite Forall_forall in Hagree. apply Hagree. by eapply list_elem_of_lookup_2.
    + split; [|done]. rewrite Hlen. cbn [snd]. by rewrite length_insert.
Qed.

(** X26: the key frames of a MeshML document after LoadFromMeshML.  When
    CompileKeyFramesChunk stays inside its vector, the loop that follows
    gives every joint left without a key the one frame 0 made of its bind
    transform: there is one set per joint, no set is empty, the four
    vectors of every set are equally long, and a set that had keys is
    kept as CompileKeyFramesChunk left it. *)
Theorem LoadFromMeshML_key_frames `{MathLib} `{QuatLength} (joints : list Joint)
    (nodes : list KeyFrameNode) (kfss : list KeyFrameSet) :
  CompileKeyFramesChunk (length joints) nodes = Some kfss →
  let kfs := fill_default_key_frames joints kfss in
  length kfs = length joints
  ∧ Forall (λ kf, kf_sizes_agree kf ∧ frame_id kf ≠ []) kfs
  ∧ ∀ i kf, kfss !! i = Some kf → frame_id kf ≠ [] → kfs !! i = Some kf.
Proof.
  intros Hrun kfs. unfold CompileKeyFramesChunk in Hrun.
  destruct (compile_key_frames nodes _) as [st'|] eqn:Hst; [|done].
  injection Hrun as Hkfss.
  destruct (compile_key_frames_sizes_agree nodes _ _ Hst) as [Hlen Hagree].
  { cbn [snd]. apply Forall_replicate. by repeat split. }
  cbn [snd] in Hlen. rewrite length_replicate in Hlen. rewrite Hkfss in Hlen, Hagree.
  subst kfs. unfold fill_default_key_frames. split; [by rewrite length_imap|]. split.
  - apply Forall_lookup. intros i kf Hi.
    rewrite list_lookup_imap in Hi.
    destruct (kfss !! i) as [kf0|] eqn:Hkf0; [|done]. simpl in Hi.
    assert (Hkf0_agree : kf_sizes_agree kf0).
    { rewrite Forall_forall in Hagree. apply Hagree. by eapply list_elem_of_lookup_2. }
    destruct (frame_id kf0) as [|f fs] eqn:Hfs; simpl in Hi.
    + destruct (lookup_lt_is_Some_2 joints i) as [j Hj].
      { rewrite <- Hlen. by eapply lookup_lt_Some. }
      rewrite Hj in Hi. destruct (default_key_frame joints j) as [[r d] s].
      injection Hi as <-. split; [by apply kf_push_sizes_agree|].
      cbn [kf_push frame_id]. rewrite Hfs. done.
    + injection Hi as <-. split; [done|]. by rewrite Hfs.
  - intros i kf Hi Hne. rewrite list_lookup_imap, Hi. simpl.
    by destruct (frame_id kf).
Qed.

Lemma LoadFromMeshML_key_frames_witness :
  ∃ kfss,
    CompileKeyFramesChunk (H := unrotated_MathLib) (H0 := axis_QuatLength)
      (length (joints_ arm_model)) plain_key_frames = Some kfss
    ∧ length (fill_default_key_frames (H := unrotated_MathLib) (joints_ arm_model) kfss)
      = length (joints_ arm_model).
Proof.
  eexists. split; [by vm_compute|].
  match goal with
  | |- length (fill_default_key_frames _ ?kfss) = _ =>
      refine (proj1 (@LoadFromMeshML_key_frames unrotated_MathLib axis_QuatLength
                       (joints_ arm_model) plain_key_frames kfss _))
  end.
  by vm_compute.
Defined.

(** ** CompileBonesChunk *)

Lemma CompileBonesChunk_app `{MathLib} `{QuatLength} bones : ∀ joints,
  CompileBonesChunk bones joints = joints ++ (bone_node_joint <$> bones).
Proof.
  unfold CompileBonesChunk.
  induction bones as [|node bones IH]; intros joints; simpl.
  - by rewrite app_nil_r.
  - by rewrite IH, <- app_assoc.
Qed.

(** X27: CompileBonesChunk keeps the joints it finds and appends one joint
    per [bone] node, in document order: the joint of bone [i] is stored at
    index [joints_.size() + i] with the node's name and its parent cast to
    16 bits, and its inverse_origin_scale is 1 / bind_scale.  For a bone
    given by [bind_pos] and [bind_quat] the stored scale is the length of
    the quaternion; for a bone given by its real and dual parts the stored
    bind_dual is the dual part of the document as read, also when the real
    part is negated to make its scalar part non-negative. *)
Theorem CompileBonesChunk_joints `{MathLib} `{QuatLength} (bones : list BoneNode)
    (joints : list Joint) (i : nat) (node : BoneNode) :
  bones !! i = Some node →
  length (CompileBonesChunk bones joints) = (length joints + length bones)%nat
  ∧ take (length joints) (CompileBonesChunk bones joints) = joints
  ∧ ∃ joint,
      CompileBonesChunk bones joints !! (length joints + i)%nat = Some joint
      ∧ joint_name joint = bone_node_name node
      ∧ parent joint = to_int16 (bone_node_parent node)
      ∧ inverse_origin_scale joint = 1 / bind_scale joint
      ∧ match bone_node_pose node with
        | PosQuat bind_pos bind_quat =>
            bind_scale joint = quat_length bind_quat
            ∧ bind_dual joint
              = quat_trans_to_udq (quat_div bind_quat (quat_length bind_quat)) bind_pos
        | RealDual real dual =>
            bind_dual joint = dual
            ∧ (bind_real joint, bind_scale joint) = normalize_signed real
        end.
Proof.
  intros Hnode. rewrite CompileBonesChunk_app.
  split; [by rewrite length_app, length_fmap|].
  split; [by rewrite take_app_length|].
  exists (bone_node_joint node). split.
  { rewrite lookup_app_r by lia.
    replace (length joints + i - length joints)%nat with i by lia.
    by rewrite list_lookup_fmap, Hnode. }
  unfold bone_node_joint, bone_transform.
  destruct (bone_node_pose node) as [bind_pos bind_quat|real dual].
  - by destruct (dq_inverse _ _) as [inv_r inv_d].
  - destruct (normalize_signed real) as [r s].
    by destruct (dq_inverse _ _) as [inv_r inv_d].
Qed.

Lemma CompileBonesChunk_joints_witness :
  ∃ joint,
    CompileBonesChunk (H := unrotated_MathLib) (H0 := axis_QuatLength) [scaled_bone] [] !! 0%nat
    = Some joint
    ∧ joint_name joint = "root"
    ∧ parent joint = (-1)%Z
    ∧ bind_scale joint = 2.
Proof.
  destruct (@CompileBonesChunk_joints unrotated_MathLib axis_QuatLength [scaled_bone] [] 0
              scaled_bone eq_refl) as (_ & _ & joint & Hjoint & Hname & Hparent & _ & Hscale & _).
  exists joint. split; [exact Hjoint|]. split; [exact Hname|]. split; [exact Hparent|].
  exact Hscale.
Defined.

(** ** RecursiveTransformMesh *)

Lemma mesh_nodes_eq name trans ms cs :
  mesh_nodes (AiNode name trans ms cs)
  = (if (0 <? length ms)%nat then [(name, ms)] else []) ++ (cs ≫= mesh_nodes).
Proof. reflexivity. Qed.

Lemma foldl_bind_None {A B} (step : A → B → option B) l :
  foldl (λ acc a, acc ≫= step a) None l = None.
Proof. by induction l. Qed.

Lemma RecursiveTransformMesh_eq unset n lod parent name trans ms cs nodes_ :
  RecursiveTransformMesh unset n lod parent (AiNode name trans ms cs) nodes_
  = transform_node unset n lod (mat_mul (mat_transpose trans) parent) name ms nodes_
    ≫= λ nodes1,
         foldl (λ acc c, acc ≫= RecursiveTransformMesh unset n lod
                                   (mat_mul (mat_transpose trans) parent) c)
               (Some nodes1) cs.
Proof.
  cbn [RecursiveTransformMesh]. cbv zeta.
  destruct (transform_node _ _ _ _ _ _ _) as [nodes1|]; [|done]. cbn [mbind option_bind].
  revert nodes1. induction cs as [|c cs IH]; intros nodes1; [done|].
  cbn [foldl mbind option_bind].
  destruct (RecursiveTransformMesh _ _ _ _ c nodes1) as [nodes2|].
  - apply IH.
  - by rewrite foldl_bind_None.
Qed.

Lemma nt_shape_names (nodes' nodes_ : list NodeTransform) :
  nt_shape <$> nodes' = nt_shape <$> nodes_ →
  node_name <$> nodes' = node_name <$> nodes_.
Proof.
  intros Hshape.
  change node_name with ((λ s : string * list nat * nat, s.1.1) ∘ nt_shape).
  by rewrite !list_fmap_compose, Hshape.
Qed.

Lemma nt_shape_keys (nodes' nodes_ : list NodeTransform) :
  nt_shape <$> nodes' = nt_shape <$> nodes_ →
  nt_key <$> nodes' = nt_key <$> nodes_.
Proof.
  intros Hshape.
  change nt_key with ((λ s : string * list nat * nat, s.1) ∘ nt_shape).
  by rewrite !list_fmap_compose, Hshape.
Qed.

(** A loop whose steps keep the shape of [nodes_] and end the conversion
    exactly when a required name is missing. *)
Lemma foldl_shape_kept {A} (step : A → list NodeTransform → option (list NodeTransform))
    (req : A → list (string * list nat)) l :
  Forall (λ a, ∀ nodes_,
            match step a nodes_ with
            | Some nodes' => nt_shape <$> nodes' = nt_shape <$> nodes_
                             ∧ named_among (node_name <$> nodes_) (req a)
            | None => ¬ named_among (node_name <$> nodes_) (req a)
            end) l →
  ∀ nodes1,
    match foldl (λ acc a, acc ≫= step a) (Some nodes1) l with
    | Some nodes' => nt_shape <$> nodes' = nt_shape <$> nodes1
                     ∧ Forall (λ a, named_among (node_name <$> nodes1) (req a)) l
    | None => ¬ Forall (λ a, named_among (node_name <$> nodes1) (req a)) l
    end.
Proof.
  induction 1 as [|a l Ha _ IH]; intros nodes1; [done|].
  cbn [foldl mbind option_bind]. specialize (Ha nodes1).
  destruct (step a nodes1) as [nodes2|].
  - destruct Ha as [Hshape Hreq]. specialize (IH nodes2).
    rewrite (nt_shape_names _ _ Hshape) in IH.
    destruct (foldl _ (Some nodes2) l) as [nodes'|].
    + destruct IH as [Hshape' Hrest]. split; [by rewrite Hshape'|]. by constructor.
    + intros Hall. apply IH. by apply Forall_cons in Hall as [_ ?].
  - rewrite foldl_bind_None. intros Hall. apply Ha. by apply Forall_cons in Hall as [? _].
Qed.

Lemma set_lod_transform_spec lod m name nodes_ :
  match set_lod_transform lod m name nodes_ with
  | Some nodes' => nt_shape <$> nodes' = nt_shape <$> nodes_
                   ∧ name ∈ node_name <$> nodes_
  | None => name ∉ node_name <$> nodes_
  end.
Proof.
  unfold set_lod_transform.
  destruct (list_find _ nodes_) as [[i nt]|] eqn:Hfind.
  - apply list_find_Some in Hfind as (Hi & Hname & _). split.
    + rewrite list_fmap_insert. apply list_insert_id.
      rewrite list_lookup_fmap, Hi. simpl. unfold nt_shape. simpl.
      by rewrite length_insert.
    + apply list_elem_of_fmap. exists nt. split; [done|]. by eapply list_elem_of_lookup_2.
  - apply list_find_None in Hfind. intros Hin.
    apply list_elem_of_fmap in Hin as (nt & -> & Hnt).
    rewrite Forall_forall in Hfind. by apply (Hfind nt).
Qed.

Lemma RecursiveTransformMesh_lod unset n lod node :
  (0 < lod)%nat →
  ∀ parent nodes_,
    match RecursiveTransformMesh unset n lod parent node nodes_ with
    | Some nodes' => nt_shape <$> nodes' = nt_shape <$> nodes_
                     ∧ named_among (node_name <$> nodes_) (mesh_nodes node)
    | None => ¬ named_among (node_name <$> nodes_) (mesh_nodes node)
    end.
Proof.
  intros Hlod.
  induction node as [name trans ms cs IHcs] using aiNode_ind.
  intros parent nodes_. rewrite RecursiveTransformMesh_eq, mesh_nodes_eq.
  set (trans_mat := mat_mul (mat_transpose trans) parent).
  assert (Hcs : Forall (λ c, ∀ nodes_,
                          match RecursiveTransformMesh unset n lod trans_mat c nodes_ with
                          | Some nodes' => nt_shape <$> nodes' = nt_shape <$> nodes_
                                           ∧ named_among (node_name <$> nodes_) (mesh_nodes c)
                          | None => ¬ named_among (node_name <$> nodes_) (mesh_nodes c)
                          end) cs).
  { eapply Forall_impl; [exact IHcs|]. intros c Hc. apply Hc. }
  pose proof (foldl_shape_kept _ mesh_nodes cs Hcs) as Hfold.
  unfold named_among in *. unfold transform_node.
  destruct (0 <? length ms)%nat.
  - replace (lod =? 0)%nat with false by (symmetry; apply Nat.eqb_neq; lia).
    pose proof (set_lod_transform_spec lod trans_mat name nodes_) as Hset.
    destruct (set_lod_transform lod trans_mat name nodes_) as [nodes1|]; cbn [mbind option_bind].
    + destruct Hset as [Hshape Hname]. specialize (Hfold nodes1).
      rewrite (nt_shape_names _ _ Hshape) in Hfold.
      destruct (foldl _ (Some nodes1) cs) as [nodes'|].
      * destruct Hfold as [Hshape' Hrest]. split; [by rewrite Hshape'|].
        constructor; [done|]. by apply Forall_bind.
      * intros Hall. apply Hfold. apply Forall_cons in Hall as [_ Hall].
        by apply Forall_bind in Hall.
    + intros Hall. by apply Forall_cons in Hall as [? _].
  - cbn [mbind option_bind]. specialize (Hfold nodes_).
    destruct (foldl _ (Some nodes_) cs) as [nodes'|].
    + destruct Hfold as [Hshape' Hrest]. split; [done|]. by apply Forall_bind.
    + intros Hall. apply Hfold. by apply Forall_bind in Hall.
Qed.

Lemma RecursiveTransformMesh_lod0 unset n node : ∀ parent nodes_,
  ∃ new,
    RecursiveTransformMesh unset n 0 parent node nodes_ = Some (nodes_ ++ new)
    ∧ nt_key <$> new = mesh_nodes node
    ∧ Forall (λ nt, length (lod_transforms nt) = n) new.
Proof.
  induction node as [name trans ms cs IHcs] using aiNode_ind.
  intros parent nodes_. rewrite RecursiveTransformMesh_eq, mesh_nodes_eq.
  set (trans_mat := mat_mul (mat_transpose trans) parent).
  assert (Hown : ∃ new0,
             transform_node unset n 0 trans_mat name ms nodes_ = Some (nodes_ ++ new0)
             ∧ nt_key <$> new0 = (if (0 <? length ms)%nat then [(name, ms)] else [])
             ∧ Forall (λ nt, length (lod_transforms nt) = n) new0).
  { unfold transform_node. destruct (0 <? length ms)%nat.
    - eexists [_]. split; [done|]. split; [done|]. constructor; [|done].
      simpl. by rewrite length_insert, length_replicate.
    - exists []. by rewrite app_nil_r. }
  destruct Hown as (new0 & -> & <- & Hl0). cbn [mbind option_bind].
  revert new0 Hl0. induction IHcs as [|c cs Hc _ IH]; intros new0 Hl0.
  - exists new0. simpl. by rewrite app_nil_r.
  - cbn [foldl mbind option_bind].
    destruct (Hc trans_mat (nodes_ ++ new0)) as (new1 & -> & Hk1 & Hl1).
    rewrite <- app_assoc.
    destruct (IH (new0 ++ new1)) as (new & -> & Hk & Hl); [by apply Forall_app|].
    exists new. split; [done|]. split; [|done].
    rewrite Hk, fmap_app, Hk1. simpl. by rewrite app_assoc.
Qed.

Lemma nt_shape_lengths (nodes' nodes_ : list NodeTransform) n :
  nt_shape <$> nodes' = nt_shape <$> nodes_ →
  Forall (λ nt, length (lod_transforms nt) = n) nodes_ →
  Forall (λ nt, length (lod_transforms nt) = n) nodes'.
Proof.
  intros Hshape Hall.
  apply (Forall_fmap nt_shape (λ s : string * list nat * nat, s.2 = n)).
  rewrite Hshape. by apply Forall_fmap.
Qed.

(** X28: the loop of LoadFromAssimp over the LODs.  The walk of LOD 0
    makes one entry per mesh-carrying node of its hierarchy, in the order
    of the walk, with the node's name and mesh indices and one transform
    slot per LOD; the walks of the other LODs only write transforms into
    these entries, found by name.  The loop ends the conversion exactly
    when some mesh-carrying node of a later LOD has a name that no
    mesh-carrying node of LOD 0 has; the mesh indices of the later LODs are
    never looked at. *)
Theorem transform_lods_nodes (unset_transform : float4x4) (scene0 : aiScene)
    (rest : list aiScene) :
  match transform_lods unset_transform (scene0 :: rest) with
  | Some nodes_ =>
      nt_key <$> nodes_ = mesh_nodes (mRootNode scene0)
      ∧ Forall (λ nt, length (lod_transforms nt) = S (length rest)) nodes_
      ∧ Forall (mesh_nodes_among (mesh_nodes (mRootNode scene0)).*1) rest
  | None => ¬ Forall (mesh_nodes_among (mesh_nodes (mRootNode scene0)).*1) rest
  end.
Proof.
  unfold transform_lods. cbn [length seq zip zip_with foldl mbind option_bind fst snd].
  destruct (RecursiveTransformMesh_lod0 unset_transform (S (length rest)) (mRootNode scene0)
              float4x4_Identity []) as (new & -> & Hkeys & Hlens).
  cbn [app].
  assert (Hnames : node_name <$> new = (mesh_nodes (mRootNode scene0)).*1).
  { rewrite <- Hkeys, <- list_fmap_compose. done. }
  pose proof (foldl_shape_kept
                (λ ls : nat * aiScene,
                   RecursiveTransformMesh unset_transform (S (length rest)) ls.1
                     float4x4_Identity (mRootNode ls.2))
                (λ ls, mesh_nodes (mRootNode ls.2))
                (zip (seq 1 (length rest)) rest)) as Hfold.
  assert (Hrest : ∀ names,
            Forall (λ ls : nat * aiScene, named_among names (mesh_nodes (mRootNode ls.2)))
                   (zip (seq 1 (length rest)) rest)
            ↔ Forall (mesh_nodes_among names) rest).
  { intros names.
    transitivity (Forall (mesh_nodes_among names) (zip (seq 1 (length rest)) rest).*2).
    - by rewrite Forall_fmap.
    - by rewrite snd_zip by (by rewrite length_seq). }
  specialize (Hfold ltac:(
    apply Forall_forall; intros [lod scene] Hin nodes_;
    apply (RecursiveTransformMesh_lod unset_transform (S (length rest)) lod (mRootNode scene));
    apply elem_of_zip_l in Hin; apply elem_of_seq in Hin; simpl in Hin; lia) new).
  rewrite Hnames in Hfold.
  destruct (foldl _ (Some new) _) as [nodes_|].
  - destruct Hfold as [Hshape Hall]. split; [|split].
    + by rewrite (nt_shape_keys _ _ Hshape).
    + by eapply nt_shape_lengths.
    + by apply Hrest.
  - intros Hall. apply Hfold. by apply Hrest.
Qed.

(** Two LODs with the same hierarchy: the second walk fills the second
    transform of the entries of the first. *)
Example transform_lods_two_lods :
  (λ nt, (nt_key nt, length (lod_transforms nt)))
    <$> default [] (transform_lods float4x4_Identity
                      [lod_scene float4x4_Identity; lod_scene mirror_z])
  = [("body", [0%nat], 2%nat); ("hand", [1%nat; 2%nat], 2%nat)].
Proof. reflexivity. Qed.

(** ** BuildMeshData: the attribute flags *)

Lemma first_texcoord_none tcs :
  (first_texcoord tcs =? length tcs)%nat = negb (existsb id tcs).
Proof.
  unfold first_texcoord.
  destruct (list_find _ tcs) as [[tci b]|] eqn:Hfind.
  - apply list_find_Some in Hfind as (Hb & -> & _).
    replace (existsb id tcs) with true.
    + apply Nat.eqb_neq. apply lookup_lt_Some in Hb. lia.
    + symmetry. apply existsb_exists. exists true. split; [|done].
      apply list_elem_of_In. by eapply list_elem_of_lookup_2.
  - rewrite Nat.eqb_refl. apply list_find_None in Hfind.
    destruct (existsb id tcs) eqn:Hex; [|done].
    apply existsb_exists in Hex as (b & Hin & Hb).
    rewrite Forall_forall in Hfind. apply list_elem_of_In in Hin.
    destruct (Hfind b Hin). by destruct b.
Qed.

Lemma build_mesh_flags_eq st mi mesh :
  build_mesh_flags st mi mesh
  = (raise_flags (fst st) [mesh], <[mi := raw_mesh_flags mesh]> (snd st)).
Proof.
  unfold build_mesh_flags, raise_flags, raw_mesh_flags, tangent_framed, textured.
  rewrite first_texcoord_none.
  destruct st as [[n tq tc d s] ms], mesh as [mn mt mb tcs]. simpl.
  by destruct mn, mt, mb, (existsb id tcs), tq, tc.
Qed.

Lemma raise_flags_nil flags : raise_flags flags [] = flags.
Proof. destruct flags. unfold raise_flags. simpl. by rewrite !orb_false_r. Qed.

Lemma raise_flags_app flags l1 l2 :
  raise_flags (raise_flags flags l1) l2 = raise_flags flags (l1 ++ l2).
Proof.
  unfold raise_flags. simpl. by rewrite !existsb_app, !orb_assoc.
Qed.

Lemma foldl_build_mesh_flags meshes : ∀ pre old flags,
  length old = length meshes →
  foldl (λ st im, build_mesh_flags st im.1 im.2) (flags, pre ++ old)
        (imap (λ i, pair (length pre + i)%nat) meshes)
  = (raise_flags flags meshes, pre ++ (raw_mesh_flags <$> meshes)).
Proof.
  induction meshes as [|mesh meshes IH]; intros pre old flags Hlen.
  - destruct old; [|done]. simpl. by rewrite raise_flags_nil.
  - destruct old as [|o old]; [done|]. cbn [imap foldl].
    rewrite build_mesh_flags_eq. cbn [fst snd].
    rewrite Nat.add_0_r, insert_app_r_alt, Nat.sub_diag by lia. cbn [insert list_insert].
    rewrite (cons_middle _ pre old), app_assoc.
    rewrite (imap_ext _ (λ i, pair (length (pre ++ [raw_mesh_flags mesh]) + i)%nat) meshes).
    + rewrite IH by (simpl in Hlen; lia).
      rewrite raise_flags_app. simpl. by rewrite <- app_assoc.
    + intros i m _. simpl. rewrite length_app. simpl. f_equal. lia.
Qed.

Lemma foldl_build_mesh_flags_fst l : ∀ st,
  fst (foldl (λ st im, build_mesh_flags st im.1 im.2) st l) = raise_flags (fst st) l.*2.
Proof.
  induction l as [|[mi mesh] l IH]; intros st; simpl.
  - by rewrite raise_flags_nil.
  - rewrite IH, build_mesh_flags_eq. cbn [fst]. by rewrite raise_flags_app.
Qed.

Lemma snd_imap_pair {A} (l : list A) : (imap pair l).*2 = l.
Proof.
  rewrite fmap_imap. rewrite (imap_ext _ (λ _ x, x)) by done.
  induction l as [|x l IH]; [done|]. simpl. f_equal.
  by rewrite (imap_ext _ (λ _ x, x)).
Qed.

Lemma BuildMeshData_flags_fst scene_lods : ∀ st,
  fst (BuildMeshData_flags scene_lods st) = raise_flags (fst st) (concat scene_lods).
Proof.
  unfold BuildMeshData_flags.
  induction scene_lods as [|meshes scene_lods IH]; intros st; simpl.
  - by rewrite raise_flags_nil.
  - rewrite IH. unfold build_lod_flags. cbn [fst].
    by rewrite foldl_build_mesh_flags_fst, snd_imap_pair, raise_flags_app.
Qed.

Lemma existsb_elem {A} (f : A → bool) (l : list A) x :
  x ∈ l → f x = true → existsb f l = true.
Proof.
  intros Hin Hx. apply existsb_exists. exists x. split; [|done]. by apply list_elem_of_In.
Qed.

Lemma untextured_head mesh :
  has_mTextureCoords mesh ≠ [] → textured mesh = false →
  has_mTextureCoords mesh !! 0%nat = Some false.
Proof.
  unfold textured. destruct (has_mTextureCoords mesh) as [|[] tcs]; by simpl.
Qed.

Lemma level_mesh_flags_uniform flags meshes mesh :
  mesh ∈ meshes →
  has_mTextureCoords mesh ≠ [] →
  flags_uniform (raise_flags flags meshes)
                (level_mesh_flags (raise_flags flags meshes) (raw_mesh_flags mesh)).
Proof.
  intros Hin Hne. unfold flags_uniform, level_mesh_flags.
  set (F := raise_flags flags meshes).
  assert (Htq : tangent_framed mesh = true → has_tangent_quat_ F = true).
  { intros Hm. unfold F, raise_flags. cbn [has_tangent_quat_].
    rewrite (existsb_elem tangent_framed meshes mesh Hin Hm). apply orb_true_r. }
  assert (Htc : textured mesh = true → has_texcoord_ F = true).
  { intros Hm. unfold F, raise_flags. cbn [has_texcoord_].
    rewrite (existsb_elem textured meshes mesh Hin Hm). apply orb_true_r. }
  unfold raw_mesh_flags. cbn [has_normal has_tangent_frame has_texcoord].
  assert (Hframe : has_tangent_frame
                     (if has_tangent_quat_ F && negb (tangent_framed mesh)
                      then {| has_normal := true; has_tangent_frame := true;
                              has_texcoord := has_mTextureCoords mesh |}
                      else {| has_normal := true; has_tangent_frame := tangent_framed mesh;
                              has_texcoord := has_mTextureCoords mesh |})
                   = has_tangent_quat_ F).
  { destruct (tangent_framed mesh); [by rewrite Htq, andb_false_r|].
    by destruct (has_tangent_quat_ F). }
  revert Hframe.
  generalize (has_tangent_quat_ F && negb (tangent_framed mesh)). intros c Hframe.
  assert (Hrest : has_normal (if c then {| has_normal := true; has_tangent_frame := true;
                                           has_texcoord := has_mTextureCoords mesh |}
                              else {| has_normal := true;
                                      has_tangent_frame := tangent_framed mesh;
                                      has_texcoord := has_mTextureCoords mesh |}) = true
                  ∧ has_texcoord (if c then {| has_normal := true; has_tangent_frame := true;
                                               has_texcoord := has_mTextureCoords mesh |}
                                  else {| has_normal := true;
                                          has_tangent_frame := tangent_framed mesh;
                                          has_texcoord := has_mTextureCoords mesh |})
                    = has_mTextureCoords mesh) by (by destruct c).
  destruct Hrest as [Hn Ht]. revert Hframe Hn Ht.
  generalize (if c then {| has_normal := true; has_tangent_frame := true;
                           has_texcoord := has_mTextureCoords mesh |}
              else {| has_normal := true; has_tangent_frame := tangent_framed mesh;
                      has_texcoord := has_mTextureCoords mesh |}).
  intros m Hframe Hn Ht. rewrite Ht.
  destruct (has_texcoord_ F) eqn:HF; cbn [andb].
  - destruct (has_mTextureCoords mesh) as [|b tcs] eqn:Htcs; [done|].
    destruct b; simpl; repeat split; try done; by rewrite Ht.
  - repeat split; try done. rewrite Ht. apply untextured_head; [done|].
    destruct (textured mesh); [|done]. by specialize (Htc eq_refl).
Qed.

Lemma build_lod_flags_uniform st meshes :
  length (snd st) = length meshes →
  Forall (λ mesh, has_mTextureCoords mesh ≠ []) meshes →
  length (snd (build_lod_flags st meshes)) = length meshes
  ∧ Forall (flags_uniform (fst (build_lod_flags st meshes))) (snd (build_lod_flags st meshes)).
Proof.
  intros Hlen Hne. destruct st as [flags old]. cbn [snd] in Hlen.
  unfold build_lod_flags.
  pose proof (foldl_build_mesh_flags meshes [] old flags Hlen) as Hfold.
  cbn [app length Nat.add] in Hfold.
  rewrite (imap_ext _ pair meshes) in Hfold by done.
  rewrite Hfold. cbn [fst snd]. split.
  - by rewrite length_imap, length_fmap.
  - apply Forall_lookup. intros i m Hi.
    rewrite list_lookup_imap, list_lookup_fmap in Hi.
    destruct (meshes !! i) as [mesh|] eqn:Hmesh; [|done]. simpl in Hi.
    pose proof (lookup_lt_Some _ _ _ Hmesh) as Hlt.
    apply Nat.ltb_lt in Hlt. rewrite Hlt in Hi. injection Hi as <-.
    apply level_mesh_flags_uniform; [by eapply list_elem_of_lookup_2|].
    rewrite Forall_forall in Hne. apply Hne. by eapply list_elem_of_lookup_2.
Qed.

Lemma build_lod_flags_length st meshes :
  length (snd (build_lod_flags st meshes)) = length (snd st).
Proof.
  unfold build_lod_flags. cbn [snd]. rewrite length_imap.
  generalize (imap pair meshes). intros l. revert st.
  induction l as [|[mi mesh] l IH]; intros st; [done|]. simpl.
  rewrite IH, build_mesh_flags_eq. cbn [snd]. by rewrite length_insert.
Qed.

Lemma BuildMeshData_flags_length scene_lods : ∀ st,
  length (snd (BuildMeshData_flags scene_lods st)) = length (snd st).
Proof.
  unfold BuildMeshData_flags.
  induction scene_lods as [|meshes scene_lods IH]; intros st; [done|]. simpl.
  by rewrite IH, build_lod_flags_length.
Qed.

(** X29: the flags after BuildMeshData.  When every LOD has as many meshes
    as [meshes_] has entries, and every mesh at least one slot for texture
    coordinates, every entry of [meshes_] ends with the converter's flags:
    it has normals, it has a tangent frame exactly when [has_tangent_quat_]
    is set, and its first set of texture coordinates is marked exactly when
    [has_texcoord_] is set.  One vertex layout then fits every mesh. *)
Theorem BuildMeshData_flags_uniform (scene_lods : list (list MeshArrays))
    (flags0 : AttributeFlags) (meshes0 : list MeshFlags) :
  scene_lods ≠ [] →
  Forall (λ meshes, length meshes = length meshes0
                    ∧ Forall (λ mesh, has_mTextureCoords mesh ≠ []) meshes) scene_lods →
  let st := BuildMeshData_flags scene_lods (flags0, meshes0) in
  length (snd st) = length meshes0 ∧ Forall (flags_uniform (fst st)) (snd st).
Proof.
  intros Hne Hall st. subst st.
  destruct (exists_last Hne) as (pre & meshes & ->).
  apply Forall_app in Hall as [_ Hlast].
  apply Forall_singleton in Hlast as [Hlen Htcs].
  unfold BuildMeshData_flags. rewrite foldl_snoc.
  fold (BuildMeshData_flags pre (flags0, meshes0)).
  destruct (build_lod_flags_uniform (BuildMeshData_flags pre (flags0, meshes0)) meshes)
    as [Hlen' Hunif]; [|done|].
  - by rewrite BuildMeshData_flags_length.
  - split; [by rewrite Hlen'|done].
Qed.

Lemma BuildMeshData_flags_uniform_witness :
  Forall (flags_uniform (fst (BuildMeshData_flags [plain_and_textured]
                                (cleared_flags, [blank_mesh_flags; blank_mesh_flags]))))
         (snd (BuildMeshData_flags [plain_and_textured]
                 (cleared_flags, [blank_mesh_flags; blank_mesh_flags]))).
Proof.
  apply (BuildMeshData_flags_uniform [plain_and_textured] cleared_flags
           [blank_mesh_flags; blank_mesh_flags]).
  - done.
  - repeat constructor; done.
Defined.

(** X30: BuildMeshData and the vertex layout of Convert.  From the flags
    as Convert clears them, BuildMeshData sets [has_tangent_quat_] exactly
    when some mesh of some LOD has tangents, bitangents or a set of texture
    coordinates, and [has_texcoord_] exactly when some mesh has a set of
    texture coordinates; it never sets [has_normal_] (the assignment that
    would do so writes the local variable).  The layout therefore has no
    normal stream, and a texture coordinate stream only together with the
    tangent quaternion stream. *)
Theorem BuildMeshData_layout (scene_lods : list (list MeshArrays))
    (meshes0 : list MeshFlags) (skinned : bool) :
  let flags := fst (BuildMeshData_flags scene_lods (cleared_flags, meshes0)) in
  let layout := vertex_layout flags skinned in
  has_normal_ flags = false
  ∧ has_tangent_quat_ flags = existsb tangent_framed (concat scene_lods)
  ∧ has_texcoord_ flags = existsb textured (concat scene_lods)
  ∧ normal_stream layout = (-1)%Z
  ∧ (texcoord_stream layout ≠ (-1)%Z → tangent_quat_stream layout = 1%Z).
Proof.
  intros flags layout. subst layout flags.
  rewrite BuildMeshData_flags_fst. cbn [fst].
  unfold raise_flags, cleared_flags. cbn [has_normal_ has_tangent_quat_ has_texcoord_
    has_diffuse_ has_specular_ orb].
  assert (Himp : existsb textured (concat scene_lods) = true
                 → existsb tangent_framed (concat scene_lods) = true).
  { intros Hex. apply existsb_exists in Hex as (mesh & Hin & Hmesh).
    apply existsb_exists. exists mesh. split; [done|].
    unfold tangent_framed. rewrite Hmesh. apply orb_true_r. }
  destruct (existsb tangent_framed (concat scene_lods)),
    (existsb textured (concat scene_lods)), skinned;
    try (by specialize (Himp eq_refl)); by vm_compute.
Qed.

(** * The rotation stored for each joint *)

Lemma bone_sites_eq `{MathLib} meshes name trans ms cs parent_mat :
  bone_sites meshes (AiNode name trans ms cs) parent_mat
  = node_bone_sites meshes (mat_mul (mat_transpose trans) parent_mat) ms
    ++ (cs ≫= λ c, bone_sites meshes c (mat_mul (mat_transpose trans) parent_mat)).
Proof. reflexivity. Qed.

Lemma bone_joint_site `{MathLib} mesh_trans bone :
  bone_joint mesh_trans bone = site_joint (bone_mName bone, bone_to_mesh mesh_trans bone).
Proof. reflexivity. Qed.

Lemma add_node_bones_sites `{MathLib} meshes mesh_trans node_meshes : ∀ jn,
  add_node_bones meshes mesh_trans node_meshes jn
  = foldl (λ jn site, <[site.1 := site_joint site]> jn) jn
          (node_bone_sites meshes mesh_trans node_meshes).
Proof.
  unfold add_node_bones, node_bone_sites.
  induction node_meshes as [|mi mis IH]; intros jn; [done|].
  cbn [foldl]. rewrite bind_cons, foldl_app, IH. f_equal.
  destruct (meshes !! mi) as [mesh|]; [|done].
  generalize (mBones mesh). intros bones. revert jn.
  induction bones as [|bone bones IHb]; intros jn; [done|].
  cbn [foldl fmap list_fmap]. apply IHb.
Qed.

Lemma build_bind_matrix_sites `{MathLib} meshes node : ∀ parent_mat jn,
  build_bind_matrix meshes node parent_mat jn
  = foldl (λ jn site, <[site.1 := site_joint site]> jn) jn
          (bone_sites meshes node parent_mat).
Proof.
  induction node as [name trans ms cs IHcs] using aiNode_ind.
  intros parent_mat jn. rewrite build_bind_matrix_eq, bone_sites_eq, foldl_app.
  rewrite add_node_bones_sites.
  generalize (foldl (λ jn site, <[site.1 := site_joint site]> jn) jn
                (node_bone_sites meshes (mat_mul (mat_transpose trans) parent_mat) ms)).
  induction IHcs as [|c cs Hc _ IH]; intros jn1; [done|].
  cbn [foldl]. rewrite bind_cons, foldl_app, <- Hc. apply IH.
Qed.

(** The last insertion under a key decides the entry. *)
Lemma foldl_insert_last {A B} (key : A → string) (val : A → B) (sites : list A) :
  ∀ (m : gmap string B) k,
    foldl (λ m s, <[key s := val s]> m) m sites !! k
    = match last (filter (λ s, key s = k) sites) with
      | Some s => Some (val s)
      | None => m !! k
      end.
Proof.
  induction sites as [|s sites IH] using rev_ind; intros m k; [done|].
  rewrite foldl_snoc, filter_app, filter_cons, filter_nil.
  destruct (decide (key s = k)) as [Hk|Hk].
  - rewrite last_snoc, Hk. by rewrite lookup_insert_eq.
  - rewrite app_nil_r, lookup_insert_ne by done. apply IH.
Qed.

Lemma last_filter_holds {A} (P : A → Prop) `{∀ x, Decision (P x)} (l : list A) x :
  last (filter P l) = Some x → P x.
Proof.
  intros Hlast. apply last_Some in Hlast as [l' Hl'].
  assert (Hin : x ∈ filter P l) by (rewrite Hl'; apply elem_of_app; right; by left).
  by apply list_elem_of_filter in Hin as [? _].
Qed.

Lemma site_joint_name `{MathLib} site : joint_name (site_joint site) = site.1.
Proof. unfold site_joint. by destruct (MatrixToDQ _) as [[r d] s]. Qed.

Lemma site_joint_bind_real `{MathLib} site :
  bind_real (site_joint site) = MatrixToDQ_real site.2.
Proof. unfold site_joint, MatrixToDQ_real. by destruct (MatrixToDQ _) as [[r d] s]. Qed.

Lemma build_bind_matrix_decided `{MathLib} scene :
  let jn0 := build_bind_matrix (scene_mMeshes scene) (mRootNode scene) float4x4_Identity ∅ in
  bind_real_decided (bind_real_of scene) jn0
  ∧ sites_present (λ k, is_Some (bind_matrix_of scene k)) jn0.
Proof.
  intros jn0. subst jn0. rewrite build_bind_matrix_sites.
  set (sites := bone_sites (scene_mMeshes scene) (mRootNode scene) float4x4_Identity).
  assert (Hlook : ∀ k,
            foldl (λ jn site, <[site.1 := site_joint site]> jn) (∅ : gmap string Joint) sites !! k
            = site_joint <$> last (filter (λ site, site.1 = k) sites)).
  { intros k. rewrite (foldl_insert_last fst site_joint sites (∅ : gmap string Joint) k).
    by destruct (last _). }
  split.
  - intros k j Hj. rewrite Hlook in Hj.
    unfold bind_real_of, bind_matrix_of. fold sites.
    destruct (last (filter (λ site, site.1 = k) sites)) as [site|] eqn:Hlast; [|done].
    injection Hj as <-. apply last_filter_holds in Hlast. simpl in *.
    by rewrite site_joint_name, site_joint_bind_real.
  - intros k [mat Hmat]. rewrite Hlook. unfold bind_matrix_of in Hmat. fold sites in Hmat.
    destruct (last (filter (λ site, site.1 = k) sites)); [by eexists|done].
Qed.

Lemma sites_present_kept sited jn jn' :
  sites_present sited jn → keys_kept jn jn' → sites_present sited jn'.
Proof. intros Hs Hk k Hsited. by apply Hk, Hs. Qed.

Lemma bind_real_decided_keyed decided jn : bind_real_decided decided jn → keyed_by_name jn.
Proof. intros Hd k j Hj. by destruct (Hd k j Hj). Qed.

Lemma mark_joint_nodes_decided decided sited node :
  (∀ k, ¬ sited k → decided k = Quaternion_Identity) →
  ∀ jn,
    bind_real_decided decided jn → sites_present sited jn →
    bind_real_decided decided (snd (mark_joint_nodes node jn))
    ∧ keys_kept jn (snd (mark_joint_nodes node jn)).
Proof.
  intros Hhelper.
  induction node as [name trans ms cs IHcs] using aiNode_ind.
  intros jn Hd Hs. rewrite mark_joint_nodes_eq. cbv zeta.
  set (found := bool_decide (is_Some (jn !! name))).
  assert (Hchildren : ∀ acc : bool * gmap string Joint,
            bind_real_decided decided (snd acc) → sites_present sited (snd acc) →
            let res := foldl (λ (acc : bool * gmap string Joint) c,
                                (fst (mark_joint_nodes c (snd acc)) || fst acc,
                                 snd (mark_joint_nodes c (snd acc)))) acc cs in
            bind_real_decided decided (snd res) ∧ keys_kept (snd acc) (snd res)).
  { induction IHcs as [|c cs Hc _ IH]; intros acc Hacc Hsacc; cbv zeta; cbn [foldl].
    - split; [done|apply keys_kept_refl].
    - destruct (Hc (snd acc) Hacc Hsacc) as [Hd2 Hkept2].
      destruct (IH (fst (mark_joint_nodes c (snd acc)) || fst acc,
                    snd (mark_joint_nodes c (snd acc))) Hd2
                   (sites_present_kept _ _ _ Hsacc Hkept2)) as [Hd' Hkept'].
      cbv zeta in *. split; [done|]. by eapply keys_kept_trans. }
  destruct (Hchildren (found, jn) Hd Hs) as [Hd' Hkept']. cbv zeta in *. cbn [snd] in *.
  destruct (fst _ && negb found) eqn:Hins; cbn [snd]; [|by split].
  split.
  - apply map_Forall_insert_2; [|done]. split; [done|].
    apply andb_true_iff in Hins as [_ Hnf]. apply negb_true_iff in Hnf.
    subst found. apply bool_decide_eq_false in Hnf.
    rewrite Hhelper; [done|]. intros Hsited. apply Hnf. by apply Hs.
  - eapply keys_kept_trans; [exact Hkept'|apply keys_kept_insert].
Qed.

Lemma alloc_joints_decided `{MathLib} decided node : ∀ parent_id st,
  bind_real_decided decided (fst st) →
  Forall (λ j, bind_real j = decided (joint_name j)) (snd st) →
  bind_real_decided decided (fst (alloc_joints node parent_id st))
  ∧ Forall (λ j, bind_real j = decided (joint_name j)) (snd (alloc_joints node parent_id st)).
Proof.
  induction node as [name trans ms cs IHcs] using aiNode_ind.
  intros parent_id [jn joints] Hd Hjs. cbn [fst snd] in Hd, Hjs.
  rewrite alloc_joints_eq. cbv zeta.
  set (step := match jn !! name with
               | Some j =>
                   (Z.of_nat (length joints),
                    (<[name := alloc_joint j (mat_transpose trans) parent_id]> jn,
                     joints ++ [alloc_joint j (mat_transpose trans) parent_id]))
               | None => ((-1)%Z, (jn, joints))
               end).
  assert (Hstep : bind_real_decided decided (fst (snd step))
                  ∧ Forall (λ j, bind_real j = decided (joint_name j)) (snd (snd step))).
  { subst step. destruct (jn !! name) as [j|] eqn:Hj; cbn [fst snd]; [|by split].
    destruct (Hd name j Hj) as [Hname Hreal].
    split.
    - apply map_Forall_insert_2; [|done].
      by rewrite alloc_joint_name, alloc_joint_bind_real.
    - apply Forall_app. split; [done|]. constructor; [|constructor].
      rewrite alloc_joint_name, alloc_joint_bind_real. by rewrite Hname. }
  destruct Hstep as [Hd1 Hjs1]. generalize (fst step). intros joint_id.
  revert Hd1 Hjs1. generalize (snd step).
  induction IHcs as [|c cs Hc _ IH]; intros st1 Hd1 Hjs1; [done|].
  cbn [foldl]. destruct (Hc joint_id st1 Hd1 Hjs1) as [Hd2 Hjs2]. by apply IH.
Qed.

Lemma BuildJoints_decided `{MathLib} scene :
  Forall (λ j, bind_real j = bind_real_of scene (joint_name j)) (BuildJoints scene).
Proof.
  unfold BuildJoints.
  destruct (build_bind_matrix_decided scene) as [Hd0 Hs0]. cbv zeta in Hd0, Hs0.
  destruct (mark_joint_nodes_decided (bind_real_of scene)
              (λ k, is_Some (bind_matrix_of scene k)) (mRootNode scene)) with
    (jn := build_bind_matrix (scene_mMeshes scene) (mRootNode scene) float4x4_Identity ∅)
    as [Hd1 _]; [|done|done|].
  { intros k Hk. unfold bind_real_of. destruct (bind_matrix_of scene k); [|done].
    destruct Hk. by eexists. }
  apply (alloc_joints_decided (bind_real_of scene) (mRootNode scene) (-1)%Z); [done|].
  constructor.
Qed.

(** C2 (amended): after BuildJoints every stored joint's bind_real has unit
    norm (decompose returning a unit rotation).  A joint whose name is the
    name of no bone is a synthesized helper joint: its bind_real is the
    identity, with scalar component 1.  A joint named after a bone holds the
    rotation MatrixToDQ returns for the bind matrix of that bone (the
    inverse of its transposed offset matrix times the transform of the node
    of its mesh; the last bone of the name met by the walk), and its scalar
    component has the sign of flip: non-negative when the determinant of
    that matrix is non-negative and non-positive when it is negative
    (reflection). *)
Theorem BuildJoints_bind_real `{MathLibContract} (scene : aiScene) :
  Forall (λ j,
    quat_unit (bind_real j)
    ∧ match bind_matrix_of scene (joint_name j) with
      | None => bind_real j = Quaternion_Identity ∧ q_w (bind_real j) = 1
      | Some mat =>
          bind_real j = MatrixToDQ_real mat
          ∧ 0 <= flip_of mat * q_w (bind_real j)
          ∧ (0 <= mat_det3 mat → 0 <= q_w (bind_real j))
          ∧ (mat_det3 mat < 0 → q_w (bind_real j) <= 0)
      end)
    (BuildJoints scene).
Proof.
  eapply Forall_impl; [apply BuildJoints_decided|].
  intros j Hj. simpl in Hj. unfold bind_real_of in Hj.
  destruct (bind_matrix_of scene (joint_name j)) as [mat|].
  - rewrite Hj. split; [apply MatrixToDQ_unit|].
    pose proof (MatrixToDQ_sign mat) as Hs.
    split; [done|]. split; [done|].
    unfold flip_of in Hs. destruct (Qlt_le_dec (mat_det3 mat) 0); split; intros; lra.
  - rewrite Hj. by repeat split.
Qed.

Lemma BuildJoints_bind_real_witness :
  Forall (λ j,
    quat_unit (bind_real j)
    ∧ match bind_matrix_of (H := unrotated_MathLib) mirror_scene (joint_name j) with
      | None => bind_real j = Quaternion_Identity ∧ q_w (bind_real j) = 1
      | Some mat =>
          bind_real j = MatrixToDQ_real (H := unrotated_MathLib) mat
          ∧ 0 <= flip_of mat * q_w (bind_real j)
          ∧ (0 <= mat_det3 mat → 0 <= q_w (bind_real j))
          ∧ (mat_det3 mat < 0 → q_w (bind_real j) <= 0)
      end)
    (BuildJoints (H := unrotated_MathLib) mirror_scene).
Proof.
  exact (@BuildJoints_bind_real unrotated_MathLib unrotated_MathLib_contract mirror_scene).
Defined.

(** * The timeline of a clip of negative duration *)


(** * Convert: the normal stream and the tangent stream, read back *)



Lemma vertices_before_S lods k lod :
  lods !! k = Some lod →
  vertices_before lods (S k) = (vertices_before lods k + num_positions lod)%nat.
Proof.
  intros Hk. unfold vertices_before.
  rewrite (take_S_r _ _ _ Hk), sum_list_with_app. simpl. lia.
Qed.

Lemma vertices_before_le lods k : (vertices_before lods k ≤ vertices_before lods (length lods))%nat.
Proof.
  unfold vertices_before. rewrite firstn_all.
  rewrite <- (take_drop k lods) at 2. rewrite sum_list_with_app. lia.
Qed.








(** With diffuse colours, the colours of a LOD follow its tangent frames
    in the tangent stream: for two meshes of one white vertex each, the
    vertex of the second mesh is read at StartVertexLocation 1, where the
    stream holds the colour of the first mesh and not the codes 128, 128,
    128, 255 of the identity frame. *)
Example tangent_stream_colours_interleaved :
  tangent_stream_bytes
    (merge_attributes (vertex_layout (tangent_flags true) false) pair_nodes
       [[white_vertex]; [white_vertex]])
  = [128; 128; 128; 255; 255; 255; 255; 255; 128; 128; 128; 255; 255; 255; 255; 255]%Z
  ∧ (λ c, vertex_byte
            (tangent_stream_bytes
               (merge_attributes (vertex_layout (tangent_flags true) false) pair_nodes
                  [[white_vertex]; [white_vertex]])) 1 0 c) <$> [0; 1; 2; 3]%nat
    = [255; 255; 255; 255]%Z.
Proof. split; by vm_compute. Qed.
